(** * JSON2Podcast: a shallow embedding of the podcast assembly pipeline

    The repository holds two Streamlit applications, [app.py] and
    [podcast_generator_app.py].  Both keep their data in
    [st.session_state] and drive one remote text-to-speech service and the
    [pydub] audio library.  This development embeds

    - the values the applications handle (Python strings, JSON values,
      dictionaries, the session state),
    - the button handlers of the wizard steps as computations in a state and
      exception monad over the session state and the remote service,

    and proves the properties of the assembly pipeline on them. *)

From Stdlib Require Import ZArith QArith String Ascii List.
From Stdlib Require Import Decimal DecimalString DecimalFacts DecimalPos DecimalN DecimalZ.
From stdpp Require Import base option list gmap strings.

#[local] Open Scope string_scope.
#[local] Open Scope Z_scope.
#[local] Open Scope list_scope.
#[local] Arguments String.append !s1 s2 : simpl nomatch.

(** ** Python strings

    A Python [str] is modelled by a [string] whose characters are the code
    points below 256. *)

Module PyStr.

Definition code (c : ascii) : N := N_of_ascii c.

(** [str.isspace] on the code points below 256. *)
Definition isspace (c : ascii) : bool :=
  let n := code c in
  (((9 <=? n) && (n <=? 13)) || ((28 <=? n) && (n <=? 32))
   || (n =? 133) || (n =? 160))%N.

Definition isdigit (c : ascii) : bool :=
  let n := code c in ((48 <=? n) && (n <=? 57))%N.

(** [bool(s)]: a string is true when it is not empty. *)
Definition truthy (s : string) : bool :=
  match s with EmptyString => false | String _ _ => true end.

Definition flush (cur : string) : list string :=
  match cur with EmptyString => [] | String _ _ => [cur] end.

(** [s.split()]: the maximal runs of characters that are not white space. *)
Fixpoint split_from (cur : string) (s : string) : list string :=
  match s with
  | EmptyString => flush cur
  | String c s' =>
      if isspace c then flush cur ++ split_from "" s'
      else split_from (cur +:+ String c "") s'
  end.

Definition split (s : string) : list string := split_from "" s.

(** [s.strip()] *)
Fixpoint lstrip (s : string) : string :=
  match s with
  | EmptyString => ""
  | String c s' => if isspace c then lstrip s' else s
  end.

Fixpoint rstrip (s : string) : string :=
  match s with
  | EmptyString => ""
  | String c s' =>
      match rstrip s' with
      | EmptyString => if isspace c then "" else String c ""
      | r => String c r
      end
  end.

Definition strip (s : string) : string := rstrip (lstrip s).

(** The digits of an integer literal: single underscores may separate
    digits, and are dropped.  [after_digit] tells whether the previous
    character was a digit. *)
Fixpoint literal_digits (after_digit : bool) (s : string) : option string :=
  match s with
  | EmptyString => if after_digit then Some "" else None
  | String c s' =>
      if isdigit c then String c <$> literal_digits true s'
      else if Ascii.eqb c "_" then
        if after_digit then literal_digits false s' else None
      else None
  end.

Definition digits_value (s : string) : option Z :=
  Z.of_uint <$> NilEmpty.uint_of_string s.

(** [int(s)], base 10: [None] stands for the [ValueError]. *)
Definition int (s : string) : option Z :=
  match strip s with
  | EmptyString => None
  | String c r =>
      if Ascii.eqb c "-" then Z.opp <$> (literal_digits false r ≫= digits_value)
      else if Ascii.eqb c "+" then literal_digits false r ≫= digits_value
      else literal_digits false (String c r) ≫= digits_value
  end.

(** [s[n:]] *)
Fixpoint drop (n : nat) (s : string) : string :=
  match n, s with
  | O, _ => s
  | S n', String _ r => drop n' r
  | S _, EmptyString => ""
  end.

(** [str(n)] for a natural number. *)
Definition of_nat (n : nat) : string :=
  NilEmpty.string_of_uint (N.to_uint (N.of_nat n)).

(** [str(z)] for an integer. *)
Definition of_Z (z : Z) : string :=
  NilEmpty.string_of_int (Z.to_int z).

(** [s[:n]] *)
Fixpoint take (n : nat) (s : string) : string :=
  match n, s with
  | S n', String c r => String c (take n' r)
  | _, _ => ""
  end.

(** [s[-n:]], for [n > 0]: the whole of a string shorter than [n]. *)
Definition suffix (n : nat) (s : string) : string :=
  drop (String.length s - n) s.

(** [c * n], for a string [c] of one character: empty when [n <= 0]. *)
Definition times (c : ascii) (n : Z) : string :=
  string_of_list_ascii (repeat c (Z.to_nat n)).

(** [s.encode()], UTF-8: one byte for a code point below 128, two for
    the others below 256. *)
Fixpoint encode (s : string) : string :=
  match s with
  | EmptyString => ""
  | String c r =>
      let n := code c in
      if (n <? 128)%N then String c (encode r)
      else String (ascii_of_N (192 + n / 64))
             (String (ascii_of_N (128 + n mod 64)) (encode r))
  end.

(** [bs.decode()], UTF-8, on bytes below 128; [None] when a byte is not:
    such bytes are outside the model. *)
Definition decode (bs : string) : option string :=
  if forallb (λ c, (code c <? 128)%N) (list_ascii_of_string bs)
  then Some bs else None.

End PyStr.

(** ** Python lists: subscripts *)

Module PyList.

(** The position that index [i] addresses in a list of length [n]:
    negative indices count from the end, [None] is the [IndexError]. *)
Definition position (n : nat) (i : Z) : option nat :=
  if (0 <=? i) && (i <? Z.of_nat n) then Some (Z.to_nat i)
  else if (i <? 0) && (- Z.of_nat n <=? i) then Some (Z.to_nat (Z.of_nat n + i))
  else None.

End PyList.

(** ** JSON values

    What [json.loads] returns: [None], booleans, integers, strings, lists and
    dictionaries.  Floating-point numbers are left out of the model.  A
    dictionary keeps its keys in insertion order. *)

#[local] Unset Elimination Schemes.
Inductive json : Type :=
| JNull
| JBool (b : bool)
| JInt (n : Z)
| JStr (s : string)
| JList (items : list json)
| JDict (fields : list (string * json)).
#[local] Set Elimination Schemes.

Module PyDict.
Section Dict.
Context {V : Type}.

(** [d.get(k)] *)
Fixpoint get (d : list (string * V)) (k : string) : option V :=
  match d with
  | [] => None
  | (k', v) :: d' => if String.eqb k' k then Some v else get d' k
  end.

(** [k in d] *)
Definition has (d : list (string * V)) (k : string) : bool :=
  match get d k with Some _ => true | None => false end.

(** [d[k] = v]: an existing key keeps its place, a new one goes last. *)
Fixpoint set (d : list (string * V)) (k : string) (v : V) : list (string * V) :=
  match d with
  | [] => [(k, v)]
  | (k', v') :: d' =>
      if String.eqb k' k then (k', v) :: d' else (k', v') :: set d' k v
  end.
End Dict.
End PyDict.

(** ** Exceptions *)

Inductive exn : Type :=
| KeyError (key : json)
| IndexError
| ValueError
| TypeError
| JSONDecodeError
| CouldntDecodeError     (* pydub could not decode a file *)
| SynthesisError         (* the text-to-speech call raised *)
| RerunException         (* [st.rerun()] stops the script run *)
| Unmodelled.            (* the input is outside the model *)

(** [j[k]] for a string subscript [k]. *)
Definition subscript (j : json) (k : string) : exn + json :=
  match j with
  | JDict d =>
      match PyDict.get d k with
      | Some v => inr v
      | None => inl (KeyError (JStr k))
      end
  | _ => inl TypeError
  end.

(** [j[k] = v] for a string subscript [k]: the updated object. *)
Definition store (j : json) (k : string) (v : json) : exn + json :=
  match j with
  | JDict d => inr (JDict (PyDict.set d k v))
  | _ => inl TypeError
  end.

(** ** The [json] module

    [json.loads] and [json.dumps(obj, indent=2)] on the values above.  A
    floating-point literal, [NaN], [Infinity] and an escape of a code point
    above 255 are answered with [Unmodelled]. *)

Module Json.

(** The double quote. *)
Definition dquote : ascii := "034"%char.

Definition is_ws (c : ascii) : bool :=
  Ascii.eqb c " " || Ascii.eqb c "009" || Ascii.eqb c "010" || Ascii.eqb c "013".

Fixpoint skip_ws (s : string) : string :=
  match s with
  | EmptyString => ""
  | String c r => if is_ws c then skip_ws r else s
  end.

(** [s] without its prefix [p], when it starts with [p]. *)
Fixpoint strip_prefix (p s : string) : option string :=
  match p, s with
  | EmptyString, _ => Some s
  | String a p', String b s' => if Ascii.eqb a b then strip_prefix p' s' else None
  | String _ _, EmptyString => None
  end.

Definition starts_with (p s : string) : bool :=
  match strip_prefix p s with Some _ => true | None => false end.

(** *** Decoding *)

Definition hex_digit (c : ascii) : option N :=
  let n := PyStr.code c in
  if ((48 <=? n) && (n <=? 57))%N then Some (n - 48)%N
  else if ((97 <=? n) && (n <=? 102))%N then Some (n - 87)%N
  else if ((65 <=? n) && (n <=? 70))%N then Some (n - 55)%N
  else None.

Definition hex4 (a b c d : ascii) : option N :=
  x1 ← hex_digit a; x2 ← hex_digit b; x3 ← hex_digit c; x4 ← hex_digit d;
  Some (((x1 * 16 + x2) * 16 + x3) * 16 + x4)%N.

(** The table [BACKSLASH] of the decoder. *)
Definition unescape (e : ascii) : option ascii :=
  if Ascii.eqb e dquote then Some dquote
  else if Ascii.eqb e "\" then Some "\"%char
  else if Ascii.eqb e "/" then Some "/"%char
  else if Ascii.eqb e "b" then Some "008"%char
  else if Ascii.eqb e "f" then Some "012"%char
  else if Ascii.eqb e "n" then Some "010"%char
  else if Ascii.eqb e "r" then Some "013"%char
  else if Ascii.eqb e "t" then Some "009"%char
  else None.

Definition cons_char (c : ascii) (r : exn + string * string) : exn + string * string :=
  match r with
  | inr (k, rest) => inr (String c k, rest)
  | inl e => inl e
  end.

(** [scanstring], strict, from the character after the opening quote:
    the string and what follows its closing quote. *)
Fixpoint scanstring (s : string) : exn + string * string :=
  match s with
  | EmptyString => inl JSONDecodeError
  | String c r =>
      if Ascii.eqb c dquote then inr ("", r)
      else if Ascii.eqb c "\" then
        match r with
        | EmptyString => inl JSONDecodeError
        | String e r1 =>
            if Ascii.eqb e "u" then
              match r1 with
              | String h1 (String h2 (String h3 (String h4 r2))) =>
                  match hex4 h1 h2 h3 h4 with
                  | None => inl JSONDecodeError
                  | Some n =>
                      if (n <? 256)%N then cons_char (ascii_of_N n) (scanstring r2)
                      else inl Unmodelled
                  end
              | _ => inl JSONDecodeError
              end
            else
              match unescape e with
              | Some c' => cons_char c' (scanstring r1)
              | None => inl JSONDecodeError
              end
        end
      else if (PyStr.code c <? 32)%N then inl JSONDecodeError
      else cons_char c (scanstring r)
  end.

(** The longest prefix of digits, and the rest. *)
Fixpoint span_digits (s : string) : string * string :=
  match s with
  | EmptyString => ("", "")
  | String c r =>
      if PyStr.isdigit c then let '(ds, rest) := span_digits r in (String c ds, rest)
      else ("", s)
  end.

Definition starts_with_digit (s : string) : bool :=
  match s with String c _ => PyStr.isdigit c | EmptyString => false end.

(** Does a fraction [\.\d+] or an exponent [[eE][-+]?\d+] follow? *)
Definition float_follows (s : string) : bool :=
  match s with
  | String c r =>
      if Ascii.eqb c "." then starts_with_digit r
      else if Ascii.eqb c "e" || Ascii.eqb c "E" then
        match r with
        | String sg r' =>
            if Ascii.eqb sg "+" || Ascii.eqb sg "-" then starts_with_digit r'
            else PyStr.isdigit sg
        | EmptyString => false
        end
      else false
  | EmptyString => false
  end.

Definition int_value (neg : bool) (ds : string) : Z :=
  match NilEmpty.uint_of_string ds with
  | Some d => if neg then - Z.of_uint d else Z.of_uint d
  | None => 0
  end.

(** What follows the character [c], when [s] starts with it. *)
Definition after (c : ascii) (s : string) : option string :=
  match s with
  | String c' r => if Ascii.eqb c' c then Some r else None
  | EmptyString => None
  end.

(** [NUMBER_RE.match], and the value of the match: [None] when the
    pattern does not match. *)
Definition match_number (s : string) : option (exn + json * string) :=
  let '(neg, s1) :=
    match after "-" s with
    | Some r => (true, r)
    | None => (false, s)
    end in
  match s1 with
  | EmptyString => None
  | String c r =>
      if Ascii.eqb c "0" then
        Some (if float_follows r then inl Unmodelled
              else inr (JInt (int_value neg "0"), r))
      else if PyStr.isdigit c then
        let '(ds, rest) := span_digits r in
        Some (if float_follows rest then inl Unmodelled
              else inr (JInt (int_value neg (String c ds)), rest))
      else None
  end.

(** [dict(pairs)] *)
Definition dict_of_pairs (pairs : list (string * json)) : list (string * json) :=
  foldl (λ d kv, PyDict.set d kv.1 kv.2) [] pairs.

(** The constants and the numbers of [scan_once]. *)
Definition scan_atom (s : string) : exn + json * string :=
  match strip_prefix "null" s, strip_prefix "true" s, strip_prefix "false" s with
  | Some rest, _, _ => inr (JNull, rest)
  | None, Some rest, _ => inr (JBool true, rest)
  | None, None, Some rest => inr (JBool false, rest)
  | None, None, None =>
      match match_number s with
      | Some r => r
      | None =>
          if starts_with "NaN" s || starts_with "Infinity" s
             || starts_with "-Infinity" s
          then inl Unmodelled
          else inl JSONDecodeError
      end
  end.

(** [scan_once], [JSONArray] and [JSONObject]: the value at the start of
    [s] and what follows it.  [array_items] and [object_pairs] start at an
    item and at the opening quote of a key; [fuel] bounds the calls. *)
Fixpoint scan_once (fuel : nat) (s : string) : exn + json * string :=
  match fuel with
  | O => inl Unmodelled
  | S fuel =>
      match s with
      | EmptyString => inl JSONDecodeError
      | String c r =>
          if Ascii.eqb c dquote then
            match scanstring r with
            | inr (k, rest) => inr (JStr k, rest)
            | inl e => inl e
            end
          else if Ascii.eqb c "{" then
            match after "}" (skip_ws r) with
            | Some rest => inr (JDict [], rest)
            | None =>
                match object_pairs fuel (skip_ws r) with
                | inr (pairs, rest) => inr (JDict (dict_of_pairs pairs), rest)
                | inl e => inl e
                end
            end
          else if Ascii.eqb c "[" then
            match after "]" (skip_ws r) with
            | Some rest => inr (JList [], rest)
            | None =>
                match array_items fuel (skip_ws r) with
                | inr (items, rest) => inr (JList items, rest)
                | inl e => inl e
                end
            end
          else scan_atom s
      end
  end
with array_items (fuel : nat) (s : string) : exn + list json * string :=
  match fuel with
  | O => inl Unmodelled
  | S fuel =>
      match scan_once fuel s with
      | inl e => inl e
      | inr (value, rest) =>
          match after "]" (skip_ws rest) with
          | Some rest' => inr ([value], rest')
          | None =>
              match after "," (skip_ws rest) with
              | Some rest' =>
                  match array_items fuel (skip_ws rest') with
                  | inr (values, rest'') => inr (value :: values, rest'')
                  | inl e => inl e
                  end
              | None => inl JSONDecodeError
              end
          end
      end
  end
with object_pairs (fuel : nat) (s : string) : exn + list (string * json) * string :=
  match fuel with
  | O => inl Unmodelled
  | S fuel =>
      match after dquote s with
      | None => inl JSONDecodeError
      | Some r =>
          match scanstring r with
          | inl e => inl e
          | inr (key, rest) =>
              match after ":" (skip_ws rest) with
              | None => inl JSONDecodeError
              | Some rest1 =>
                  match scan_once fuel (skip_ws rest1) with
                  | inl e => inl e
                  | inr (value, rest2) =>
                      match after "}" (skip_ws rest2) with
                      | Some rest3 => inr ([(key, value)], rest3)
                      | None =>
                          match after "," (skip_ws rest2) with
                          | Some rest3 =>
                              match object_pairs fuel (skip_ws rest3) with
                              | inr (pairs, rest4) => inr ((key, value) :: pairs, rest4)
                              | inl e => inl e
                              end
                          | None => inl JSONDecodeError
                          end
                      end
                  end
              end
          end
      end
  end.

(** [json.loads(s)] *)
Definition loads (s : string) : exn + json :=
  match scan_once (2 * String.length s + 2) (skip_ws s) with
  | inl e => inl e
  | inr (value, rest) =>
      match skip_ws rest with
      | EmptyString => inr value
      | String _ _ => inl JSONDecodeError
      end
  end.

(** *** Encoding *)

Definition hex_char (n : N) : ascii :=
  if (n <? 10)%N then ascii_of_N (48 + n) else ascii_of_N (87 + n).

(** An entry of [ESCAPE_DCT], or the escape [\uXXXX]. *)
Definition escape_char (c : ascii) : string :=
  let n := PyStr.code c in
  if Ascii.eqb c dquote then String "\" (String dquote "")
  else if Ascii.eqb c "\" then "\\"
  else if Ascii.eqb c "008" then "\b"
  else if Ascii.eqb c "012" then "\f"
  else if Ascii.eqb c "010" then "\n"
  else if Ascii.eqb c "013" then "\r"
  else if Ascii.eqb c "009" then "\t"
  else if ((32 <=? n) && (n <=? 126))%N then String c ""
  else "\u00" +:+ String (hex_char (n / 16)) (String (hex_char (n mod 16)) "").

Fixpoint escape (s : string) : string :=
  match s with
  | EmptyString => ""
  | String c r => escape_char c +:+ escape r
  end.

(** [py_encode_basestring_ascii] *)
Definition encode_string (s : string) : string :=
  String dquote (escape s +:+ String dquote "").

Fixpoint spaces (n : nat) : string :=
  match n with O => "" | S n => String " " (spaces n) end.

(** A new line and the indentation of [level]. *)
Definition newline_indent (level : nat) : string :=
  String "010" (spaces (2 * level)).

(** [_iterencode] at nesting [level]. *)
Fixpoint encode (level : nat) (v : json) : string :=
  match v with
  | JNull => "null"
  | JBool true => "true"
  | JBool false => "false"
  | JInt n => PyStr.of_Z n
  | JStr s => encode_string s
  | JList [] => "[]"
  | JList (x :: xs) =>
      "[" +:+ newline_indent (S level) +:+ encode (S level) x +:+
      (fix rest (l : list json) : string :=
         match l with
         | [] => ""
         | y :: l' =>
             "," +:+ newline_indent (S level) +:+ encode (S level) y +:+ rest l'
         end) xs +:+
      newline_indent level +:+ "]"
  | JDict [] => "{}"
  | JDict ((k, x) :: xs) =>
      "{" +:+ newline_indent (S level) +:+
      encode_string k +:+ ": " +:+ encode (S level) x +:+
      (fix rest (l : list (string * json)) : string :=
         match l with
         | [] => ""
         | (k', y) :: l' =>
             "," +:+ newline_indent (S level) +:+
             encode_string k' +:+ ": " +:+ encode (S level) y +:+ rest l'
         end) xs +:+
      newline_indent level +:+ "}"
  end.

(** [json.dumps(obj, indent=2)] *)
Definition dumps (v : json) : string := encode 0 v.

End Json.

(** ** The [base64] module

    Bytes are strings too: a character is a byte. *)

Module Base64.

Definition alphabet : string :=
  "ABCDEFGHIJKLMNOPQRSTUVWXYZabcdefghijklmnopqrstuvwxyz0123456789+/".

(** The character of the six bits [n]. *)
Definition digit (n : N) : ascii :=
  match String.get (N.to_nat n) alphabet with
  | Some c => c
  | None => "="%char
  end.

(** [base64.b64encode(bs)]: four characters for three bytes, and padding
    for the one or two bytes left at the end. *)
Fixpoint b64encode (bs : string) : string :=
  match bs with
  | EmptyString => ""
  | String x EmptyString =>
      let a := PyStr.code x in
      String (digit (a / 4)) (String (digit (a mod 4 * 16)) "==")
  | String x (String y EmptyString) =>
      let a := PyStr.code x in
      let b := PyStr.code y in
      String (digit (a / 4)) (String (digit (a mod 4 * 16 + b / 16))
        (String (digit (b mod 16 * 4)) "="))
  | String x (String y (String z rest)) =>
      let a := PyStr.code x in
      let b := PyStr.code y in
      let c := PyStr.code z in
      String (digit (a / 4)) (String (digit (a mod 4 * 16 + b / 16))
        (String (digit (b mod 16 * 4 + c / 64))
          (String (digit (c mod 64)) (b64encode rest))))
  end%N.

End Base64.

(** ** The audio library

    [pydub] is outside the repository.  The applications use its
    [AudioSegment] through the operations below; a duration is a number of
    milliseconds. *)

(** An uploaded file, as [st.file_uploader] returns it: an [io.BytesIO],
    with its bytes and the position of the next read. *)
Record Upload : Type := {
  upload_data : string;
  upload_pos : nat;
}.

(** [f.read()]: the bytes from the position on, and the file at its end. *)
Definition read_all (f : Upload) : string * Upload :=
  (PyStr.drop (upload_pos f) (upload_data f),
   {| upload_data := upload_data f;
      upload_pos := Nat.max (upload_pos f) (String.length (upload_data f)) |}).

(** [audio_from_mp3 f] is the audio decoded from the file object [f],
    [None] when decoding raises, and the file object after the call. *)
Class AudioLib : Type := {
  Audio : Type;
  audio_empty : Audio;                          (* [AudioSegment.empty()] *)
  audio_add : Audio → Audio → Audio;            (* [a + b] *)
  audio_silent : Z → Audio;                     (* [AudioSegment.silent(duration=d)] *)
  audio_from_mp3 : Upload → option Audio * Upload;  (* [AudioSegment.from_mp3(f)] *)
  audio_len : Audio → Z;                        (* [len(a)] *)
}.

(** Concatenation adds durations: the contract of the concatenation
    primitive that the assembly relies on. *)
Class AudioLibLaws (AL : AudioLib) : Prop := {
  audio_len_empty : audio_len audio_empty = 0;
  audio_len_add : ∀ a b, audio_len (audio_add a b) = audio_len a + audio_len b;
  audio_len_silent : ∀ d, 0 ≤ d → audio_len (audio_silent d) = d;
}.

(** An instance to run the model on: one sample for each millisecond;
    decoding reads the file from its position, and fails on no bytes. *)
Definition sample_audio : AudioLib := {|
  Audio := list Z;
  audio_empty := [];
  audio_add := app;
  audio_silent := λ d, replicate (Z.to_nat d) 0;
  audio_from_mp3 := λ f,
    let '(bytes, f') := read_all f in
    (match bytes with
     | EmptyString => None
     | _ => Some ((λ c, Z.of_N (N_of_ascii c)) <$> list_ascii_of_string bytes)
     end, f');
  audio_len := λ a, Z.of_nat (length a);
|}.

(** ** The session state and the world around it *)

Record VoiceSettings : Type := {
  stability : Q;
  similarity_boost : Q;
  style : Q;
}.

(** An entry of [st.session_state.available_voices]. *)
Record VoiceData : Type := {
  voice_id : string;
  samples : list string;      (* the [sample_id]s *)
}.

(** [st.session_state.config].  A voice chosen in a [st.selectbox] is
    [None] when the box had no option.  [podcasters] is keyed by speaker
    names. *)
Record Config : Type := {
  intro_text : string;
  intro_voice : option string;
  outro_text : string;
  outro_voice : option string;
  intro_music : option Upload;                (* the uploaded file *)
  podcasters : gmap string (option string);
  voice_settings : VoiceSettings;
}.

(** The answer of the voice directory of the remote service: the status
    and, in the body, the voices ([v_samples] is [None] when the voice has
    no key ["samples"]). *)
Record Voice : Type := {
  v_name : string;
  v_voice_id : string;
  v_samples : option (list string);
}.

Record Response : Type := {
  status_code : Z;
  voices : list Voice;
}.

(** A request sent to the text-to-speech service. *)
Record Request : Type := {
  req_text : json;
  req_voice_id : string;
  req_settings : VoiceSettings;
}.

(** What a run shows: [st.success], [st.error], and the download link of
    the script export, which carries the text of the file. *)
Inductive message : Type :=
| StSuccess (s : string)
| StError (s : string)
| StDownload (file_name : string) (content : string).

(** What one run of a page gets from outside the script: the values of
    its widgets, the order in which a [set] is iterated, and the answers of
    the sample service.  A widget is named by its [key], or by its label
    when it has none.  A text widget is given the value it starts with and
    returns a [str] or [None]; a select box is given its options and returns
    one of them, or [None]. *)
Record Env : Type := {
  button : string → bool;
  text_input : string → json → option string;
  text_area : string → json → option string;
  selectbox : string → list string → option string;
  slider : string → Q → Q;
  file_uploader : string → option Upload;
  set_order : list string → list string;
  get_audio : string → string → string + string;
      (* [client.samples.get_audio]: the message of the exception, or the data *)
}.

Section World.
Context {AL : AudioLib}.

(** The session state ([script] to [api_key]), the remote service (the
    answers it will give to the next calls, and the calls made so far:
    [None] is a call that raises), the messages shown and the output
    file. *)
Record World : Type := {
  script : list json;
  config : Config;
  audio_segments : list (string * Audio);
  current_step : Z;
  available_voices : gmap string VoiceData;
  api_key : string;
  tts_pending : list (option Audio);
  tts_calls : list Request;
  messages : list message;
  generated_podcast : option Audio;
}.

Definition set_script (x : list json) (w : World) : World :=
  {| script := x; config := config w; audio_segments := audio_segments w;
     current_step := current_step w; available_voices := available_voices w;
     api_key := api_key w; tts_pending := tts_pending w;
     tts_calls := tts_calls w; messages := messages w;
     generated_podcast := generated_podcast w |}.

Definition set_config (x : Config) (w : World) : World :=
  {| script := script w; config := x; audio_segments := audio_segments w;
     current_step := current_step w; available_voices := available_voices w;
     api_key := api_key w; tts_pending := tts_pending w;
     tts_calls := tts_calls w; messages := messages w;
     generated_podcast := generated_podcast w |}.

Definition set_audio_segments (x : list (string * Audio)) (w : World) : World :=
  {| script := script w; config := config w; audio_segments := x;
     current_step := current_step w; available_voices := available_voices w;
     api_key := api_key w; tts_pending := tts_pending w;
     tts_calls := tts_calls w; messages := messages w;
     generated_podcast := generated_podcast w |}.

Definition set_current_step (x : Z) (w : World) : World :=
  {| script := script w; config := config w; audio_segments := audio_segments w;
     current_step := x; available_voices := available_voices w;
     api_key := api_key w; tts_pending := tts_pending w;
     tts_calls := tts_calls w; messages := messages w;
     generated_podcast := generated_podcast w |}.

Definition set_available_voices (x : gmap string VoiceData) (w : World) : World :=
  {| script := script w; config := config w; audio_segments := audio_segments w;
     current_step := current_step w; available_voices := x;
     api_key := api_key w; tts_pending := tts_pending w;
     tts_calls := tts_calls w; messages := messages w;
     generated_podcast := generated_podcast w |}.

Definition set_api_key (x : string) (w : World) : World :=
  {| script := script w; config := config w; audio_segments := audio_segments w;
     current_step := current_step w; available_voices := available_voices w;
     api_key := x; tts_pending := tts_pending w;
     tts_calls := tts_calls w; messages := messages w;
     generated_podcast := generated_podcast w |}.

Definition set_tts (pending : list (option Audio)) (calls : list Request)
    (w : World) : World :=
  {| script := script w; config := config w; audio_segments := audio_segments w;
     current_step := current_step w; available_voices := available_voices w;
     api_key := api_key w; tts_pending := pending;
     tts_calls := calls; messages := messages w;
     generated_podcast := generated_podcast w |}.

Definition add_message (m : message) (w : World) : World :=
  {| script := script w; config := config w; audio_segments := audio_segments w;
     current_step := current_step w; available_voices := available_voices w;
     api_key := api_key w; tts_pending := tts_pending w;
     tts_calls := tts_calls w; messages := messages w ++ [m];
     generated_podcast := generated_podcast w |}.

Definition set_generated_podcast (x : option Audio) (w : World) : World :=
  {| script := script w; config := config w; audio_segments := audio_segments w;
     current_step := current_step w; available_voices := available_voices w;
     api_key := api_key w; tts_pending := tts_pending w;
     tts_calls := tts_calls w; messages := messages w;
     generated_podcast := x |}.

(** *** Computations: a state monad with exceptions.  An exception leaves
    the state as it was when it was raised. *)

Definition M (A : Type) : Type := World → (exn + A) * World.

#[global] Instance M_ret : MRet M := λ A x w, (inr x, w).

#[global] Instance M_bind : MBind M := λ A B f m w,
  match m w with
  | (inr x, w') => f x w'
  | (inl e, w') => (inl e, w')
  end.

Definition raise {A : Type} (e : exn) : M A := λ w, (inl e, w).

Definition gets {A : Type} (f : World → A) : M A := λ w, (inr (f w), w).

Definition modify (f : World → World) : M unit := λ w, (inr tt, f w).

Definition lift {A : Type} (r : exn + A) : M A :=
  match r with inl e => raise e | inr x => mret x end.

Definition when (b : bool) (m : M unit) : M unit :=
  if b then m else mret tt.

(** [for i, x in enumerate(l, start)] *)
Fixpoint for_enumerate {A : Type} (start : nat) (l : list A)
    (body : nat → A → M unit) : M unit :=
  match l with
  | [] => mret tt
  | x :: l' => body start x ;; for_enumerate (S start) l' body
  end.

(** [st.success] and [st.error] *)
Definition st_success (s : string) : M unit := modify (add_message (StSuccess s)).
Definition st_error (s : string) : M unit := modify (add_message (StError s)).

End World.

(** ** What the two applications share *)

Definition set_intro_text (x : string) (c : Config) : Config :=
  {| intro_text := x; intro_voice := intro_voice c; outro_text := outro_text c;
     outro_voice := outro_voice c; intro_music := intro_music c;
     podcasters := podcasters c; voice_settings := voice_settings c |}.

Definition set_outro_text (x : string) (c : Config) : Config :=
  {| intro_text := intro_text c; intro_voice := intro_voice c; outro_text := x;
     outro_voice := outro_voice c; intro_music := intro_music c;
     podcasters := podcasters c; voice_settings := voice_settings c |}.

Definition set_intro_music (x : option Upload) (c : Config) : Config :=
  {| intro_text := intro_text c; intro_voice := intro_voice c;
     outro_text := outro_text c; outro_voice := outro_voice c; intro_music := x;
     podcasters := podcasters c; voice_settings := voice_settings c |}.

Definition set_intro_voice (x : option string) (c : Config) : Config :=
  {| intro_text := intro_text c; intro_voice := x; outro_text := outro_text c;
     outro_voice := outro_voice c; intro_music := intro_music c;
     podcasters := podcasters c; voice_settings := voice_settings c |}.

Definition set_outro_voice (x : option string) (c : Config) : Config :=
  {| intro_text := intro_text c; intro_voice := intro_voice c;
     outro_text := outro_text c; outro_voice := x; intro_music := intro_music c;
     podcasters := podcasters c; voice_settings := voice_settings c |}.

Definition set_podcasters (x : gmap string (option string)) (c : Config) : Config :=
  {| intro_text := intro_text c; intro_voice := intro_voice c;
     outro_text := outro_text c; outro_voice := outro_voice c;
     intro_music := intro_music c;
     podcasters := x; voice_settings := voice_settings c |}.

Definition set_voice_settings (x : VoiceSettings) (c : Config) : Config :=
  {| intro_text := intro_text c; intro_voice := intro_voice c;
     outro_text := outro_text c; outro_voice := outro_voice c;
     intro_music := intro_music c;
     podcasters := podcasters c; voice_settings := x |}.

Definition set_stability (x : Q) (vs : VoiceSettings) : VoiceSettings :=
  {| stability := x; similarity_boost := similarity_boost vs; style := style vs |}.

Definition set_similarity_boost (x : Q) (vs : VoiceSettings) : VoiceSettings :=
  {| stability := stability vs; similarity_boost := x; style := style vs |}.

Definition set_style (x : Q) (vs : VoiceSettings) : VoiceSettings :=
  {| stability := stability vs; similarity_boost := similarity_boost vs; style := x |}.

(** The label [f"Line {i+1}"] of the line at index [i]. *)
Definition line_label (i : nat) : string := "Line " +:+ PyStr.of_nat (i + 1).

Section Pipeline.
Context {AL : AudioLib}.

(** [generate_audio(text, voice_id, voice_settings)]: one call to the
    remote service, which answers with audio or raises. *)
Definition generate_audio (text : json) (vid : string) (vs : VoiceSettings)
    : M Audio := λ w,
  let calls := tts_calls w ++
    [{| req_text := text; req_voice_id := vid; req_settings := vs |}] in
  match tts_pending w with
  | Some a :: rest => (inr a, set_tts rest calls w)
  | None :: rest => (inl SynthesisError, set_tts rest calls w)
  | [] => (inl SynthesisError, set_tts [] calls w)
  end.

(** [st.session_state.available_voices[name]] *)
Definition voice_data (name : option string) : M VoiceData := λ w,
  match name with
  | Some n =>
      match available_voices w !! n with
      | Some vd => (inr vd, w)
      | None => (inl (KeyError (JStr n)), w)
      end
  | None => (inl (KeyError JNull), w)
  end.

(** [st.session_state.config['podcasters'][speaker]] *)
Definition podcaster_voice (speaker : json) : M (option string) := λ w,
  match speaker with
  | JStr s =>
      match podcasters (config w) !! s with
      | Some v => (inr v, w)
      | None => (inl (KeyError speaker), w)
      end
  | JList _ | JDict _ => (inl TypeError, w)       (* unhashable *)
  | _ => (inl (KeyError speaker), w)
  end.

(** [st.session_state.audio_segments.append(seg)] *)
Definition append_segment (seg : string * Audio) : M unit :=
  modify (λ w, set_audio_segments (audio_segments w ++ [seg]) w).

(** [st.session_state.audio_segments[i] = seg] *)
Definition set_segment (i : nat) (seg : string * Audio) : M unit := λ w,
  if decide (i < length (audio_segments w))%nat
  then (inr tt, set_audio_segments (<[i := seg]> (audio_segments w)) w)
  else (inl IndexError, w).

(** [int(label.split()[1]) - 1] *)
Definition line_index (label : string) : M Z :=
  match PyStr.split label !! 1%nat with
  | None => raise IndexError
  | Some tok =>
      match PyStr.int tok with
      | None => raise ValueError
      | Some n => mret (n - 1)
      end
  end.

(** [st.session_state.script[i]] *)
Definition script_line (i : Z) : M json := λ w,
  match PyList.position (length (script w)) i ≫= (script w !!.) with
  | Some line => (inr line, w)
  | None => (inl IndexError, w)
  end.

(** [st.session_state.script[i]['text'] = new_text] *)
Definition set_line_text (i : Z) (new_text : string) : M unit := λ w,
  match PyList.position (length (script w)) i with
  | None => (inl IndexError, w)
  | Some p =>
      match script w !! p with
      | None => (inl IndexError, w)
      | Some line =>
          match store line "text" (JStr new_text) with
          | inl e => (inl e, w)
          | inr line' => (inr tt, set_script (<[p := line']> (script w)) w)
          end
      end
  end.

(** The loop of the finalize step: each segment, then half a second of
    silence. *)
Definition join_segments (full : Audio) (segs : list (string * Audio)) : Audio :=
  foldl (λ acc seg, audio_add (audio_add acc seg.2) (audio_silent 500)) full segs.

(** The handler of the "Finalize Podcast" button; [next] is the step the
    wizard goes to. *)
Definition finalize (next : Z) : M unit :=
  music ← gets (λ w, intro_music (config w));
  full ← match music with
         | Some f =>
             modify (λ w, set_config
                            (set_intro_music (Some (audio_from_mp3 f).2) (config w)) w) ;;
             match (audio_from_mp3 f).1 with
             | Some intro => mret (audio_add audio_empty intro)
             | None => raise CouldntDecodeError
             end
         | None => mret audio_empty
         end;
  segs ← gets audio_segments;
  modify (set_generated_podcast (Some (join_segments full segs))) ;;
  st_success "Podcast finalized successfully!" ;;
  modify (set_current_step next).

(** *** The voice directory *)

(** [get_available_voices()], given the response of the remote service. *)
Definition get_available_voices (response : Response) : M (gmap string VoiceData) :=
  if status_code response =? 200 then
    mret (foldl (λ (d : gmap string VoiceData) voice,
                   <[v_name voice :=
                       {| voice_id := v_voice_id voice;
                          samples := default [] (v_samples voice) |}]> d)
                ∅ (voices response))
  else
    st_error ("Failed to fetch voices: " +:+ PyStr.of_Z (status_code response)) ;;
    mret ∅.

(** The handler of the "Submit API Key" button. *)
Definition submit_api_key (next : Z) (key : string) (response : Response) : M unit :=
  modify (set_api_key key) ;;
  voices ← get_available_voices response;
  modify (set_available_voices voices) ;;
  st_success "API Key submitted successfully!" ;;
  modify (set_current_step next).

(** *** The script loader *)

(** [isinstance(item, dict) and 'speaker' in item and 'text' in item] *)
Definition valid_item (item : json) : bool :=
  match item with
  | JDict d => PyDict.has d "speaker" && PyDict.has d "text"
  | _ => false
  end.

(** [isinstance(data, list) and all(... for item in data)] *)
Definition valid_script (data : json) : bool :=
  match data with
  | JList items => forallb valid_item items
  | _ => false
  end.

Definition script_of (data : json) : list json :=
  match data with JList items => items | _ => [] end.

(** The handler of the "Load Script" button, and the import of an
    uploaded file: [text] is the pasted text, or the text of the file;
    [bad_json] and [bad_format] are the two error messages. *)
Definition load_script (next : Z) (ok bad_format bad_json : string)
    (text : string) : M unit :=
  match Json.loads text with
  | inr data =>
      if valid_script data then
        modify (set_script (script_of data)) ;;
        st_success ok ;;
        modify (set_current_step next)
      else st_error bad_format
  | inl JSONDecodeError => st_error bad_json
  | inl e => raise e
  end.

(** *** The pages that edit the script and the configuration *)

(** [for x in l] *)
Fixpoint for_each {A : Type} (l : list A) (body : A → M unit) : M unit :=
  match l with
  | [] => mret tt
  | x :: l' => body x ;; for_each l' body
  end.

(** What a text widget returns, as a value of the script. *)
Definition widget_value (r : option string) : json :=
  match r with Some s => JStr s | None => JNull end.

(** What a text widget returns, where the configuration holds a [str]:
    it is given a [str], and [None] is outside the model. *)
Definition widget_str (r : option string) : M string :=
  match r with Some s => mret s | None => raise Unmodelled end.

(** [st.session_state.script[i][k] = v], for [i] the index of a line. *)
Definition set_line_field (i : nat) (k : string) (v : json) : M unit := λ w,
  match script w !! i with
  | None => (inl IndexError, w)
  | Some line =>
      match store line k v with
      | inl e => (inl e, w)
      | inr line' => (inr tt, set_script (<[i := line']> (script w)) w)
      end
  end.

(** [v[:50]], as far as it returns or raises a [TypeError]. *)
Definition slice_50 (v : json) : exn + json :=
  match v with
  | JStr s => inr (JStr (PyStr.take 50 s))
  | JList l => inr (JList (take 50 l))
  | JDict _ => inl Unmodelled       (* the exception depends on the version *)
  | _ => inl TypeError
  end.

(** [list(st.session_state.available_voices.keys())] *)
Definition voice_options : M (list string) :=
  gets (λ w, (map_to_list (available_voices w)).*1).

(** The elements of [set(line['speaker'] for line in script)], in the
    order of the script and with repetitions; a speaker that is not a [str]
    is not hashable, or is outside the model. *)
Fixpoint speakers (lines : list json) : exn + list string :=
  match lines with
  | [] => inr []
  | line :: rest =>
      match subscript line "speaker" with
      | inl e => inl e
      | inr (JStr s) =>
          match speakers rest with
          | inr l => inr (s :: l)
          | inl e => inl e
          end
      | inr (JList _) | inr (JDict _) => inl TypeError
      | inr _ => inl Unmodelled
      end
  end.

(** [get_voice_sample(voice_id, sample_id)] *)
Definition get_voice_sample (ui : Env) (vid sid : string) : M (option string) :=
  match get_audio ui vid sid with
  | inr data => mret (Some data)
  | inl msg => st_error ("Failed to get voice sample: " +:+ msg) ;; mret None
  end.

(** The handler of a "Play ... Voice Sample" button, for the voice
    [name]; the player that [st.audio] shows is not recorded. *)
Definition play_sample (ui : Env) (name : option string) : M unit :=
  vd ← voice_data name;
  match samples vd with
  | [] => mret tt
  | sid :: _ => _ ← get_voice_sample ui (voice_id vd) sid; mret tt
  end.

End Pipeline.

(** ** [app.py] *)

Module App.
Section Steps.
Context {AL : AudioLib}.

(** [step_5], the handler of the "Generate All Audio" button. *)
Definition generate_all : M unit :=
  modify (set_audio_segments []) ;;
  intro ← gets (λ w, intro_text (config w));
  when (PyStr.truthy intro) (
    text ← gets (λ w, intro_text (config w));
    name ← gets (λ w, intro_voice (config w));
    vd ← voice_data name;
    vs ← gets (λ w, voice_settings (config w));
    intro_audio ← generate_audio (JStr text) (voice_id vd) vs;
    append_segment ("Intro", intro_audio)) ;;
  lines ← gets script;
  for_enumerate 0 lines (λ i line,
    speaker ← lift (subscript line "speaker");
    voice_name ← podcaster_voice speaker;
    text ← lift (subscript line "text");
    vd ← voice_data voice_name;
    vs ← gets (λ w, voice_settings (config w));
    audio ← generate_audio text (voice_id vd) vs;
    append_segment (line_label i, audio)) ;;
  outro ← gets (λ w, outro_text (config w));
  when (PyStr.truthy outro) (
    text ← gets (λ w, outro_text (config w));
    name ← gets (λ w, outro_voice (config w));
    vd ← voice_data name;
    vs ← gets (λ w, voice_settings (config w));
    outro_audio ← generate_audio (JStr text) (voice_id vd) vs;
    append_segment ("Outro", outro_audio)) ;;
  st_success "Audio generated successfully!".

(** [step_5], what the loop over the segments reads to show segment
    [label]. *)
Definition show_segment (label : string) : M unit :=
  if String.eqb label "Intro" then mret tt
  else if String.eqb label "Outro" then mret tt
  else
    idx ← line_index label;
    line ← script_line idx;
    _ ← lift (subscript line "speaker");
    line ← script_line idx;
    _ ← lift (subscript line "text");
    mret tt.

(** [step_5], the handler of the button "Regenerate <label>" of the
    segment at index [i], with [new_text] in its text area. *)
Definition regenerate (i : nat) (label : string) (new_text : string) : M unit :=
  new_audio ←
    (if String.eqb label "Intro" then
       name ← gets (λ w, intro_voice (config w));
       vd ← voice_data name;
       vs ← gets (λ w, voice_settings (config w));
       a ← generate_audio (JStr new_text) (voice_id vd) vs;
       modify (λ w, set_config (set_intro_text new_text (config w)) w) ;;
       mret a
     else if String.eqb label "Outro" then
       name ← gets (λ w, outro_voice (config w));
       vd ← voice_data name;
       vs ← gets (λ w, voice_settings (config w));
       a ← generate_audio (JStr new_text) (voice_id vd) vs;
       modify (λ w, set_config (set_outro_text new_text (config w)) w) ;;
       mret a
     else
       idx ← line_index label;
       line ← script_line idx;
       speaker ← lift (subscript line "speaker");
       voice_name ← podcaster_voice speaker;
       vd ← voice_data voice_name;
       vs ← gets (λ w, voice_settings (config w));
       a ← generate_audio (JStr new_text) (voice_id vd) vs;
       set_line_text idx new_text ;;
       mret a);
  set_segment i (label, new_audio).

(** What the user did before a run of [step_5]. *)
Inductive action : Type :=
| NoAction
| GenerateAll
| Regenerate (i : nat) (new_text : string)
| Proceed.

Definition regenerate_clicked (a : action) (i : nat) : option string :=
  match a with
  | Regenerate j new_text => if decide (i = j) then Some new_text else None
  | _ => None
  end.

(** One run of [step_5]. *)
Definition step_5 (a : action) : M unit :=
  when (if a is GenerateAll then true else false) generate_all ;;
  segs ← gets audio_segments;
  for_enumerate 0 segs (λ i seg,
    show_segment seg.1 ;;
    match regenerate_clicked a i with
    | Some new_text => regenerate i seg.1 new_text ;; raise RerunException
    | None => mret tt
    end) ;;
  when (if a is Proceed then true else false) (modify (set_current_step 6)).

(** [step_6], the handler of the "Finalize Podcast" button. *)
Definition step_6_finalize : M unit := finalize 7.

(** [step_1], the handler of the "Submit API Key" button. *)
Definition step_1_submit : string → Response → M unit := submit_api_key 2.

(** [step_2], the handler of the "Load Script" button. *)
Definition step_2_load : string → M unit :=
  load_script 3 "Script loaded successfully!"
    "Invalid script format. Please ensure your JSON is a list of objects with 'speaker' and 'text' keys."
    "Invalid JSON. Please check your input.".

(** [step_2], the handler of the "Export Script" button. *)
Definition step_2_export : M unit :=
  lines ← gets script;
  modify (add_message (StDownload "podcast_script.json" (Json.dumps (JList lines)))).

(** [step_2], the import of an uploaded file. *)
Definition step_2_import : string → M unit :=
  load_script 3 "Script imported successfully!"
    "Invalid script format in the imported file."
    "Invalid JSON in the imported file.".

Inductive click : Type := NoClick | LoadScript | ExportScript.

(** One run of [step_2]: the text area holds [json_input], the user has
    clicked [c], and [uploaded] is the file in the uploader. *)
Definition step_2 (json_input : string) (c : click) (uploaded : option string)
    : M unit :=
  when (if c is LoadScript then true else false) (step_2_load json_input) ;;
  when (if c is ExportScript then true else false) step_2_export ;;
  match uploaded with
  | Some text => step_2_import text
  | None => mret tt
  end.

(** [step_2], the text that the "Export Script" button passes to
    [st.markdown]; [None] when the bytes of the link are outside the
    model. *)
Definition export_link (lines : list json) : option string :=
  let script_json := Json.dumps (JList lines) in
  b64 ← PyStr.decode (Base64.b64encode (PyStr.encode script_json));
  Some ("<a href=" +:+ String Json.dquote "data:application/json;base64," +:+ b64 +:+
        String Json.dquote " download=" +:+ String Json.dquote "podcast_script.json" +:+
        String Json.dquote ">Download JSON</a>").

(** [display_masked_api_key]: the key as the side bar shows it. *)
Definition masked_key (key : string) : string :=
  PyStr.take 4 key +:+ PyStr.times "*" (Z.of_nat (String.length key) - 8) +:+
  PyStr.suffix 4 key.

(** [display_masked_api_key], what it passes to [st.sidebar.text]: [None]
    when it shows nothing. *)
Definition display_masked_api_key : M (option string) :=
  key ← gets api_key;
  if PyStr.truthy key then mret (Some ("API Key: " +:+ masked_key key))
  else mret None.

(** One run of [step_3].  The loop variable [line] is the object
    [st.session_state.script[i]]: it is read from the script each time. *)
Definition step_3 (ui : Env) : M unit :=
  lines ← gets script;
  for_enumerate 0 lines (λ i _,
    line ← script_line (Z.of_nat i);
    speaker ← lift (subscript line "speaker");
    set_line_field i "speaker"
      (widget_value (text_input ui ("speaker_" +:+ PyStr.of_nat i) speaker)) ;;
    line ← script_line (Z.of_nat i);
    text ← lift (subscript line "text");
    set_line_field i "text"
      (widget_value (text_area ui ("line_" +:+ PyStr.of_nat i) text))) ;;
  when (button ui "Proceed to Configuration") (modify (set_current_step 4)).

(** One run of [step_4]. *)
Definition step_4 (ui : Env) : M unit :=
  text ← gets (λ w, intro_text (config w));
  text ← widget_str (text_area ui "Intro Text:" (JStr text));
  modify (λ w, set_config (set_intro_text text (config w)) w) ;;
  options ← voice_options;
  modify (λ w, set_config
                 (set_intro_voice (selectbox ui "intro_voice" options) (config w)) w) ;;
  when (button ui "intro_sample") (
    name ← gets (λ w, intro_voice (config w));
    play_sample ui name) ;;
  text ← gets (λ w, outro_text (config w));
  text ← widget_str (text_area ui "Outro Text:" (JStr text));
  modify (λ w, set_config (set_outro_text text (config w)) w) ;;
  options ← voice_options;
  modify (λ w, set_config
                 (set_outro_voice (selectbox ui "outro_voice" options) (config w)) w) ;;
  when (button ui "outro_sample") (
    name ← gets (λ w, outro_voice (config w));
    play_sample ui name) ;;
  lines ← gets script;
  names ← lift (speakers lines);
  for_each (set_order ui names) (λ podcaster,
    options ← voice_options;
    modify (λ w, set_config
                   (set_podcasters
                      (<[podcaster := selectbox ui ("voice_" +:+ podcaster) options]>
                         (podcasters (config w)))
                      (config w)) w) ;;
    when (button ui ("sample_" +:+ podcaster)) (
      name ← podcaster_voice (JStr podcaster);
      play_sample ui name)) ;;
  modify (λ w, set_config
    (set_voice_settings
       (set_stability
          (slider ui "Stability:" (stability (voice_settings (config w))))
          (voice_settings (config w))) (config w)) w) ;;
  modify (λ w, set_config
    (set_voice_settings
       (set_similarity_boost
          (slider ui "Similarity Boost:" (similarity_boost (voice_settings (config w))))
          (voice_settings (config w))) (config w)) w) ;;
  modify (λ w, set_config
    (set_voice_settings
       (set_style
          (slider ui "Style:" (style (voice_settings (config w))))
          (voice_settings (config w))) (config w)) w) ;;
  modify (λ w, set_config
    (set_intro_music (file_uploader ui "Upload Intro Music (MP3)") (config w)) w) ;;
  when (button ui "Proceed to Audio Generation") (modify (set_current_step 5)).

End Steps.
End App.

(** ** [podcast_generator_app.py]

    The older application: no outro, and its configuration has no
    ['outro_text'] and no ['outro_voice']; the two fields of [Config] are not
    used here. *)

Module PodcastGeneratorApp.
Section Steps.
Context {AL : AudioLib}.

(** [step_4], the handler of the "Generate All Audio" button. *)
Definition generate_all : M unit :=
  modify (set_audio_segments []) ;;
  intro ← gets (λ w, intro_text (config w));
  when (PyStr.truthy intro) (
    text ← gets (λ w, intro_text (config w));
    name ← gets (λ w, intro_voice (config w));
    vd ← voice_data name;
    vs ← gets (λ w, voice_settings (config w));
    intro_audio ← generate_audio (JStr text) (voice_id vd) vs;
    append_segment ("Intro", intro_audio)) ;;
  lines ← gets script;
  for_enumerate 0 lines (λ i line,
    text ← lift (subscript line "text");
    speaker ← lift (subscript line "speaker");
    voice_name ← podcaster_voice speaker;
    vd ← voice_data voice_name;
    vs ← gets (λ w, voice_settings (config w));
    audio ← generate_audio text (voice_id vd) vs;
    append_segment (line_label i, audio)) ;;
  st_success "Audio generated successfully!".

(** [step_4], what the loop over the segments reads to show segment
    [label]. *)
Definition show_segment (label : string) : M unit :=
  if String.eqb label "Intro" then mret tt
  else
    idx ← line_index label;
    line ← script_line idx;
    _ ← lift (subscript line "text");
    mret tt.

(** [step_4], the handler of the button "Regenerate <label>" of the
    segment at index [i], with [new_text] in its text area. *)
Definition regenerate (i : nat) (label : string) (new_text : string) : M unit :=
  new_audio ←
    (if String.eqb label "Intro" then
       name ← gets (λ w, intro_voice (config w));
       vd ← voice_data name;
       vs ← gets (λ w, voice_settings (config w));
       a ← generate_audio (JStr new_text) (voice_id vd) vs;
       modify (λ w, set_config (set_intro_text new_text (config w)) w) ;;
       mret a
     else
       idx ← line_index label;
       line ← script_line idx;
       speaker ← lift (subscript line "speaker");
       voice_name ← podcaster_voice speaker;
       vd ← voice_data voice_name;
       vs ← gets (λ w, voice_settings (config w));
       a ← generate_audio (JStr new_text) (voice_id vd) vs;
       set_line_text idx new_text ;;
       mret a);
  set_segment i (label, new_audio).

(** [step_5], the handler of the "Finalize Podcast" button. *)
Definition step_5_finalize : M unit := finalize 6.

(** [step_0], the handler of the "Submit API Key" button. *)
Definition step_0_submit : string → Response → M unit := submit_api_key 1.

(** [step_1], the handler of the "Load Script" button. *)
Definition step_1_load : string → M unit :=
  load_script 2 "Script loaded successfully!"
    "Invalid script format. Please ensure your JSON is a list of objects with 'speaker' and 'text' keys."
    "Invalid JSON. Please check your input.".

(** One run of [step_2].  The title of the expander takes the speaker and
    the first 50 characters of the text; the labels of the two widgets take
    no part in what they return. *)
Definition step_2 (ui : Env) : M unit :=
  lines ← gets script;
  for_enumerate 0 lines (λ i _,
    line ← script_line (Z.of_nat i);
    _ ← lift (subscript line "speaker");
    text ← lift (subscript line "text");
    _ ← lift (slice_50 text);
    speaker ← lift (subscript line "speaker");
    set_line_field i "speaker"
      (widget_value (text_input ui ("speaker_" +:+ PyStr.of_nat i) speaker)) ;;
    line ← script_line (Z.of_nat i);
    _ ← lift (subscript line "speaker");
    text ← lift (subscript line "text");
    set_line_field i "text"
      (widget_value (text_area ui ("line_" +:+ PyStr.of_nat i) text))) ;;
  when (button ui "Proceed to Configuration") (modify (set_current_step 3)).

End Steps.
End PodcastGeneratorApp.

(** * Specifications

    The vocabulary of the properties: what the statements below are
    written with. *)

(** ** Strings, labels and scripts *)

(** Every character of [s] satisfies [P]. *)
Fixpoint all_chars (P : ascii → bool) (s : string) : bool :=
  match s with
  | EmptyString => true
  | String c r => P c && all_chars P r
  end.

(** The labels of a pass: ["Intro"] when there is an intro text, the
    labels of the lines, ["Outro"] when there is an outro text. *)
Definition intro_labels (c : Config) : list string :=
  if PyStr.truthy (intro_text c) then ["Intro"] else [].

Definition outro_labels (c : Config) : list string :=
  if PyStr.truthy (outro_text c) then ["Outro"] else [].

Definition line_labels (n : nat) : list string := line_label <$> seq 0 n.

(** [s] with a double quote for each single quote, to write JSON text. *)
Fixpoint double_quoted (s : string) : string :=
  match s with
  | EmptyString => ""
  | String c r => String (if Ascii.eqb c "'" then Json.dquote else c) (double_quoted r)
  end.

(** What the loader asks of an item: an object with the keys ['speaker']
    and ['text']. *)
Definition has_both_keys (item : json) : Prop :=
  ∃ d speaker text,
    item = JDict d ∧ PyDict.get d "speaker" = Some speaker ∧
    PyDict.get d "text" = Some text.

(** What the strict shape asks: exactly the two fields, both strings. *)
Definition strict_line (item : json) : Prop :=
  ∃ speaker text,
    item = JDict [("speaker", JStr speaker); ("text", JStr text)] ∨
    item = JDict [("text", JStr text); ("speaker", JStr speaker)].

(** The speaker of [line] is [s], and [s] has no entry in the map. *)
Definition unmapped (c : Config) (line : json) (s : string) : Prop :=
  subscript line "speaker" = inr (JStr s) ∧ podcasters c !! s = None.

(** The entry that [get_available_voices] makes for a voice. *)
Definition voice_entry (v : Voice) : VoiceData :=
  {| voice_id := v_voice_id v; samples := default [] (v_samples v) |}.

(** The voices of the response named [name], in the order of the response. *)
Definition named (name : string) (vs : list Voice) : list Voice :=
  filter (λ v, v_name v = name) vs.

(** ** JSON values and their text *)

Section JsonInduction.
Variable P : json → Prop.
Hypothesis Hnull : P JNull.
Hypothesis Hbool : ∀ b, P (JBool b).
Hypothesis Hint : ∀ n, P (JInt n).
Hypothesis Hstr : ∀ s, P (JStr s).
Hypothesis Hlist : ∀ items, Forall P items → P (JList items).
Hypothesis Hdict : ∀ fields, Forall (λ kv, P kv.2) fields → P (JDict fields).

Fixpoint json_ind (v : json) : P v :=
  match v with
  | JNull => Hnull
  | JBool b => Hbool b
  | JInt n => Hint n
  | JStr s => Hstr s
  | JList items =>
      Hlist items
        ((fix all (l : list json) : Forall P l :=
            match l with
            | [] => @List.Forall_nil _ P
            | x :: l' => @List.Forall_cons _ P x l' (json_ind x) (all l')
            end) items)
  | JDict fields =>
      Hdict fields
        ((fix all (l : list (string * json)) : Forall (λ kv, P kv.2) l :=
            match l with
            | [] => @List.Forall_nil _ _
            | (k, x) :: l' =>
                @List.Forall_cons _ (λ kv, P kv.2) (k, x) l' (json_ind x) (all l')
            end) fields)
  end.

End JsonInduction.

(** The keys of every dictionary in [v] are distinct, as in every value
    that Python builds. *)
Fixpoint wf_json (v : json) : Prop :=
  match v with
  | JList items =>
      (fix all (l : list json) : Prop :=
         match l with [] => True | x :: l' => wf_json x ∧ all l' end) items
  | JDict fields =>
      NoDup fields.*1 ∧
      (fix all (l : list (string * json)) : Prop :=
         match l with [] => True | (_, x) :: l' => wf_json x ∧ all l' end) fields
  | _ => True
  end.

(** The text [rest] after a number does not go on with a digit, a
    fraction or an exponent. *)
Definition number_ends (rest : string) : Prop :=
  Json.starts_with_digit rest = false ∧ Json.float_follows rest = false.

(** The first character of a number that is not ["0"]. *)
Definition leading_digit (c : ascii) : Prop :=
  PyStr.isdigit c = true ∧ Ascii.eqb c "0" = false.

(** What [Json.encode] writes for the items of a list, and the fields of
    a dictionary, after the first one. *)
Definition encode_items (level : nat) : list json → string :=
  fix rest (l : list json) : string :=
    match l with
    | [] => ""
    | y :: l' =>
        "," +:+ Json.newline_indent (S level) +:+ Json.encode (S level) y +:+ rest l'
    end.

Definition encode_fields (level : nat) : list (string * json) → string :=
  fix rest (l : list (string * json)) : string :=
    match l with
    | [] => ""
    | (k', y) :: l' =>
        "," +:+ Json.newline_indent (S level) +:+
        Json.encode_string k' +:+ ": " +:+ Json.encode (S level) y +:+ rest l'
    end.

(** The calls that decoding the text of [v] takes. *)
Fixpoint cost (v : json) : nat :=
  match v with
  | JList items =>
      S ((fix sum (l : list json) : nat :=
            match l with [] => O | x :: l' => (S (cost x) + sum l')%nat end) items)
  | JDict fields =>
      S ((fix sum (l : list (string * json)) : nat :=
            match l with [] => O | (_, x) :: l' => (S (cost x) + sum l')%nat end) fields)
  | _ => 1%nat
  end.

(** The parts of [cost] and of [wf_json] on the items of a list and on
    the fields of a dictionary. *)
Definition items_cost : list json → nat :=
  fix sum (l : list json) : nat :=
    match l with [] => O | x :: l' => (S (cost x) + sum l')%nat end.

Definition fields_cost : list (string * json) → nat :=
  fix sum (l : list (string * json)) : nat :=
    match l with [] => O | (_, x) :: l' => (S (cost x) + sum l')%nat end.

Definition items_wf : list json → Prop :=
  fix all (l : list json) : Prop :=
    match l with [] => True | x :: l' => wf_json x ∧ all l' end.

Definition fields_wf : list (string * json) → Prop :=
  fix all (l : list (string * json)) : Prop :=
    match l with [] => True | (_, x) :: l' => wf_json x ∧ all l' end.

(** The first character of the text of a value. *)
Definition value_start (c : ascii) : Prop :=
  Json.is_ws c = false ∧ Ascii.eqb c "]" = false ∧ Ascii.eqb c "}" = false.

(** Decoding the text of [v], whatever follows it, returns [v] and what
    follows. *)
Definition parses (v : json) : Prop :=
  ∀ level rest fuel,
    wf_json v → (cost v ≤ fuel)%nat → number_ends rest →
    Json.scan_once fuel (Json.encode level v +:+ rest) = inr (v, rest).

(** ** The texts of the loader *)

(** The longest run of digits in [s]. *)
Fixpoint digit_runs (run best : nat) (s : string) : nat :=
  match s with
  | EmptyString => Nat.max run best
  | String c r =>
      if PyStr.isdigit c then digit_runs (S run) best r
      else digit_runs 0 (Nat.max run best) r
  end.

Definition longest_digit_run (s : string) : nat := digit_runs 0 0 s.

(** The deepest nesting of brackets and braces outside the strings of [s]. *)
Fixpoint nesting_from (in_string escaped : bool) (depth best : nat) (s : string) : nat :=
  match s with
  | EmptyString => best
  | String c r =>
      if in_string then
        if escaped then nesting_from true false depth best r
        else if Ascii.eqb c "\" then nesting_from true true depth best r
        else if Ascii.eqb c Json.dquote then nesting_from false false depth best r
        else nesting_from true false depth best r
      else if Ascii.eqb c Json.dquote then nesting_from true false depth best r
      else if Ascii.eqb c "[" || Ascii.eqb c "{" then
        nesting_from false false (S depth) (Nat.max best (S depth)) r
      else if Ascii.eqb c "]" || Ascii.eqb c "}" then
        nesting_from false false (Nat.pred depth) best r
      else nesting_from false false depth best r
  end.

Definition nesting (s : string) : nat := nesting_from false false 0 0 s.

(** The limits of the interpreter that the model leaves out: [json.loads]
    raises a [ValueError] on an integer literal of more than 4300 digits
    (CPython 3.11), and a [RecursionError] when the nesting exceeds the
    recursion limit (1000 by default). *)
Definition within_limits (text : string) : bool :=
  (longest_digit_run text <=? 4300)%nat && (nesting text <=? 500)%nat.

(** The texts that the model of [json.loads] covers: the decoder does not
    answer [Unmodelled] (no floating-point literal, [NaN] or [Infinity], no
    escape of a code point above 255), and the text is within the limits
    above. *)
Definition covered (text : string) : Prop :=
  Json.loads text ≠ inl Unmodelled ∧ within_limits text = true.

(** The exceptions of the model of the decoder. *)
Definition decoder_exn (e : exn) : Prop := e = JSONDecodeError ∨ e = Unmodelled.

(** ** Computations and worlds *)

Section Vocabulary.
Context {AL : AudioLib}.

(** A computation that only reads: it leaves the world as it is, and
    does not call the remote service. *)
Definition reads {A : Type} (m : M A) : Prop :=
  ∀ w, ∃ r, m w = (r, w) ∧ r ≠ inl SynthesisError.

(** What a pass does not touch. *)
Definition same_session (w w' : World) : Prop :=
  script w' = script w ∧ config w' = config w ∧
  available_voices w' = available_voices w ∧
  current_step w' = current_step w ∧ api_key w' = api_key w ∧
  generated_podcast w' = generated_podcast w.

(** The next call to the remote service does not succeed. *)
Definition failing (pending : list (option Audio)) : Prop :=
  ∀ a rest, pending ≠ Some a :: rest.

(** [outcome labels w r w'] describes a part of a pass that is to make the
    segments [labels], started in [w] and ended in [w'] with result [r]:
    the segments it has added are the first answers of the remote service,
    in order, under the first labels; it has returned, or the call after
    them has raised, or a lookup has. *)
Inductive outcome (labels : list string) (w : World) : exn + unit → World → Prop :=
| out_done auds w' :
    length auds = length labels →
    tts_pending w = (Some <$> auds) ++ tts_pending w' →
    audio_segments w' = audio_segments w ++ zip labels auds →
    length (tts_calls w') = (length (tts_calls w) + length auds)%nat →
    same_session w w' →
    outcome labels w (inr tt) w'
| out_synthesis auds rest w' :
    (length auds < length labels)%nat →
    tts_pending w = (Some <$> auds) ++ rest → failing rest →
    audio_segments w' = audio_segments w ++ zip labels auds →
    length (tts_calls w') = S (length (tts_calls w) + length auds) →
    same_session w w' →
    outcome labels w (inl SynthesisError) w'
| out_raised e auds w' :
    e ≠ SynthesisError →
    (length auds < length labels)%nat →
    tts_pending w = (Some <$> auds) ++ tts_pending w' →
    audio_segments w' = audio_segments w ++ zip labels auds →
    length (tts_calls w') = (length (tts_calls w) + length auds)%nat →
    same_session w w' →
    outcome labels w (inl e) w'.

(** Every run of [m] is such a part. *)
Definition emits (m : M unit) (labels : list string) : Prop :=
  ∀ w r w', m w = (r, w') → outcome labels w r w'.

(** The labels of a complete pass of [app.py], and of
    [podcast_generator_app.py]. *)
Definition app_labels (w : World) : list string :=
  intro_labels (config w) ++ line_labels (length (script w)) ++
  outro_labels (config w).

Definition pga_labels (w : World) : list string :=
  intro_labels (config w) ++ line_labels (length (script w)).

(** The sum of the durations of the segments. *)
Definition total_duration (segs : list (string * Audio)) : Z :=
  foldr (λ seg acc, audio_len seg.2 + acc) 0 segs.

(** The decoded intro music: [None] when there is none, [Some None] when
    the file cannot be decoded. *)
Definition decoded_music (w : World) : option (option Audio) :=
  (λ f, (audio_from_mp3 f).1) <$> intro_music (config w).

(** Its duration, [0] when there is none. *)
Definition music_duration (w : World) : Z :=
  match decoded_music w with
  | Some (Some intro) => audio_len intro
  | _ => 0
  end.

(** Everything but the record of the remote service is the same. *)
Definition same_content (w w' : World) : Prop :=
  script w' = script w ∧ config w' = config w ∧
  audio_segments w' = audio_segments w ∧
  available_voices w' = available_voices w ∧
  current_step w' = current_step w ∧ api_key w' = api_key w ∧
  generated_podcast w' = generated_podcast w ∧ messages w' = messages w.

(** What a regeneration leaves alone in any case. *)
Definition same_rest (w w' : World) : Prop :=
  available_voices w' = available_voices w ∧
  current_step w' = current_step w ∧ api_key w' = api_key w ∧
  generated_podcast w' = generated_podcast w ∧ messages w' = messages w.

(** The source text of the segment [label] is now [new_text]: the intro or
    outro text of the configuration, or the field ['text'] of the line that
    the label addresses; nothing else of the script and the configuration
    has changed. *)
Definition source_updated (label new_text : string) (w w' : World) : Prop :=
  if String.eqb label "Intro" then
    config w' = set_intro_text new_text (config w) ∧ script w' = script w
  else if String.eqb label "Outro" then
    config w' = set_outro_text new_text (config w) ∧ script w' = script w
  else
    config w' = config w ∧
    ∃ idx p d,
      line_index label w = (inr idx, w) ∧
      PyList.position (length (script w)) idx = Some p ∧
      script w !! p = Some (JDict d) ∧
      script w' = <[p := JDict (PyDict.set d "text" (JStr new_text))]> (script w).

(** The outcome of a regeneration of segment [i]. *)
Definition regenerated (i : nat) (label new_text : string)
    (w : World) (r : exn + unit) (w' : World) : Prop :=
  match r with
  | inl _ => same_content w w'
  | inr _ =>
      ∃ a rest, tts_pending w = Some a :: rest ∧
        audio_segments w' = <[i := (label, a)]> (audio_segments w) ∧
        source_updated label new_text w w' ∧ same_rest w w'
  end.

(** The world after the loader has accepted [items]. *)
Definition accepted (next : Z) (ok : string) (items : list json) (w : World) : World :=
  set_current_step next (add_message (StSuccess ok) (set_script items w)).

End Vocabulary.

(** ** The pages of the wizard *)

Definition speaker_key (i : nat) : string := "speaker_" +:+ PyStr.of_nat i.
Definition line_key (i : nat) : string := "line_" +:+ PyStr.of_nat i.

(** The line at index [i] after the page has been shown *)
Definition edited_line (ui : Env) (i : nat) (line : json) : json :=
  match line with
  | JDict d =>
      match PyDict.get d "speaker", PyDict.get d "text" with
      | Some speaker, Some text =>
          JDict (PyDict.set
                   (PyDict.set d "speaker"
                      (widget_value (text_input ui (speaker_key i) speaker)))
                   "text" (widget_value (text_area ui (line_key i) text)))
      | _, _ => line
      end
  | _ => line
  end.

(** The script when the lines before [j] have been shown *)
Definition edited_before (ui : Env) (j : nat) (lines : list json) : list json :=
  imap (λ i line, if decide (i < j)%nat then edited_line ui i line else line) lines.

(** The text of [line] is a string or a list: [line['text'][:50]] returns. *)
Definition sliceable_text (line : json) : bool :=
  match subscript line "text" with
  | inr (JStr _) | inr (JList _) => true
  | _ => false
  end.

(** The text of [line] is [None], a boolean or a number. *)
Definition scalar_text (line : json) : bool :=
  match subscript line "text" with
  | inr JNull | inr (JBool _) | inr (JInt _) => true
  | _ => false
  end.

(** ** The export link *)

Definition is_ascii (c : ascii) : bool := (PyStr.code c <? 128)%N.

(** A character of the base64 alphabet, or the padding *)
Definition is_base64 (c : ascii) : bool :=
  let n := PyStr.code c in
  (((65 <=? n) && (n <=? 90)) || ((97 <=? n) && (n <=? 122)) ||
   ((48 <=? n) && (n <=? 57)) || (n =? 43) || (n =? 47) || (n =? 61))%N.

(** The six bits of a character of the alphabet *)
Definition undigit (c : ascii) : N :=
  let n := PyStr.code c in
  (if (65 <=? n) && (n <=? 90) then n - 65
   else if (97 <=? n) && (n <=? 122) then n - 71
   else if (48 <=? n) && (n <=? 57) then n + 4
   else if n =? 43 then 62 else 63)%N.

(** What the model asks of the widgets *)
Record EnvLaws (ui : Env) : Prop := {
  selectbox_option : ∀ key options,
    match selectbox ui key options with
    | Some v => v ∈ options
    | None => options = []
    end;
  set_order_elements : ∀ l x, x ∈ set_order ui l ↔ x ∈ l;
}.

(** The nesting of a value. *)
Fixpoint depth (v : json) : nat :=
  match v with
  | JList items =>
      S ((fix deepest (l : list json) : nat :=
            match l with [] => O | x :: l' => Nat.max (depth x) (deepest l') end) items)
  | JDict fields =>
      S ((fix deepest (l : list (string * json)) : nat :=
            match l with [] => O | (_, x) :: l' => Nat.max (depth x) (deepest l') end)
           fields)
  | _ => O
  end.

(** Every integer of [v] is written with at most 4300 digits. *)
Fixpoint small_ints (v : json) : bool :=
  match v with
  | JInt n => Z.abs n <? 10 ^ 4300
  | JList items =>
      (fix all (l : list json) : bool :=
         match l with [] => true | x :: l' => small_ints x && all l' end) items
  | JDict fields =>
      (fix all (l : list (string * json)) : bool :=
         match l with [] => true | (_, x) :: l' => small_ints x && all l' end) fields
  | _ => true
  end.

(** The limits of the interpreter that the model of [json.dumps] leaves
    out: the digit limit of the conversion of an integer to text, and the
    recursion limit, which the encoder reaches on deeply nested values. *)
Definition within_encoder_limits (v : json) : bool :=
  small_ints v && (depth v <=? 100)%nat.

Section PagesVocabulary.
Context {AL : AudioLib}.

(** What the configuration page leaves alone. *)
Definition frame (w0 w : World) : Prop :=
  script w = script w0 ∧ available_voices w = available_voices w0 ∧
  audio_segments w = audio_segments w0 ∧ api_key w = api_key w0 ∧
  tts_pending w = tts_pending w0 ∧ tts_calls w = tts_calls w0 ∧
  generated_podcast w = generated_podcast w0.

(** A part of the page, run in the session [w0], that turns the configuration [c] into
   [F c] when it returns. *)
Definition updates (w0 : World) (m : M unit) (F : Config → Config) : Prop :=
  ∀ w w', frame w0 w → m w = (inr tt, w') → frame w0 w' ∧ config w' = F (config w).

(** The names of the voices *)
Definition voice_names (w : World) : list string := (map_to_list (available_voices w)).*1.

(** The map of the speakers after the select boxes of the speakers [order]. *)
Definition selected (ui : Env) (options order : list string)
    (m : gmap string (option string)) : gmap string (option string) :=
  foldl (λ m p, <[p := selectbox ui ("voice_" +:+ p) options]> m) m order.

(** The speakers of the script *)
Definition speaker_of (lines : list json) (s : string) : Prop :=
  ∃ line, line ∈ lines ∧ subscript line "speaker" = inr (JStr s).

(** The session when the edit page has shown the lines before [j]. *)
Definition shown (ui : Env) (w : World) (j : nat) : World :=
  set_script (edited_before ui j (script w)) w.

(** The voice of the speaker of line [j]. *)
Definition line_voice (w : World) (j : nat) : option (option string) :=
  line ← script w !! j;
  match subscript line "speaker" with
  | inr (JStr s) => podcasters (config w) !! s
  | _ => None
  end.

(** The request for a segment with the text [text] and the voice named [name]: [None] when
   the name is not one of the available voices. *)
Definition request_of (w : World) (text : json) (name : option string) : option Request :=
  n ← name; vd ← available_voices w !! n;
  Some {| req_text := text; req_voice_id := voice_id vd;
          req_settings := voice_settings (config w) |}.

Definition line_request (w : World) (line : json) : option Request :=
  match subscript line "speaker", subscript line "text" with
  | inr (JStr s), inr text => podcasters (config w) !! s ≫= request_of w text
  | _, _ => None
  end.

Definition intro_requests (w : World) : list (option Request) :=
  if PyStr.truthy (intro_text (config w))
  then [request_of w (JStr (intro_text (config w))) (intro_voice (config w))] else [].

Definition outro_requests (w : World) : list (option Request) :=
  if PyStr.truthy (outro_text (config w))
  then [request_of w (JStr (outro_text (config w))) (outro_voice (config w))] else [].

Definition app_requests (w : World) : list (option Request) :=
  intro_requests w ++ (line_request w <$> script w) ++ outro_requests w.

Definition pga_requests (w : World) : list (option Request) :=
  intro_requests w ++ (line_request w <$> script w).

Definition sent (plan : list (option Request)) (r : exn + unit) (reqs : list Request) : Prop :=
  match r with
  | inr _ => plan = Some <$> reqs
  | inl SynthesisError => reqs ≠ [] ∧ ∃ rest, plan = (Some <$> reqs) ++ rest
  | inl _ => ∃ rest, plan = (Some <$> reqs) ++ None :: rest
  end.

Definition sends (m : M unit) (plan : World → list (option Request)) : Prop :=
  ∀ w r w', m w = (r, w') →
    same_session w w' ∧
    ∃ reqs, tts_calls w' = tts_calls w ++ reqs ∧ sent (plan w) r reqs.

Definition stable (plan : World → list (option Request)) : Prop :=
  ∀ w w', same_session w w' → plan w' = plan w.

End PagesVocabulary.

(** ** Worlds to run the model on *)

Definition demo_settings : VoiceSettings :=
  {| stability := 0.5; similarity_boost := 0.8; style := 0.1 |}.

Definition demo_voices : gmap string VoiceData :=
  {[ "Adam" := {| voice_id := "v-adam"; samples := ["s1"] |};
     "Bella" := {| voice_id := "v-bella"; samples := [] |} ]}.

Definition demo_script : list json :=
  [ JDict [("speaker", JStr "Alex"); ("text", JStr "Welcome.")];
    JDict [("speaker", JStr "Sarah"); ("text", JStr "Thanks, Alex.")] ].

(** Both speakers have a voice. *)
Definition demo_config : Config :=
  {| intro_text := "Hello"; intro_voice := Some "Adam";
     outro_text := "Bye"; outro_voice := Some "Bella";
     intro_music := Some {| upload_data := "ID3"; upload_pos := 0 |};
     podcasters := {[ "Alex" := Some "Adam"; "Sarah" := Some "Bella" ]};
     voice_settings := demo_settings |}.

(** No intro, no outro, and ["Sarah"] has no voice. *)
Definition partial_config : Config :=
  {| intro_text := ""; intro_voice := None;
     outro_text := ""; outro_voice := None;
     intro_music := None;
     podcasters := {[ "Alex" := Some "Adam" ]};
     voice_settings := demo_settings |}.

(** A session at step 5, with the script above, the configuration [c],
    the segments [segs] and the answers [pending] of the remote service. *)
Definition demo_world (c : Config) (segs : list (string * list Z))
    (pending : list (option (list Z))) : @World sample_audio :=
  @Build_World sample_audio demo_script c segs 5 demo_voices "key" pending [] [] None.

(** A voice directory with two voices named ["Adam"]. *)
Definition demo_response : Response :=
  {| status_code := 200;
     voices := [ {| v_name := "Adam"; v_voice_id := "id-1"; v_samples := None |};
                 {| v_name := "Bella"; v_voice_id := "id-2"; v_samples := Some ["s"] |};
                 {| v_name := "Adam"; v_voice_id := "id-3"; v_samples := Some [] |} ] |}.

(** ** Widgets to run the pages on *)

(** Nothing is clicked or typed: a text widget returns the string it is
    given, a select box its first option, a slider the value it is given;
    no file is uploaded, a set is iterated in the order of its first
    occurrences, and the sample service fails. *)
Definition demo_env : Env :=
  {| button := λ _, false;
     text_input := λ _ v, match v with JStr s => Some s | _ => None end;
     text_area := λ _ v, match v with JStr s => Some s | _ => None end;
     selectbox := λ _ options, head options;
     slider := λ _ v, v;
     file_uploader := λ _, None;
     set_order := remove_dups;
     get_audio := λ _ _, inl "sample not found" |}.

(** The same, with a new text typed for the first line. *)
Definition editing_env : Env :=
  {| button := button demo_env;
     text_input := text_input demo_env;
     text_area := λ key v,
       if String.eqb key "line_0" then Some "Hello, and welcome."
       else text_area demo_env key v;
     selectbox := selectbox demo_env;
     slider := slider demo_env;
     file_uploader := file_uploader demo_env;
     set_order := set_order demo_env;
     get_audio := get_audio demo_env |}.

(** * Properties *)

(** ** Strings and labels *)

Section Labels.

Lemma string_app_assoc (a b c : string) : (a +:+ b) +:+ c = a +:+ (b +:+ c).
Proof. induction a as [|x a IH]; simpl; [done | by rewrite IH]. Qed.

Lemma string_app_nil_r (a : string) : a +:+ "" = a.
Proof. induction a as [|x a IH]; simpl; [done | by rewrite IH]. Qed.

Lemma isdigit_not_space c : PyStr.isdigit c = true → PyStr.isspace c = false.
Proof. destruct c as [[] [] [] [] [] [] [] []]; vm_compute; congruence. Qed.

Lemma isdigit_not_sign c :
  PyStr.isdigit c = true →
  Ascii.eqb c "-" = false ∧ Ascii.eqb c "+" = false ∧ Ascii.eqb c "_" = false.
Proof. destruct c as [[] [] [] [] [] [] [] []]; vm_compute; intuition congruence. Qed.

Lemma digits_string_of_uint d :
  all_chars PyStr.isdigit (NilEmpty.string_of_uint d) = true.
Proof. induction d; simpl; auto. Qed.

Lemma string_of_uint_nonempty d :
  d ≠ Nil → NilEmpty.string_of_uint d ≠ "".
Proof. by destruct d. Qed.

Lemma to_uint_nonnil (n : N) : N.to_uint n ≠ Nil.
Proof. destruct n; simpl; [done | apply DecimalPos.Unsigned.to_uint_nonnil]. Qed.

Lemma split_from_word w :
  all_chars PyStr.isdigit w = true →
  ∀ cur, PyStr.split_from cur w = PyStr.flush (cur +:+ w).
Proof.
  induction w as [|c w IH]; simpl; intros Hw cur.
  - by rewrite string_app_nil_r.
  - apply andb_prop in Hw as [Hc Hw].
    rewrite (isdigit_not_space _ Hc), IH by done.
    by rewrite string_app_assoc.
Qed.

Lemma lstrip_digits w :
  all_chars PyStr.isdigit w = true → PyStr.lstrip w = w.
Proof.
  destruct w as [|c w]; simpl; [done|]. intros [Hc _]%andb_prop.
  by rewrite (isdigit_not_space _ Hc).
Qed.

Lemma rstrip_digits w :
  all_chars PyStr.isdigit w = true → PyStr.rstrip w = w.
Proof.
  induction w as [|c w IH]; simpl; [done|]. intros [Hc Hw]%andb_prop.
  rewrite IH by done. rewrite (isdigit_not_space _ Hc). by destruct w.
Qed.

Lemma literal_digits_after w :
  all_chars PyStr.isdigit w = true → PyStr.literal_digits true w = Some w.
Proof.
  induction w as [|c w IH]; simpl; [done|]. intros [Hc Hw]%andb_prop.
  by rewrite Hc, IH.
Qed.

Lemma int_digits (d : uint) :
  d ≠ Nil → PyStr.int (NilEmpty.string_of_uint d) = Some (Z.of_uint d).
Proof.
  intros Hd. pose proof (digits_string_of_uint d) as Hw.
  pose proof (string_of_uint_nonempty d Hd) as Hne.
  unfold PyStr.int, PyStr.strip.
  rewrite lstrip_digits, rstrip_digits by done.
  pose proof (NilEmpty.usu d) as Hu.
  destruct (NilEmpty.string_of_uint d) as [|c w] eqn:Hs; [done|].
  simpl in Hw. apply andb_prop in Hw as [Hc Hw].
  destruct (isdigit_not_sign _ Hc) as (-> & -> & _).
  simpl PyStr.literal_digits. rewrite Hc, literal_digits_after by done.
  simpl. unfold PyStr.digits_value. by rewrite Hu.
Qed.

Lemma int_of_nat (n : nat) : PyStr.int (PyStr.of_nat n) = Some (Z.of_nat n).
Proof.
  unfold PyStr.of_nat. rewrite int_digits by apply to_uint_nonnil.
  f_equal. unfold Z.of_uint.
  change (Pos.of_uint (N.to_uint (N.of_nat n))) with
    (N.of_uint (N.to_uint (N.of_nat n))).
  rewrite DecimalN.Unsigned.of_to. lia.
Qed.

Lemma split_line_label (i : nat) :
  PyStr.split (line_label i) = ["Line"; PyStr.of_nat (i + 1)].
Proof.
  unfold line_label, PyStr.split. simpl.
  rewrite split_from_word by apply digits_string_of_uint. simpl.
  pose proof (string_of_uint_nonempty _ (to_uint_nonnil (N.of_nat (i + 1)))).
  unfold PyStr.of_nat. by destruct (NilEmpty.string_of_uint _).
Qed.

(** A label of a line is neither ["Intro"] nor ["Outro"]. *)
Lemma line_label_not_intro (i : nat) :
  String.eqb (line_label i) "Intro" = false ∧
  String.eqb (line_label i) "Outro" = false.
Proof. done. Qed.

Lemma position_nat (n j : nat) :
  (j < n)%nat → PyList.position n (Z.of_nat j) = Some j.
Proof.
  intros Hj. unfold PyList.position.
  replace (0 <=? Z.of_nat j) with true by (symmetry; apply Z.leb_le; lia).
  replace (Z.of_nat j <? Z.of_nat n) with true by (symmetry; apply Z.ltb_lt; lia).
  simpl. f_equal. lia.
Qed.

End Labels.

(** ** Running a computation *)

Section Run.
Context {AL : AudioLib}.

Lemma run_bind {A B : Type} (m : M A) (k : A → M B) (w : World) :
  (m ≫= k) w =
  match m w with
  | (inr x, w') => k x w'
  | (inl e, w') => (inl e, w')
  end.
Proof. reflexivity. Qed.

Lemma run_bind_inv {A B : Type} (m : M A) (k : A → M B) w r w' :
  (m ≫= k) w = (r, w') →
  (∃ e, m w = (inl e, w') ∧ r = inl e) ∨
  (∃ x w1, m w = (inr x, w1) ∧ k x w1 = (r, w')).
Proof.
  rewrite run_bind. destruct (m w) as [[e|x] w1]; intros H.
  - left. exists e. by inversion H.
  - right. by exists x, w1.
Qed.

Lemma reads_gets {A : Type} (f : World → A) : reads (gets f).
Proof. intros w. by exists (inr (f w)). Qed.

Lemma reads_ret {A : Type} (x : A) : reads (mret x : M A).
Proof. intros w. by exists (inr x). Qed.

Lemma reads_lift {A : Type} (r : exn + A) : r ≠ inl SynthesisError → reads (lift r).
Proof. intros Hr w. exists r. by destruct r. Qed.

Lemma subscript_not_synthesis j k : subscript j k ≠ inl SynthesisError.
Proof. destruct j; simpl; try done. by destruct (PyDict.get _ _). Qed.

Lemma reads_subscript j k : reads (lift (subscript j k)).
Proof. apply reads_lift, subscript_not_synthesis. Qed.

Lemma reads_voice_data name : reads (voice_data name).
Proof.
  intros w. unfold voice_data. destruct name as [n|]; [|by eexists].
  destruct (available_voices w !! n); by eexists.
Qed.

Lemma reads_podcaster_voice speaker : reads (podcaster_voice speaker).
Proof.
  intros w. unfold podcaster_voice.
  destruct speaker; try by eexists.
  destruct (podcasters (config w) !! s); by eexists.
Qed.

Lemma reads_line_index label : reads (line_index label).
Proof.
  intros w. unfold line_index.
  destruct (PyStr.split label !! 1%nat) as [tok|]; [|by eexists].
  destruct (PyStr.int tok); by eexists.
Qed.

Lemma reads_script_line i : reads (script_line i).
Proof.
  intros w. unfold script_line.
  destruct (PyList.position _ _ ≫= _); by eexists.
Qed.

End Run.

Create HintDb reads.
#[local] Hint Resolve reads_gets reads_ret reads_subscript reads_voice_data
  reads_podcaster_voice reads_line_index reads_script_line : reads.

(** ** One pass of the generation *)

Section Outcome.
Context {AL : AudioLib}.

Lemma same_session_refl w : same_session w w.
Proof. by repeat split. Qed.

Lemma same_session_trans w1 w2 w3 :
  same_session w1 w2 → same_session w2 w3 → same_session w1 w3.
Proof.
  intros (?&?&?&?&?&?) (?&?&?&?&?&?). repeat split; congruence.
Qed.

Lemma zip_app_short (l1 l2 : list string) (k : list Audio) :
  (length k ≤ length l1)%nat → zip (l1 ++ l2) k = zip l1 k.
Proof.
  revert k. induction l1 as [|x l1 IH]; intros [|y k] Hk; simpl in *;
    try done; try lia.
  - by destruct l2.
  - f_equal. apply IH. lia.
Qed.

Lemma emits_ret : emits (mret tt) [].
Proof.
  intros w r w' [= <- <-]. apply (out_done _ _ []); simpl;
    rewrite ?app_nil_r; auto using same_session_refl.
Qed.

Lemma outcome_seq l1 l2 w w1 r w' :
  outcome l1 w (inr tt) w1 → outcome l2 w1 r w' → outcome (l1 ++ l2) w r w'.
Proof.
  intros H1 H2. inversion H1 as [a1 ? L1 P1 S1 C1 F1| |]; subst.
  inversion H2 as [a2 ? L2 P2 S2 C2 F2|a2 rest ? L2 P2 R2 S2 C2 F2
                  |e a2 ? E2 L2 P2 S2 C2 F2]; subst.
  - apply (out_done _ _ (a1 ++ a2)).
    + rewrite !length_app. lia.
    + rewrite P1, P2, fmap_app, app_assoc. done.
    + rewrite S2, S1, <- app_assoc. f_equal. by rewrite zip_with_app.
    + rewrite C2, C1, length_app. lia.
    + eauto using same_session_trans.
  - apply (out_synthesis _ _ (a1 ++ a2) rest); auto.
    + rewrite !length_app. lia.
    + rewrite P1, P2, fmap_app, app_assoc. done.
    + rewrite S2, S1, <- app_assoc. f_equal. by rewrite zip_with_app.
    + rewrite C2, C1, length_app. lia.
    + eauto using same_session_trans.
  - apply (out_raised _ _ _ (a1 ++ a2)); auto.
    + rewrite !length_app. lia.
    + rewrite P1, P2, fmap_app, app_assoc. done.
    + rewrite S2, S1, <- app_assoc. f_equal. by rewrite zip_with_app.
    + rewrite C2, C1, length_app. lia.
    + eauto using same_session_trans.
Qed.

Lemma outcome_stop l1 l2 w e w' :
  outcome l1 w (inl e) w' → outcome (l1 ++ l2) w (inl e) w'.
Proof.
  intros H. inversion H as [|a rest ? L P R S C F|? a ? E L P S C F]; subst.
  - apply (out_synthesis _ _ a rest); auto.
    + rewrite length_app. lia.
    + rewrite zip_app_short; [done | lia].
  - apply (out_raised _ _ _ a); auto.
    + rewrite length_app. lia.
    + rewrite zip_app_short; [done | lia].
Qed.

Lemma emits_seq m1 m2 l1 l2 :
  emits m1 l1 → emits m2 l2 → emits (m1 ;; m2) (l1 ++ l2).
Proof.
  intros H1 H2 w r w' H.
  apply run_bind_inv in H as [(e & Hm & ->)|([] & w1 & Hm & Hk)].
  - apply outcome_stop. by apply H1.
  - eapply outcome_seq; [by apply H1 | by apply H2].
Qed.

(** A read in front of a part that is to produce at least one segment. *)
Lemma emits_read {A : Type} (m : M A) (k : A → M unit) labels :
  reads m → labels ≠ [] → (∀ x, emits (k x) labels) → emits (m ≫= k) labels.
Proof.
  intros Hm Hl Hk w r w' H. rewrite run_bind in H.
  destruct (Hm w) as (r0 & Hr0 & Hne). rewrite Hr0 in H.
  destruct r0 as [e|x]; [|by apply (Hk x)].
  inversion H; subst. apply (out_raised _ _ _ []); simpl;
    rewrite ?app_nil_r; auto using same_session_refl.
  - congruence.
  - destruct labels; [done | simpl; lia].
  - by rewrite zip_with_nil_r, app_nil_r.
Qed.

(** The call to the remote service and the new segment. *)
Lemma emits_synthesis label text vid vs :
  emits (audio ← generate_audio text vid vs; append_segment (label, audio)) [label].
Proof.
  intros w r w' H. rewrite run_bind in H. unfold generate_audio in H.
  destruct (tts_pending w) as [|[a|] rest] eqn:Hp; inversion H; subst; clear H.
  - apply (out_synthesis _ _ [] []); simpl;
      rewrite ?app_nil_r, ?length_app; simpl; try done; lia.
  - apply (out_done _ _ [a]); simpl;
      rewrite ?length_app; simpl; try done; lia.
  - apply (out_synthesis _ _ [] (None :: rest)); simpl;
      rewrite ?app_nil_r, ?length_app; simpl; try done; lia.
Qed.

Lemma emits_when (b : bool) m labels :
  emits m labels → emits (when b m) (if b then labels else []).
Proof. destruct b; [done | intros _; apply emits_ret]. Qed.

Lemma emits_for {A : Type} (body : nat → A → M unit) (label : nat → string) :
  (∀ i x, emits (body i x) [label i]) →
  ∀ l start, emits (for_enumerate start l body) (label <$> seq start (length l)).
Proof.
  intros Hbody. induction l as [|x l IH]; intros start; simpl.
  - apply emits_ret.
  - apply (emits_seq _ _ [label start]); [apply Hbody | apply IH].
Qed.

(** A message at the end. *)
Lemma emits_success s : emits (st_success s) [].
Proof.
  intros w r w' [= <- <-]. apply (out_done _ _ []); simpl;
    rewrite ?app_nil_r; try done; lia.
Qed.

End Outcome.

(** ** The "Generate All Audio" pass *)

(** A part of the pass that makes one segment: reads, then the call and
    the new segment. *)
Ltac site :=
  repeat (apply emits_read; [solve [auto with reads] | done | intros ?]);
  apply emits_synthesis.

Section GenerateAll.
Context {AL : AudioLib}.

Lemma run_modify {B : Type} (f : World → World) (k : M B) w :
  (modify f ;; k) w = k (f w).
Proof. reflexivity. Qed.

Lemma run_gets {A B : Type} (f : World → A) (k : A → M B) w :
  (gets f ≫= k) w = k (f w) w.
Proof. reflexivity. Qed.

Lemma outcome_bind l1 l2 (m1 m2 : M unit) w r w' :
  (m1 ;; m2) w = (r, w') →
  emits m1 l1 →
  (∀ w1 r1 w1', same_session w w1 → m2 w1 = (r1, w1') → outcome l2 w1 r1 w1') →
  outcome (l1 ++ l2) w r w'.
Proof.
  intros H H1 H2.
  apply run_bind_inv in H as [(e & Hm & ->)|([] & w1 & Hm & Hk)].
  - apply outcome_stop. by apply H1.
  - pose proof (H1 _ _ _ Hm) as Ho. eapply outcome_seq; [exact Ho|].
    apply H2; [|done]. by inversion Ho.
Qed.

Lemma app_generate_all_outcome w r w' :
  App.generate_all w = (r, w') →
  outcome (app_labels w) (set_audio_segments [] w) r w'.
Proof.
  unfold App.generate_all. rewrite run_modify, run_gets.
  set (w0 := set_audio_segments [] w). intros H.
  unfold app_labels.
  change (config w) with (config w0). change (script w) with (script w0).
  eapply outcome_bind; [exact H | apply emits_when; site |].
  clear H r w'. intros w1 r w' (Hs & Hc & _) H. rewrite run_gets in H.
  rewrite <- Hs, <- Hc.
  eapply outcome_bind; [exact H | apply emits_for; intros; site |].
  clear H r w'. intros w2 r w' (_ & Hc2 & _) H. rewrite run_gets in H.
  rewrite <- Hc2. rewrite <- (app_nil_r (outro_labels _)).
  eapply outcome_bind; [exact H | apply emits_when; site |].
  intros ??? _. apply emits_success.
Qed.

Lemma pga_generate_all_outcome w r w' :
  PodcastGeneratorApp.generate_all w = (r, w') →
  outcome (pga_labels w) (set_audio_segments [] w) r w'.
Proof.
  unfold PodcastGeneratorApp.generate_all. rewrite run_modify, run_gets.
  set (w0 := set_audio_segments [] w). intros H.
  unfold pga_labels.
  change (config w) with (config w0). change (script w) with (script w0).
  eapply outcome_bind; [exact H | apply emits_when; site |].
  clear H r w'. intros w1 r w' (Hs & Hc & _) H. rewrite run_gets in H.
  rewrite <- Hs. rewrite <- (app_nil_r (line_labels _)).
  eapply outcome_bind; [exact H | apply emits_for; intros; site |].
  intros ??? _. apply emits_success.
Qed.

End GenerateAll.

(** ** The claims on the generation pass *)

Section GenerateAllClaims.
Context {AL : AudioLib}.

Lemma line_labels_take (k n : nat) :
  (k ≤ n)%nat →
  line_labels n = line_labels k ++ (line_label <$> seq k (n - k)).
Proof.
  intros Hk. unfold line_labels.
  replace n with (k + (n - k))%nat at 1 by lia.
  by rewrite seq_app, fmap_app.
Qed.

Lemma length_line_labels n : length (line_labels n) = n.
Proof. unfold line_labels. by rewrite length_fmap, length_seq. Qed.

Lemma line_labels_from_1 n :
  line_labels n = (λ i, "Line " +:+ PyStr.of_nat i) <$> seq 1 n.
Proof.
  unfold line_labels. rewrite <- fmap_S_seq, <- list_fmap_compose.
  apply list_fmap_ext. intros _ i _. unfold line_label. simpl.
  by rewrite Nat.add_1_r.
Qed.

Lemma fst_zip_same (l : list string) (k : list Audio) :
  length k = length l → (zip l k).*1 = l.
Proof. intros H. apply fst_zip. lia. Qed.

(** C2.  A pass that succeeds leaves the segments labelled, in order:
    ["Intro"] exactly when the intro text is not empty, then ["Line 1"] to
    ["Line N"] for the [N] lines of the script, whatever their speakers,
    then ["Outro"] exactly when the outro text is not empty.  The older
    application has no outro. *)
Theorem generate_all_labels :
  (∀ w w', App.generate_all w = (inr tt, w') →
     (audio_segments w').*1 =
       (if PyStr.truthy (intro_text (config w)) then ["Intro"] else []) ++
       ((λ i, "Line " +:+ PyStr.of_nat i) <$> seq 1 (length (script w))) ++
       (if PyStr.truthy (outro_text (config w)) then ["Outro"] else [])) ∧
  (∀ w w', PodcastGeneratorApp.generate_all w = (inr tt, w') →
     (audio_segments w').*1 =
       (if PyStr.truthy (intro_text (config w)) then ["Intro"] else []) ++
       ((λ i, "Line " +:+ PyStr.of_nat i) <$> seq 1 (length (script w)))).
Proof.
  split; intros w w' H; rewrite <- line_labels_from_1.
  - apply app_generate_all_outcome in H.
    inversion H as [auds ? L P S C F| |]; subst.
    rewrite S. simpl. by apply fst_zip_same.
  - apply pga_generate_all_outcome in H.
    inversion H as [auds ? L P S C F| |]; subst.
    rewrite S. simpl. by apply fst_zip_same.
Qed.

End GenerateAllClaims.

Lemma generate_all_labels_witness :
  let w := demo_world demo_config [] [Some [1]; Some [2]; Some [3]; Some [4]] in
  (App.generate_all w).1 = inr tt ∧
  (audio_segments (App.generate_all w).2).*1 = ["Intro"; "Line 1"; "Line 2"; "Outro"].
Proof.
  intros w. split; [by vm_compute|].
  apply (proj1 (@generate_all_labels sample_audio) w). by vm_compute.
Defined.

Section GenerateAllFailures.
Context {AL : AudioLib}.

Lemma some_prefix_failing (auds : list Audio) rest (pending : list (option Audio)) :
  pending = (Some <$> auds) ++ rest → failing pending → auds = [].
Proof. destruct auds as [|a auds]; [done|]. intros -> H. by destruct (H a ((Some <$> auds) ++ rest)). Qed.

(** C6.  When the synthesis call of line [k] raises, the segments made so
    far in the pass stay in the list: the intro, if there is one, and
    lines [0] to [k-1], with the audio that the service returned for them,
    and nothing for line [k] or a later line.  The call of line [k] is the
    call number [intro + k + 1] of the pass. *)
Theorem generate_all_abort_preserves :
  (∀ w w' k,
     App.generate_all w = (inl SynthesisError, w') →
     (k < length (script w))%nat →
     length (tts_calls w') =
       S (length (tts_calls w) + length (intro_labels (config w)) + k) →
     ∃ auds rest,
       tts_pending w = (Some <$> auds) ++ rest ∧ failing rest ∧
       length auds = (length (intro_labels (config w)) + k)%nat ∧
       audio_segments w' = zip (intro_labels (config w) ++ line_labels k) auds) ∧
  (∀ w w' k,
     PodcastGeneratorApp.generate_all w = (inl SynthesisError, w') →
     (k < length (script w))%nat →
     length (tts_calls w') =
       S (length (tts_calls w) + length (intro_labels (config w)) + k) →
     ∃ auds rest,
       tts_pending w = (Some <$> auds) ++ rest ∧ failing rest ∧
       length auds = (length (intro_labels (config w)) + k)%nat ∧
       audio_segments w' = zip (intro_labels (config w) ++ line_labels k) auds).
Proof.
  split; intros w w' k H Hk Hcalls.
  - apply app_generate_all_outcome in H.
    inversion H as [|auds rest ? L P R S C F|? ? ? E]; subst; [|done]. simpl in *.
    assert (length auds = (length (intro_labels (config w)) + k)%nat) as Hlen by lia.
    exists auds, rest. repeat split; try done.
    rewrite S. unfold app_labels.
    rewrite (line_labels_take k (length (script w))) by lia.
    rewrite <- !app_assoc, (app_assoc (intro_labels _)).
    apply zip_app_short. rewrite length_app, length_line_labels. lia.
  - apply pga_generate_all_outcome in H.
    inversion H as [|auds rest ? L P R S C F|? ? ? E]; subst; [|done]. simpl in *.
    assert (length auds = (length (intro_labels (config w)) + k)%nat) as Hlen by lia.
    exists auds, rest. repeat split; try done.
    rewrite S. unfold pga_labels.
    rewrite (line_labels_take k (length (script w))) by lia.
    rewrite (app_assoc (intro_labels _)).
    apply zip_app_short. rewrite length_app, length_line_labels. lia.
Qed.

(** C10.  The pass starts by emptying the segment list: its outcome does
    not depend on the segments of an earlier pass, and when no synthesis
    call of the pass succeeds (the first call raises, or the pass raises
    before any call), the list is left empty. *)
Theorem generate_all_resets :
  (∀ w old, App.generate_all (set_audio_segments old w) = App.generate_all w) ∧
  (∀ w r w', App.generate_all w = (r, w') →
     failing (tts_pending w) ∨ length (tts_calls w') = length (tts_calls w) →
     audio_segments w' = []) ∧
  (∀ w old, PodcastGeneratorApp.generate_all (set_audio_segments old w) =
            PodcastGeneratorApp.generate_all w) ∧
  (∀ w r w', PodcastGeneratorApp.generate_all w = (r, w') →
     failing (tts_pending w) ∨ length (tts_calls w') = length (tts_calls w) →
     audio_segments w' = []).
Proof.
  assert (∀ labels (w : World) r w',
    outcome labels (set_audio_segments [] w) r w' →
    failing (tts_pending w) ∨ length (tts_calls w') = length (tts_calls w) →
    audio_segments w' = []) as Hempty.
  { intros labels w r w' H Hno.
    inversion H as [auds ? L P S C F|auds rest ? L P R S C F|e auds ? E L P S C F];
      subst; simpl in *.
    - assert (auds = []) as ->.
      { destruct Hno as [Hf|Hc]; [by eapply some_prefix_failing|].
        destruct auds; [done | simpl in *; lia]. }
      by rewrite S, zip_with_nil_r.
    - assert (auds = []) as ->.
      { destruct Hno as [Hf|Hc]; [by eapply some_prefix_failing | lia]. }
      by rewrite S, zip_with_nil_r.
    - assert (auds = []) as ->.
      { destruct Hno as [Hf|Hc]; [by eapply some_prefix_failing|].
        destruct auds; [done | simpl in *; lia]. }
      by rewrite S, zip_with_nil_r. }
  repeat split.
  - intros w r w' H. apply Hempty with (app_labels w) r.
    by apply app_generate_all_outcome.
  - intros w r w' H. apply Hempty with (pga_labels w) r.
    by apply pga_generate_all_outcome.
Qed.

End GenerateAllFailures.

Lemma generate_all_abort_preserves_witness :
  let w := demo_world demo_config [] [Some [1]; Some [2]; None; Some [4]] in
  (App.generate_all w).1 = inl SynthesisError ∧
  ∃ auds rest,
    tts_pending w = (Some <$> auds) ++ rest ∧ failing rest ∧
    length auds = 2%nat ∧
    audio_segments (App.generate_all w).2 = zip ["Intro"; "Line 1"] auds.
Proof.
  intros w. split; [by vm_compute|].
  apply (proj1 (@generate_all_abort_preserves sample_audio) w _ 1%nat);
    by vm_compute.
Defined.

Lemma generate_all_resets_witness :
  let w := demo_world demo_config [("Intro", [9]); ("Line 1", [8])] [None] in
  failing (tts_pending w) ∧ audio_segments (App.generate_all w).2 = [].
Proof.
  intros w. assert (failing (tts_pending w)) as Hf by (by intros ??).
  split; [exact Hf|].
  apply (proj1 (proj2 (@generate_all_resets sample_audio)) w
           (App.generate_all w).1 (App.generate_all w).2);
    [by destruct (App.generate_all w) | by left].
Defined.

(** ** A speaker without a voice *)

Section UnmappedSpeaker.
Context {AL : AudioLib}.

Lemma for_stops_at {A : Type} (body : nat → A → M unit) (label : nat → string)
    (bad : World → A → Prop) (e : exn) :
  (∀ i x, emits (body i x) [label i]) →
  (∀ i x w, bad w x → body i x w = (inl e, w)) →
  (∀ w w1 x, same_session w w1 → bad w x → bad w1 x) →
  ∀ l k x start w r w',
    l !! k = Some x → bad w x → for_enumerate start l body w = (r, w') →
    ∃ e', r = inl e' ∧
      (length (audio_segments w') ≤ length (audio_segments w) + k)%nat ∧
      (length (audio_segments w') = (length (audio_segments w) + k)%nat →
       e' = e ∧ length (tts_calls w') = (length (tts_calls w) + k)%nat).
Proof.
  intros Hemits Hbad Hkeep. induction l as [|y l IH]; intros k x start w r w' Hk Hx H.
  { by destruct k. }
  simpl in H. destruct k as [|k]; simpl in Hk.
  - injection Hk as ->. rewrite run_bind, (Hbad _ _ _ Hx) in H.
    injection H as <- <-. exists e. split; [done|]. split; [lia|]. split; [done | lia].
  - apply run_bind_inv in H as [(e1 & Hm & ->)|([] & w1 & Hm & Hrest)].
    + apply Hemits in Hm.
      inversion Hm as [|auds rest ? L P R Sg C F|? auds ? E L P Sg C F]; subst;
        simpl in L; assert (auds = []) as -> by (destruct auds; [done | simpl in L; lia]);
        rewrite Sg, length_app; simpl;
        (eexists; split; [done|]; split; [lia|]; intros; lia).
    + apply Hemits in Hm.
      inversion Hm as [auds ? L P Sg C F| |]; subst.
      destruct (IH k x (S start) w1 r w' Hk (Hkeep _ _ _ F Hx) Hrest)
        as (e' & -> & Hle & Heq).
      rewrite Sg, length_app, length_zip_with, L in Hle, Heq. simpl in *.
      rewrite C, L in Heq. simpl in *.
      exists e'. split; [done|]. split; [lia|].
      intros Hlen. destruct Heq as [-> Hc]; [lia|]. split; [done | lia].
Qed.

Lemma unmapped_keep w w1 line s :
  same_session w w1 → unmapped (config w) line s → unmapped (config w1) line s.
Proof. intros (_ & Hc & _) [H1 H2]. split; [done | by rewrite Hc]. Qed.

(** The pass after the intro: it stops at the line without a voice. *)
Lemma pass_stops_at (intro rest : M unit) (b : bool) e k w r w' :
  emits intro ["Intro"] →
  (∀ w1 r1 w1', same_session w w1 → rest w1 = (r1, w1') →
     ∃ e', r1 = inl e' ∧
       (length (audio_segments w1') ≤ length (audio_segments w1) + k)%nat ∧
       (length (audio_segments w1') = (length (audio_segments w1) + k)%nat →
        e' = e ∧ length (tts_calls w1') = (length (tts_calls w1) + k)%nat)) →
  (when b intro ;; rest) w = (r, w') →
  audio_segments w = [] →
  let n := length (if b then ["Intro"] else []) in
  ∃ e', r = inl e' ∧
    (length (audio_segments w') ≤ n + k)%nat ∧
    (length (audio_segments w') = (n + k)%nat →
     e' = e ∧ length (tts_calls w') = (length (tts_calls w) + n + k)%nat).
Proof.
  intros Hintro Hrest H Hnil n.
  apply run_bind_inv in H as [(e1 & Hm & ->)|([] & w1 & Hm & Hk)].
  - apply (emits_when b) in Hintro. apply Hintro in Hm.
    assert (b = true ∧ audio_segments w' = []) as [-> Hs].
    { inversion Hm as [|auds ? ? L P R Sg C F|? auds ? E L P Sg C F]; subst;
        (destruct b; simpl in L; [|lia]);
        (destruct auds; [|simpl in L; lia]);
        by rewrite Sg, Hnil. }
    exists e1. rewrite Hs. subst n. simpl. split; [done|]. split; lia.
  - apply (emits_when b) in Hintro. apply Hintro in Hm.
    inversion Hm as [auds ? L P Sg C F| |]; subst.
    destruct (Hrest _ _ _ F Hk) as (e' & -> & Hle & Heq).
    rewrite Sg, Hnil, C in *. simpl in Hle, Heq.
    rewrite length_zip_with, L in Hle, Heq.
    exists e'. subst n. split; [done|]. split; [lia|].
    intros Hlen. destruct Heq as [-> Hc]; [lia|]. split; [done | lia].
Qed.

(** C1, as the code has it.  There is no check before the pass.  With a
    line [k] whose speaker has no voice, the pass never completes; the
    synthesis calls of the intro and of the lines before [k] are issued
    first, and when the pass has made all these segments it stops at line
    [k] with the [KeyError] of the speaker. *)
Theorem generate_all_unmapped_speaker :
  (∀ w k line s,
     script w !! k = Some line → unmapped (config w) line s →
     ∃ e w', App.generate_all w = (inl e, w') ∧
       (length (audio_segments w') ≤ length (intro_labels (config w)) + k)%nat ∧
       (length (audio_segments w') = (length (intro_labels (config w)) + k)%nat →
        e = KeyError (JStr s) ∧
        length (tts_calls w') =
          (length (tts_calls w) + length (intro_labels (config w)) + k)%nat)) ∧
  (∀ w k line s text,
     script w !! k = Some line → unmapped (config w) line s →
     subscript line "text" = inr text →
     ∃ e w', PodcastGeneratorApp.generate_all w = (inl e, w') ∧
       (length (audio_segments w') ≤ length (intro_labels (config w)) + k)%nat ∧
       (length (audio_segments w') = (length (intro_labels (config w)) + k)%nat →
        e = KeyError (JStr s) ∧
        length (tts_calls w') =
          (length (tts_calls w) + length (intro_labels (config w)) + k)%nat)).
Proof.
  split.
  - intros w k line s Hk Hbad.
    destruct (App.generate_all w) as [r w'] eqn:H.
    unfold App.generate_all in H. rewrite run_modify, run_gets in H.
    eapply (pass_stops_at _ _ _ (KeyError (JStr s)) k) in H; [| site | | done].
    { destruct H as (e' & -> & H). by exists e', w'. }
    clear H r w'. intros w1 r w' F H. rewrite run_gets in H.
    destruct F as (Hs & Hc & F). rewrite Hs in H.
    set (bad := λ (w : World) x, unmapped (config w) x s).
    assert (∀ i x (w2 : World), bad w2 x →
      (speaker ← lift (subscript x "speaker");
       voice_name ← podcaster_voice speaker;
       text ← lift (subscript x "text");
       vd ← voice_data voice_name;
       vs ← gets (λ w, voice_settings (config w));
       audio ← generate_audio text (voice_id vd) vs;
       append_segment (line_label i, audio)) w2 = (inl (KeyError (JStr s)), w2))
      as Hbody.
    { intros i x w2 [Hsp Hnone]. rewrite run_bind, Hsp. simpl.
      rewrite run_bind. unfold podcaster_voice. by rewrite Hnone. }
    assert (∀ (w w1 : World) x, same_session w w1 → bad w x → bad w1 x) as Hkeep.
    { intros ???. apply unmapped_keep. }
    assert (bad w1 line) as Hline by (unfold bad; by rewrite Hc).
    apply run_bind_inv in H as [(e1 & Hm & ->)|([] & w2 & Hm & _)].
    + eapply (for_stops_at _ line_label bad) in Hm;
        [exact Hm | intros; site | exact Hbody | exact Hkeep | exact Hk | exact Hline].
    + eapply (for_stops_at _ line_label bad) in Hm;
        [by destruct Hm as (? & ? & _) | intros; site | exact Hbody | exact Hkeep
        | exact Hk | exact Hline].
  - intros w k line s text Hk Hbad Htext.
    destruct (PodcastGeneratorApp.generate_all w) as [r w'] eqn:H.
    unfold PodcastGeneratorApp.generate_all in H. rewrite run_modify, run_gets in H.
    eapply (pass_stops_at _ _ _ (KeyError (JStr s)) k) in H; [| site | | done].
    { destruct H as (e' & -> & H). by exists e', w'. }
    clear H r w'. intros w1 r w' F H. rewrite run_gets in H.
    destruct F as (Hs & Hc & F). rewrite Hs in H.
    set (bad := λ (w : World) x,
           unmapped (config w) x s ∧ ∃ t, subscript x "text" = inr t).
    assert (∀ i x (w2 : World), bad w2 x →
      (text ← lift (subscript x "text");
       speaker ← lift (subscript x "speaker");
       voice_name ← podcaster_voice speaker;
       vd ← voice_data voice_name;
       vs ← gets (λ w, voice_settings (config w));
       audio ← generate_audio text (voice_id vd) vs;
       append_segment (line_label i, audio)) w2 = (inl (KeyError (JStr s)), w2))
      as Hbody.
    { intros i x w2 [[Hsp Hnone] [t Ht]]. rewrite run_bind, Ht. simpl.
      rewrite run_bind, Hsp. simpl.
      rewrite run_bind. unfold podcaster_voice. by rewrite Hnone. }
    assert (∀ (w w1 : World) x, same_session w w1 → bad w x → bad w1 x) as Hkeep.
    { intros ??? Hss [H1 H2]. split; [by eapply unmapped_keep | done]. }
    assert (bad w1 line) as Hline.
    { split; [by rewrite Hc | by exists text]. }
    apply run_bind_inv in H as [(e1 & Hm & ->)|([] & w2 & Hm & _)].
    + eapply (for_stops_at _ line_label bad) in Hm;
        [exact Hm | intros; site | exact Hbody | exact Hkeep | exact Hk | exact Hline].
    + eapply (for_stops_at _ line_label bad) in Hm;
        [by destruct Hm as (? & ? & _) | intros; site | exact Hbody | exact Hkeep
        | exact Hk | exact Hline].
Qed.

End UnmappedSpeaker.

(** C1, as the claim states it, fails: ["Sarah"] has no voice, and the pass
    calls the remote service for the line of ["Alex"] before it raises, with
    a [KeyError]. *)
Lemma validation_gate_counterexample :
  let w := demo_world partial_config [] [Some [1]; Some [2]] in
  (∃ line, script w !! 1%nat = Some line ∧ unmapped (config w) line "Sarah") ∧
  (App.generate_all w).1 = inl (KeyError (JStr "Sarah")) ∧
  tts_calls w = [] ∧
  tts_calls (App.generate_all w).2 =
    [{| req_text := JStr "Welcome."; req_voice_id := "v-adam";
        req_settings := demo_settings |}] ∧
  (audio_segments (App.generate_all w).2).*1 = ["Line 1"].
Proof.
  intros w. split; [|by vm_compute].
  eexists. split; [reflexivity|]. split; by vm_compute.
Qed.

Lemma generate_all_unmapped_speaker_witness :
  let w := demo_world partial_config [] [Some [1]; Some [2]] in
  ∃ e w', App.generate_all w = (inl e, w') ∧
    (length (audio_segments w') ≤ 1)%nat ∧
    (length (audio_segments w') = 1%nat →
     e = KeyError (JStr "Sarah") ∧ length (tts_calls w') = 1%nat).
Proof.
  intros w.
  apply (proj1 (@generate_all_unmapped_speaker sample_audio) w 1%nat
           (JDict [("speaker", JStr "Sarah"); ("text", JStr "Thanks, Alex.")])
           "Sarah"); [reflexivity|].
  split; by vm_compute.
Defined.

(** ** The final podcast *)

#[global] Instance sample_audio_laws : AudioLibLaws sample_audio.
Proof.
  split; simpl.
  - done.
  - intros a b. rewrite length_app. lia.
  - intros d Hd. rewrite length_replicate. lia.
Qed.

Section Finalize.
Context {AL : AudioLib} {Laws : AudioLibLaws AL}.

Lemma join_segments_len (segs : list (string * Audio)) (full : Audio) :
  audio_len (join_segments full segs) =
  audio_len full + total_duration segs + 500 * Z.of_nat (length segs).
Proof.
  revert full. induction segs as [|seg segs IH]; intros full; simpl.
  - lia.
  - change (audio_len (join_segments
              (audio_add (audio_add full seg.2) (audio_silent 500)) segs) =
            audio_len full + (audio_len seg.2 + total_duration segs) +
            500 * Z.of_nat (S (length segs))).
    rewrite IH, !audio_len_add, audio_len_silent by lia. lia.
Qed.

(** C3.  When the intro music, if there is one, can be decoded, the
    finalize step writes an audio whose duration is the sum of the durations
    of the segments, plus 500 ms for each segment (a silence follows every
    segment, the last one too), plus the duration of the intro music.  It
    leaves the segments as they are, and a finalize step on the same
    segments and the same music writes the same audio. *)
Theorem finalize_duration (next : Z) (w : World) :
  decoded_music w ≠ Some None →
  ∃ full w',
    finalize next w = (inr tt, w') ∧
    generated_podcast w' = Some full ∧
    audio_len full =
      total_duration (audio_segments w) +
      500 * Z.of_nat (length (audio_segments w)) + music_duration w ∧
    audio_segments w' = audio_segments w ∧
    ∀ w2, audio_segments w2 = audio_segments w →
      decoded_music w2 = decoded_music w →
      ∃ w2', finalize next w2 = (inr tt, w2') ∧ generated_podcast w2' = Some full.
Proof.
  assert (∀ w0 : World, decoded_music w0 ≠ Some None →
    ∃ w0', finalize next w0 = (inr tt, w0') ∧
      generated_podcast w0' =
        Some (join_segments
                match decoded_music w0 with
                | Some (Some intro) => audio_add audio_empty intro
                | _ => audio_empty
                end (audio_segments w0)) ∧
      audio_segments w0' = audio_segments w0) as Hrun.
  { intros w0 Hdec. unfold finalize, decoded_music in *. rewrite run_gets.
    destruct (intro_music (config w0)) as [f|]; simpl in *.
    - rewrite run_bind, run_modify.
      destruct (audio_from_mp3 f).1 as [intro|]; [|done].
      by eexists.
    - by eexists. }
  intros Hdec. destruct (Hrun w Hdec) as (w' & Hw & Hout & Hseg).
  eexists _, w'. split; [exact Hw|]. split; [exact Hout|].
  split; [|split; [exact Hseg|]].
  - rewrite join_segments_len. unfold music_duration.
    destruct (decoded_music w) as [[intro|]|]; [|done|];
      rewrite ?audio_len_add, audio_len_empty; lia.
  - intros w2 Hs2 Hd2. destruct (Hrun w2) as (w2' & Hw2 & Hout2 & _).
    { by rewrite Hd2. }
    exists w2'. split; [exact Hw2|]. by rewrite Hout2, Hd2, Hs2.
Qed.

End Finalize.

Lemma finalize_duration_witness :
  let w := demo_world demo_config [("Intro", [5; 5]); ("Line 1", [7; 7; 7])] [] in
  decoded_music w ≠ Some None ∧
  ∃ full w',
    App.step_6_finalize w = (inr tt, w') ∧
    generated_podcast w' = Some full ∧
    @audio_len sample_audio full = 5 + 500 * 2 + 3.
Proof.
  intros w. assert (decoded_music w ≠ Some None) as Hdec by (by vm_compute).
  split; [exact Hdec|].
  destruct (@finalize_duration sample_audio _ 7 w Hdec)
    as (full & w' & Hrun & Hout & Hlen & _).
  exists full, w'. split; [exact Hrun|]. split; [exact Hout|].
  rewrite Hlen. by vm_compute.
Defined.

(** The finalize step reads the uploaded file.  With a library that reads
    the file from its position, as [sample_audio] does, the file is at its
    end after the step, and a second step in the same session has nothing
    to decode. *)
Example finalize_again_sample :
  let w := demo_world demo_config [("Line 1", [7])] [] in
  (App.step_6_finalize w).1 = inr tt ∧
  decoded_music (App.step_6_finalize w).2 = Some None ∧
  (App.step_6_finalize (App.step_6_finalize w).2).1 = inl CouldntDecodeError.
Proof. by vm_compute. Qed.

(** ** The voice directory *)

Section Voices.
Context {AL : AudioLib}.

Lemma voices_fold (vs : list Voice) (d : gmap string VoiceData) (name : string) :
  foldl (λ (d : gmap string VoiceData) voice,
           <[v_name voice := voice_entry voice]> d) d vs !! name =
  match last (named name vs) with
  | Some v => Some (voice_entry v)
  | None => d !! name
  end.
Proof.
  revert d. induction vs as [|v vs IH]; intros d; simpl; [done|].
  rewrite IH. unfold named. rewrite filter_cons.
  destruct (decide (v_name v = name)) as [<-|Hne].
  - rewrite last_cons. destruct (last _); [done|]. by rewrite lookup_insert_eq.
  - destruct (last _); [done|]. by rewrite lookup_insert_ne.
Qed.

(** C9.  On status 200 the mapping has, under each name, the entry of the
    last voice of the response with that name, and nothing else; on any
    other status the mapping is empty and the error is shown. *)
Theorem voices_last_one_wins (response : Response) (w : World) :
  (status_code response = 200 →
   ∃ d, get_available_voices response w = (inr d, w) ∧
     ∀ name, d !! name = voice_entry <$> last (named name (voices response))) ∧
  (status_code response ≠ 200 →
   get_available_voices response w =
     (inr ∅, add_message (StError ("Failed to fetch voices: " +:+
                                    PyStr.of_Z (status_code response))) w)).
Proof.
  unfold get_available_voices. split; intros Hs.
  - rewrite Hs. simpl. eexists. split; [reflexivity|]. intros name.
    rewrite (voices_fold (voices response) ∅ name), lookup_empty.
    by destruct (last _).
  - apply Z.eqb_neq in Hs. by rewrite Hs.
Qed.

End Voices.

Lemma voices_last_one_wins_witness :
  let w := demo_world demo_config [] [] in
  ∃ d, get_available_voices demo_response w = (inr d, w) ∧
    d !! "Adam" = Some {| voice_id := "id-3"; samples := [] |} ∧
    d !! "Carl" = None ∧
    (get_available_voices {| status_code := 401; voices := [] |} w).1 = inr ∅.
Proof.
  intros w.
  destruct (proj1 (@voices_last_one_wins sample_audio demo_response w) eq_refl)
    as (d & Hrun & Hd).
  exists d. split; [exact Hrun|]. rewrite !Hd. split; [by vm_compute|].
  split; [by vm_compute|].
  by rewrite (proj2 (@voices_last_one_wins sample_audio
                       {| status_code := 401; voices := [] |} w)).
Defined.

(** ** Regenerating one segment *)

Section Regenerate.
Context {AL : AudioLib}.

Lemma same_content_refl w : same_content w w.
Proof. by repeat split. Qed.

(** A read in front: it raises and nothing has happened, or it returns. *)
Lemma read_then {A B : Type} (m : M A) (k : A → M B) w r w' :
  reads m → (m ≫= k) w = (r, w') →
  (∃ e, r = inl e ∧ w' = w) ∨ (∃ x, m w = (inr x, w) ∧ k x w = (r, w')).
Proof.
  intros Hm H. rewrite run_bind in H. destruct (Hm w) as (r0 & Hr0 & _).
  rewrite Hr0 in H. destruct r0 as [e|x].
  - left. exists e. by inversion H.
  - right. by exists x.
Qed.

(** The call of the remote service, then an update [upd] of the session. *)
Lemma synthesis_then (text : json) vid vs (upd : M unit) w r w' :
  (a ← generate_audio text vid vs; upd ;; mret a) w = (r, w') →
  (∃ e, r = inl e ∧ same_content w w') ∨
  (∃ a rest w1 ru,
     tts_pending w = Some a :: rest ∧ same_content w w1 ∧
     upd w1 = (ru, w') ∧
     r = match ru with inl e => inl e | inr _ => inr a end).
Proof.
  rewrite run_bind. unfold generate_audio.
  destruct (tts_pending w) as [|[a|] rest] eqn:Hp; intros H.
  - left. inversion H; subst. eexists. split; [done|]. by repeat split.
  - right. rewrite run_bind in H.
    destruct (upd _) as [ru wu] eqn:Hu.
    assert (wu = w' ∧ r = match ru with inl e => inl e | inr _ => inr a end)
      as [-> ->] by (destruct ru as [e|[]]; by inversion H).
    exists a, rest. eexists _, ru.
    split; [done|]. split; [|split; [exact Hu | done]]. by repeat split.
  - left. inversion H; subst. eexists. split; [done|]. by repeat split.
Qed.

Lemma set_segment_ok i seg w :
  (i < length (audio_segments w))%nat →
  set_segment i seg w = (inr tt, set_audio_segments (<[i := seg]> (audio_segments w)) w).
Proof. intros Hi. unfold set_segment. by rewrite decide_True. Qed.

(** The branches of the intro and of the outro. *)
Lemma regenerate_fixed_text (voice : Config → option string)
    (set_text : string → Config → Config) i label new_text w r w' :
  (i < length (audio_segments w))%nat →
  (new_audio ←
     (name ← gets (λ w, voice (config w));
      vd ← voice_data name;
      vs ← gets (λ w, voice_settings (config w));
      a ← generate_audio (JStr new_text) (voice_id vd) vs;
      modify (λ w, set_config (set_text new_text (config w)) w) ;;
      mret a);
   set_segment i (label, new_audio)) w = (r, w') →
  match r with
  | inl _ => same_content w w'
  | inr _ =>
      ∃ a rest, tts_pending w = Some a :: rest ∧
        audio_segments w' = <[i := (label, a)]> (audio_segments w) ∧
        (config w' = set_text new_text (config w) ∧ script w' = script w) ∧
        same_rest w w'
  end.
Proof.
  intros Hi H.
  apply run_bind_inv in H as [(e & H & ->)|(a & w2 & H & Hset)].
  - rewrite run_gets in H.
    apply read_then in H as [(e' & [= <-] & ->)|(vd & _ & H)]; auto with reads.
    { apply same_content_refl. }
    rewrite run_gets in H.
    apply synthesis_then in H as [(e' & [= <-] & Hsame)|(a & rest & w1 & ru & _ & _ & Hu & Hr)];
      [done|].
    by inversion Hu; subst.
  - rewrite run_gets in H.
    apply read_then in H as [(e' & [=] & _)|(vd & _ & H)]; auto with reads.
    rewrite run_gets in H.
    apply synthesis_then in H as [(e' & [=] & _)|(a' & rest & w1 & ru & Hp & Hsame & Hu & Hr)].
    inversion Hu; subst. injection Hr as <-.
    destruct Hsame as (Hs & Hc & Hseg & Hv & Hst & Hk & Hg & Hm).
    rewrite set_segment_ok in Hset by (simpl; by rewrite Hseg).
    injection Hset as <- <-. simpl.
    exists a, rest. rewrite Hseg, Hc. by repeat split.
Qed.

Lemma subscript_dict line k v :
  subscript line k = inr v → ∃ d, line = JDict d.
Proof. destruct line; try done. by eexists. Qed.

(** The branch of a line. *)
Lemma regenerate_line_text i label new_text w r w' :
  (i < length (audio_segments w))%nat →
  (new_audio ←
     (idx ← line_index label;
      line ← script_line idx;
      speaker ← lift (subscript line "speaker");
      voice_name ← podcaster_voice speaker;
      vd ← voice_data voice_name;
      vs ← gets (λ w, voice_settings (config w));
      a ← generate_audio (JStr new_text) (voice_id vd) vs;
      set_line_text idx new_text ;;
      mret a);
   set_segment i (label, new_audio)) w = (r, w') →
  match r with
  | inl _ => same_content w w'
  | inr _ =>
      ∃ a rest, tts_pending w = Some a :: rest ∧
        audio_segments w' = <[i := (label, a)]> (audio_segments w) ∧
        (config w' = config w ∧
         ∃ idx p d,
           line_index label w = (inr idx, w) ∧
           PyList.position (length (script w)) idx = Some p ∧
           script w !! p = Some (JDict d) ∧
           script w' = <[p := JDict (PyDict.set d "text" (JStr new_text))]> (script w)) ∧
        same_rest w w'
  end.
Proof.
  intros Hi H.
  assert (∀ idx line sp (w1 : World),
    script_line idx w = (inr line, w) → subscript line "speaker" = inr sp →
    same_content w w1 →
    ∃ p d, PyList.position (length (script w)) idx = Some p ∧
      script w !! p = Some (JDict d) ∧
      set_line_text idx new_text w1 =
        (inr tt, set_script (<[p := JDict (PyDict.set d "text" (JStr new_text))]>
                               (script w)) w1)) as Hline.
  { intros idx line sp w1 Hl Hsp (Hs & _). unfold script_line in Hl.
    destruct (PyList.position _ idx) as [p|] eqn:Hp; simpl in Hl; [|done].
    destruct (script w !! p) as [line'|] eqn:Hlk; [|done].
    injection Hl as ->. destruct (subscript_dict _ _ _ Hsp) as [d ->].
    exists p, d. split; [done|]. split; [done|].
    unfold set_line_text. by rewrite Hs, Hp, Hlk. }
  apply run_bind_inv in H as [(e & H & ->)|(a & w2 & H & Hset)].
  - apply read_then in H as [(e' & [= <-] & ->)|(idx & _ & H)]; auto with reads.
    { apply same_content_refl. }
    apply read_then in H as [(e' & [= <-] & ->)|(line & Hl & H)]; auto with reads.
    { apply same_content_refl. }
    apply read_then in H as [(e' & [= <-] & ->)|(sp & Hsp & H)]; auto with reads.
    { apply same_content_refl. }
    apply read_then in H as [(e' & [= <-] & ->)|(vn & _ & H)]; auto with reads.
    { apply same_content_refl. }
    apply read_then in H as [(e' & [= <-] & ->)|(vd & _ & H)]; auto with reads.
    { apply same_content_refl. }
    rewrite run_gets in H.
    apply synthesis_then in H as [(e' & [= <-] & Hsame)|(a & rest & w1 & ru & _ & Hsame & Hu & Hr)];
      [done|].
    destruct (subscript line "speaker") as [|sp'] eqn:Hsp'; [done|].
    destruct (Hline idx line sp' w1 Hl Hsp' Hsame) as (p & d & _ & _ & Hok).
    rewrite Hok in Hu. by inversion Hu; subst.
  - apply read_then in H as [(e' & [=] & _)|(idx & Hidx & H)]; auto with reads.
    apply read_then in H as [(e' & [=] & _)|(line & Hl & H)]; auto with reads.
    apply read_then in H as [(e' & [=] & _)|(sp & Hsp & H)]; auto with reads.
    apply read_then in H as [(e' & [=] & _)|(vn & _ & H)]; auto with reads.
    apply read_then in H as [(e' & [=] & _)|(vd & _ & H)]; auto with reads.
    rewrite run_gets in H.
    apply synthesis_then in H as [(e' & [=] & _)|(a' & rest & w1 & ru & Hp & Hsame & Hu & Hr)].
    destruct (subscript line "speaker") as [|sp'] eqn:Hsp'; [done|].
    destruct (Hline idx line sp' w1 Hl Hsp' Hsame) as (p & d & Hpos & Hlk & Hok).
    rewrite Hok in Hu. inversion Hu; subst. injection Hr as <-.
    destruct Hsame as (Hs & Hc & Hseg & Hv & Hst & Hk & Hg & Hm).
    rewrite set_segment_ok in Hset by (simpl; by rewrite Hseg).
    injection Hset as <- <-. simpl.
    exists a, rest. rewrite Hseg. split; [done|]. split; [done|].
    split; [|by repeat split]. split; [done|]. by exists idx, p, d.
Qed.

Lemma app_regenerate_outcome i label new_text w r w' :
  (i < length (audio_segments w))%nat →
  App.regenerate i label new_text w = (r, w') →
  regenerated i label new_text w r w'.
Proof.
  intros Hi H. unfold App.regenerate in H. unfold regenerated, source_updated.
  destruct (String.eqb label "Intro").
  { by apply (regenerate_fixed_text intro_voice set_intro_text) in H. }
  destruct (String.eqb label "Outro").
  { by apply (regenerate_fixed_text outro_voice set_outro_text) in H. }
  by apply regenerate_line_text in H.
Qed.

Lemma pga_regenerate_outcome i label new_text w r w' :
  (i < length (audio_segments w))%nat →
  PodcastGeneratorApp.regenerate i label new_text w = (r, w') →
  regenerated i label new_text w r w'.
Proof.
  intros Hi H. unfold PodcastGeneratorApp.regenerate in H.
  unfold regenerated, source_updated.
  destruct (String.eqb label "Intro") eqn:HI.
  { by apply (regenerate_fixed_text intro_voice set_intro_text) in H. }
  apply regenerate_line_text in H; [|done].
  destruct (String.eqb label "Outro") eqn:HO; [|done].
  apply String.eqb_eq in HO as ->. destruct r as [e|[]]; [done|].
  by destruct H as (_ & _ & _ & _ & (_ & ? & ? & ? & ? & _) & _).
Qed.

End Regenerate.

Section RegenerateClaims.
Context {AL : AudioLib}.

Lemma line_index_line_label (j : nat) (w : World) :
  line_index (line_label j) w = (inr (Z.of_nat j), w).
Proof.
  unfold line_index. rewrite split_line_label. simpl.
  rewrite int_of_nat. unfold mret, M_ret. do 2 f_equal. lia.
Qed.

(** C4.  In both applications, a regeneration of segment [i] that succeeds
    replaces the audio of segment [i] by the answer of the remote service
    and updates the source text of its label (the intro or outro text, or
    the field ['text'] of the line that the label addresses: line [j] for
    the label of line [j]); the list keeps its length, every label stays
    where it is, every other segment is as before, and nothing else of the
    session changes. *)
Theorem regenerate_isolation (regenerate : nat → string → string → M unit) :
  regenerate = App.regenerate ∨ regenerate = PodcastGeneratorApp.regenerate →
  ∀ i label old new_text w w',
    audio_segments w !! i = Some (label, old) →
    regenerate i label new_text w = (inr tt, w') →
    (∃ a rest, tts_pending w = Some a :: rest ∧
       audio_segments w' !! i = Some (label, a)) ∧
    length (audio_segments w') = length (audio_segments w) ∧
    (audio_segments w').*1 = (audio_segments w).*1 ∧
    (∀ j, j ≠ i → audio_segments w' !! j = audio_segments w !! j) ∧
    source_updated label new_text w w' ∧
    (∀ j, label = line_label j → (j < length (script w))%nat →
       config w' = config w ∧
       ∃ d, script w !! j = Some (JDict d) ∧
         script w' = <[j := JDict (PyDict.set d "text" (JStr new_text))]> (script w)) ∧
    same_rest w w'.
Proof.
  intros Hwhich i label old new_text w w' Hi H.
  pose proof (lookup_lt_Some _ _ _ Hi) as Hlt.
  assert (regenerated i label new_text w (inr tt) w') as Hspec.
  { destruct Hwhich as [-> | ->];
      [by apply app_regenerate_outcome | by apply pga_regenerate_outcome]. }
  destruct Hspec as (a & rest & Hp & Hseg & Hsrc & Hrest).
  split; [|split; [|split; [|split; [|split; [done|split; [|done]]]]]].
  - exists a, rest. split; [done|]. rewrite Hseg. by apply list_lookup_insert_eq.
  - by rewrite Hseg, length_insert.
  - rewrite Hseg, list_fmap_insert. simpl. apply list_insert_id.
    by rewrite list_lookup_fmap, Hi.
  - intros j Hj. rewrite Hseg. by apply list_lookup_insert_ne.
  - intros j -> Hj. unfold source_updated in Hsrc.
    destruct (line_label_not_intro j) as [HI HO]. rewrite HI, HO in Hsrc.
    destruct Hsrc as (Hc & idx & p & d & Hidx & Hpos & Hlk & Hs).
    rewrite line_index_line_label in Hidx. injection Hidx as <-.
    rewrite position_nat in Hpos by done. injection Hpos as <-.
    split; [done|]. by exists d.
Qed.

(** C5.  In both applications, a regeneration of segment [i] does not
    succeed when the synthesis call does not, and a regeneration that
    raises leaves the audio of the segment and its source text, with all of
    the script, the configuration and the segments, as they were: only the
    record of the calls has changed. *)
Theorem regenerate_failure_unchanged (regenerate : nat → string → string → M unit) :
  regenerate = App.regenerate ∨ regenerate = PodcastGeneratorApp.regenerate →
  ∀ i label old new_text w r w',
    audio_segments w !! i = Some (label, old) →
    regenerate i label new_text w = (r, w') →
    failing (tts_pending w) ∨ (∃ e, r = inl e) →
    (∃ e, r = inl e) ∧
    audio_segments w' = audio_segments w ∧
    script w' = script w ∧ config w' = config w ∧
    same_content w w'.
Proof.
  intros Hwhich i label old new_text w r w' Hi H Hfail.
  pose proof (lookup_lt_Some _ _ _ Hi) as Hlt.
  assert (regenerated i label new_text w r w') as Hspec.
  { destruct Hwhich as [-> | ->];
      [by apply app_regenerate_outcome | by apply pga_regenerate_outcome]. }
  destruct r as [e|[]].
  - split; [by exists e|]. pose proof Hspec as (Hs & Hc & Hseg & _). done.
  - destruct Hspec as (a & rest & Hp & _). destruct Hfail as [Hf|[e [=]]].
    by destruct (Hf a rest).
Qed.

End RegenerateClaims.

Lemma regenerate_isolation_witness :
  let w := demo_world demo_config
             [("Intro", [1]); ("Line 1", [2]); ("Line 2", [3]); ("Outro", [4])]
             [Some [9; 9]] in
  let w' := (App.regenerate 2 "Line 2" "Thank you." w).2 in
  (App.regenerate 2 "Line 2" "Thank you." w).1 = inr tt ∧
  audio_segments w' !! 2%nat = Some ("Line 2", [9; 9]) ∧
  (audio_segments w').*1 = ["Intro"; "Line 1"; "Line 2"; "Outro"] ∧
  script w' =
    [ JDict [("speaker", JStr "Alex"); ("text", JStr "Welcome.")];
      JDict [("speaker", JStr "Sarah"); ("text", JStr "Thank you.")] ].
Proof.
  intros w w'. split; [by vm_compute|].
  destruct (@regenerate_isolation sample_audio App.regenerate (or_introl eq_refl)
              2%nat "Line 2" [3] "Thank you." w w')
    as (_ & _ & Hl & _ & _ & Hline & _).
  { reflexivity. } { by vm_compute. }
  split; [by vm_compute|]. split; [by rewrite Hl|].
  destruct (Hline 1%nat) as (_ & d & Hd & ->); [by vm_compute | simpl; lia |].
  injection Hd as <-. by vm_compute.
Defined.

Lemma regenerate_failure_unchanged_witness :
  let w := demo_world demo_config
             [("Intro", [1]); ("Line 1", [2]); ("Line 2", [3]); ("Outro", [4])]
             [None] in
  let w' := (App.regenerate 1 "Line 1" "Welcome back." w).2 in
  (App.regenerate 1 "Line 1" "Welcome back." w).1 = inl SynthesisError ∧
  audio_segments w' = audio_segments w ∧ script w' = script w.
Proof.
  intros w w'. split; [by vm_compute|].
  destruct (@regenerate_failure_unchanged sample_audio App.regenerate
              (or_introl eq_refl) 1%nat "Line 1" [2] "Welcome back." w
              (inl SynthesisError) w') as (_ & Hseg & Hs & _).
  - reflexivity.
  - by vm_compute.
  - left. by intros ??.
  - by split.
Defined.

(** ** A run of [step_5] *)

Section Step5.
Context {AL : AudioLib}.

(** The loop reaches item [k] when the items before it leave the world as
    it is, and stops there when the body of item [k] does not return. *)
Lemma for_enumerate_reach {A : Type} (body : nat → A → M unit) (l : list A) :
  ∀ k x start w,
    l !! k = Some x →
    (∀ j y, (j < k)%nat → l !! j = Some y → body (start + j)%nat y w = (inr tt, w)) →
    (∀ u w', body (start + k)%nat x w ≠ (inr u, w')) →
    for_enumerate start l body w = body (start + k)%nat x w.
Proof.
  induction l as [|y l IH]; intros k x start w Hk Hbefore Hstop; [by destruct k|].
  simpl. rewrite run_bind. destruct k as [|k]; simpl in Hk.
  - injection Hk as ->. rewrite Nat.add_0_r in *.
    destruct (body start x w) as [[e|u] w'] eqn:Hb; [done|].
    by destruct (Hstop u w').
  - rewrite <- (Nat.add_0_r start) at 1. rewrite (Hbefore 0%nat y); [|lia|done].
    rewrite (IH k x (S start) w Hk).
    + f_equal. lia.
    + intros j z Hj Hz. replace (S start + j)%nat with (start + S j)%nat by lia.
      apply Hbefore; [lia | done].
    + intros u w'. replace (S start + k)%nat with (start + S k)%nat by lia.
      apply Hstop.
Qed.

(** A run of [step_5] after a click on "Generate All Audio" ends where the
    handler raises. *)
Lemma step_5_generate_all_raises w e w' :
  App.generate_all w = (inl e, w') →
  App.step_5 App.GenerateAll w = (inl e, w').
Proof. intros H. unfold App.step_5. simpl. by rewrite run_bind, H. Qed.

(** A run of [step_5] after a click on the button of segment [i], when the
    segments up to [i] can be shown: the handler runs on segment [i] and
    its label, and the run ends with the rerun, or where the handler
    raises. *)
Lemma step_5_regenerate i label old new_text w :
  audio_segments w !! i = Some (label, old) →
  (∀ j seg, (j ≤ i)%nat → audio_segments w !! j = Some seg →
     App.show_segment seg.1 w = (inr tt, w)) →
  App.step_5 (App.Regenerate i new_text) w =
  match App.regenerate i label new_text w with
  | (inr _, w') => (inl RerunException, w')
  | (inl e, w') => (inl e, w')
  end.
Proof.
  intros Hi Hshow.
  assert (App.show_segment label w = (inr tt, w)) as Hs by (by apply (Hshow i (label, old))).
  assert (∀ u w',
    (App.show_segment label ;;
     match App.regenerate_clicked (App.Regenerate i new_text) i with
     | Some t => App.regenerate i label t ;; raise RerunException
     | None => mret tt
     end) w ≠ (inr u, w')) as Hstop.
  { intros u w'. rewrite run_bind, Hs. simpl.
    rewrite decide_True by done. rewrite run_bind.
    by destruct (App.regenerate i label new_text w) as [[e|[]] w'']. }
  unfold App.step_5. simpl when. rewrite run_bind. simpl.
  rewrite run_gets, run_bind.
  rewrite (for_enumerate_reach _ _ i (label, old) 0%nat w Hi).
  - simpl. rewrite run_bind, Hs. simpl.
    rewrite decide_True by done. rewrite run_bind.
    by destruct (App.regenerate i label new_text w) as [[e|[]] w'].
  - intros j seg Hj Hseg. simpl. rewrite run_bind, (Hshow j seg) by (done || lia).
    simpl. by rewrite decide_False by lia.
  - exact Hstop.
Qed.

End Step5.

(** Runs of the steps on the worlds above. *)
Example step_5_regenerate_run :
  let w := demo_world demo_config
             [("Intro", [1]); ("Line 1", [2]); ("Line 2", [3]); ("Outro", [4])]
             [Some [9; 9]] in
  App.step_5 (App.Regenerate 2 "Thank you.") w =
  (inl RerunException, (App.regenerate 2 "Line 2" "Thank you." w).2).
Proof. by vm_compute. Qed.

Example step_5_generate_all_run :
  let w := demo_world demo_config [] [Some [1]; Some [2]; Some [3]; Some [4]] in
  App.step_5 App.GenerateAll w = App.generate_all w.
Proof. by vm_compute. Qed.

Example step_2_run :
  let w := demo_world demo_config [] [] in
  script (App.step_2 "[]" App.LoadScript None w).2 = [] ∧
  script (App.step_2 "[" App.LoadScript None w).2 = demo_script ∧
  script (App.step_2 "" App.NoClick (Some "[1]") w).2 = demo_script.
Proof. by vm_compute. Qed.

Example step_1_submit_run :
  let w := demo_world demo_config [] [] in
  current_step (App.step_1_submit "sk" demo_response w).2 = 2 ∧
  available_voices (App.step_1_submit "sk" demo_response w).2 !! "Adam" =
    Some {| voice_id := "id-3"; samples := [] |}.
Proof. by vm_compute. Qed.

(** ** The script loader *)

Section Loader.
Context {AL : AudioLib}.

Lemma valid_item_spec item : valid_item item = true ↔ has_both_keys item.
Proof.
  unfold valid_item, has_both_keys, PyDict.has. split.
  - destruct item as [| | | | |d]; try done.
    destruct (PyDict.get d "speaker") as [sp|] eqn:Hs; [|done].
    destruct (PyDict.get d "text") as [tx|] eqn:Ht; [|done].
    intros _. by exists d, sp, tx.
  - intros (d & sp & tx & -> & -> & ->). done.
Qed.

Lemma valid_script_spec data :
  valid_script data = true ↔ ∃ items, data = JList items ∧ Forall has_both_keys items.
Proof.
  unfold valid_script. split.
  - destruct data as [| | | |items|]; try done. intros H. exists items. split; [done|].
    apply Forall_forall. intros item Hin. apply valid_item_spec.
    rewrite forallb_forall in H. apply H. by apply list_elem_of_In.
  - intros (items & -> & H). apply forallb_forall. intros item Hin.
    apply valid_item_spec. rewrite Forall_forall in H. apply H.
    by apply list_elem_of_In.
Qed.

(** A list of objects with the two keys is accepted. *)
Lemma load_script_valid (next : Z) (ok bad_format bad_json text : string)
    (w : World) items :
  Json.loads text = inr (JList items) → Forall has_both_keys items →
  load_script next ok bad_format bad_json text w =
    (inr tt, accepted next ok items w).
Proof.
  intros Hl Hv. unfold load_script. rewrite Hl.
  replace (valid_script (JList items)) with true; [done|].
  symmetry. apply valid_script_spec. by exists items.
Qed.

End Loader.

(** ** [json.loads] after [json.dumps] *)

Section JsonText.

Lemma length_string_app (a b : string) :
  String.length (a +:+ b) = (String.length a + String.length b)%nat.
Proof. induction a as [|c a IH]; simpl; [done | by rewrite IH]. Qed.

Lemma skip_ws_spaces n s : Json.skip_ws (Json.spaces n +:+ s) = Json.skip_ws s.
Proof. induction n as [|n IH]; simpl; [done | exact IH]. Qed.

Lemma skip_ws_newline_indent level s :
  Json.skip_ws (Json.newline_indent level +:+ s) = Json.skip_ws s.
Proof. unfold Json.newline_indent. simpl. apply skip_ws_spaces. Qed.

Lemma skip_ws_start c s : Json.is_ws c = false → Json.skip_ws (String c s) = String c s.
Proof. intros H. simpl. by rewrite H. Qed.

(** *** Strings *)

Lemma scanstring_escape_char c tail :
  Json.scanstring (Json.escape_char c +:+ tail) =
  Json.cons_char c (Json.scanstring tail).
Proof. destruct c as [[] [] [] [] [] [] [] []]; reflexivity. Qed.

Lemma scanstring_escape s rest :
  Json.scanstring (Json.escape s +:+ String Json.dquote rest) = inr (s, rest).
Proof.
  induction s as [|c s IH]; [done|].
  change (Json.escape (String c s)) with (Json.escape_char c +:+ Json.escape s).
  by rewrite string_app_assoc, scanstring_escape_char, IH.
Qed.

Lemma encode_string_app s rest :
  Json.encode_string s +:+ rest =
  String Json.dquote (Json.escape s +:+ String Json.dquote rest).
Proof. unfold Json.encode_string. simpl. by rewrite string_app_assoc. Qed.

End JsonText.

Section JsonRoundTrip.

#[local] Arguments PyStr.isdigit : simpl never.
#[local] Arguments Json.is_ws : simpl never.
#[local] Arguments Json.newline_indent : simpl never.
#[local] Arguments Json.encode : simpl never.
#[local] Arguments Json.skip_ws : simpl never.

(** *** Numbers *)

Lemma span_digits_app ds rest :
  all_chars PyStr.isdigit ds = true → Json.starts_with_digit rest = false →
  Json.span_digits (ds +:+ rest) = (ds, rest).
Proof.
  intros Hd Hr. induction ds as [|c ds IH]; simpl in *.
  - destruct rest as [|c r]; [done|]. simpl in *. by rewrite Hr.
  - apply andb_prop in Hd as [Hc Hd]. by rewrite Hc, IH.
Qed.

Lemma scan_once_leading_digit fuel c r :
  PyStr.isdigit c = true →
  Json.scan_once (S fuel) (String c r) =
  match Json.match_number (String c r) with
  | Some res => res
  | None => inl JSONDecodeError
  end.
Proof.
  destruct c as [[] [] [] [] [] [] [] []]; try discriminate; intros _; reflexivity.
Qed.

Lemma match_number_digits c ds rest :
  leading_digit c → all_chars PyStr.isdigit ds = true → number_ends rest →
  Json.match_number (String c (ds +:+ rest)) =
  Some (inr (JInt (Json.int_value false (String c ds)), rest)).
Proof.
  intros [Hc H0] Hds [Hr Hf]. unfold Json.match_number.
  replace (Json.after "-" (String c (ds +:+ rest))) with (@None string).
  2:{ simpl. by destruct (isdigit_not_sign _ Hc) as (-> & _). }
  by rewrite H0, Hc, span_digits_app, Hf.
Qed.

Lemma uint_head (p : positive) :
  ∃ c ds, NilEmpty.string_of_uint (Pos.to_uint p) = String c ds ∧
    leading_digit c ∧ all_chars PyStr.isdigit ds = true.
Proof.
  pose proof (DecimalPos.Unsigned.to_of (Pos.to_uint p)) as Hn.
  rewrite DecimalPos.Unsigned.of_to in Hn. simpl in Hn.
  pose proof (DecimalPos.Unsigned.to_uint_nonzero p) as Hz.
  pose proof (digits_string_of_uint (Pos.to_uint p)) as Hd.
  set (d := Pos.to_uint p) in *.
  assert (nzhead d = d) as Hh.
  { assert (unorm d = nzhead d) as Hu; [|congruence].
    apply unorm_nzhead. intros H0. apply unorm_0 in H0. congruence. }
  pose proof (nzhead_nonzero d) as Hnz. rewrite Hh in Hnz.
  destruct d; simpl in *; try (by destruct (Hnz d));
    try (eexists _, _; split; [reflexivity|]; split; [by split | done]).
  discriminate Hn.
Qed.

Lemma int_value_uint neg (d : uint) :
  Json.int_value neg (NilEmpty.string_of_uint d) =
  if neg then - Z.of_uint d else Z.of_uint d.
Proof. unfold Json.int_value. by rewrite NilEmpty.usu. Qed.

Lemma of_uint_pos (p : positive) : Z.of_uint (Pos.to_uint p) = Z.pos p.
Proof. unfold Z.of_uint. by rewrite DecimalPos.Unsigned.of_to. Qed.

Lemma scan_once_int fuel n rest :
  number_ends rest →
  Json.scan_once (S fuel) (PyStr.of_Z n +:+ rest) = inr (JInt n, rest).
Proof.
  intros Hrest. unfold PyStr.of_Z. destruct n as [|p|p]; simpl Z.to_int.
  - destruct Hrest as [_ Hf]. cbn. unfold Json.scan_atom. cbn.
    unfold Json.match_number. cbn. by rewrite Hf.
  - destruct (uint_head p) as (c & ds & Hs & Hc & Hds).
    pose proof (int_value_uint false (Pos.to_uint p)) as Hv.
    simpl NilEmpty.string_of_int. rewrite Hs in *.
    change (String c ds +:+ rest) with (String c (ds +:+ rest)).
    rewrite scan_once_leading_digit by apply Hc.
    rewrite match_number_digits by done. by rewrite Hv, of_uint_pos.
  - destruct (uint_head p) as (c & ds & Hs & Hc & Hds).
    pose proof (int_value_uint true (Pos.to_uint p)) as Hv.
    simpl NilEmpty.string_of_int. rewrite Hs in *.
    change (String "-" (String c ds) +:+ rest) with
      (String "-" (String c (ds +:+ rest))).
    cbn. unfold Json.scan_atom. cbn. unfold Json.match_number. cbn.
    destruct Hc as [Hc H0]. destruct Hrest as [Hr Hf].
    rewrite H0, Hc, span_digits_app, Hf by done.
    by rewrite Hv, of_uint_pos.
Qed.

(** *** Lists and dictionaries *)

Lemma encode_list_cons level x xs :
  Json.encode level (JList (x :: xs)) =
  "[" +:+ Json.newline_indent (S level) +:+ Json.encode (S level) x +:+
  encode_items level xs +:+ Json.newline_indent level +:+ "]".
Proof. reflexivity. Qed.

Lemma encode_dict_cons level k x xs :
  Json.encode level (JDict ((k, x) :: xs)) =
  "{" +:+ Json.newline_indent (S level) +:+
  Json.encode_string k +:+ ": " +:+ Json.encode (S level) x +:+
  encode_fields level xs +:+ Json.newline_indent level +:+ "}".
Proof. reflexivity. Qed.

Lemma digit_value_start c : PyStr.isdigit c = true → value_start c.
Proof. destruct c as [[] [] [] [] [] [] [] []]; try discriminate; by intros _. Qed.

Lemma encode_head level v :
  ∃ c s, Json.encode level v = String c s ∧ value_start c.
Proof.
  destruct v as [|[]|n|s|[|x xs]|[|[k x] xs]]; try (by eexists _, _).
  unfold Json.encode, PyStr.of_Z. destruct n as [|p|p]; try (by eexists _, _).
  destruct (uint_head p) as (c & ds & Hs & [Hc _] & _). simpl. rewrite Hs.
  eexists _, _. split; [done|]. by apply digit_value_start.
Qed.

Lemma skip_ws_encode level v rest :
  Json.skip_ws (Json.encode level v +:+ rest) = Json.encode level v +:+ rest.
Proof.
  destruct (encode_head level v) as (c & s & -> & Hc & _).
  by apply skip_ws_start.
Qed.

Lemma after_encode level v rest c :
  (c = "]"%char ∨ c = "}"%char) →
  Json.after c (Json.encode level v +:+ rest) = None.
Proof.
  destruct (encode_head level v) as (c' & s & -> & _ & H1 & H2).
  intros [-> | ->]; simpl; by rewrite ?H1, ?H2.
Qed.

Lemma number_ends_tail_items level xs rest :
  number_ends (encode_items level xs +:+ Json.newline_indent level +:+ rest).
Proof. by destruct xs. Qed.

Lemma number_ends_tail_fields level xs rest :
  number_ends (encode_fields level xs +:+ Json.newline_indent level +:+ rest).
Proof. by destruct xs as [|[]]. Qed.

Lemma array_items_S fuel s :
  Json.array_items (S fuel) s =
  match Json.scan_once fuel s with
  | inl e => inl e
  | inr (value, rest) =>
      match Json.after "]" (Json.skip_ws rest) with
      | Some rest' => inr ([value], rest')
      | None =>
          match Json.after "," (Json.skip_ws rest) with
          | Some rest' =>
              match Json.array_items fuel (Json.skip_ws rest') with
              | inr (values, rest'') => inr (value :: values, rest'')
              | inl e => inl e
              end
          | None => inl JSONDecodeError
          end
      end
  end.
Proof. reflexivity. Qed.

Lemma array_items_parse level xs : ∀ x rest fuel,
  Forall parses (x :: xs) → items_wf (x :: xs) →
  (items_cost (x :: xs) ≤ fuel)%nat →
  Json.array_items fuel
    (Json.encode (S level) x +:+ encode_items level xs +:+
     Json.newline_indent level +:+ String "]" rest) =
  inr (x :: xs, rest).
Proof.
  induction xs as [|y xs IH]; intros x rest fuel Hp [Hwx Hw] Hfuel;
    apply Forall_cons in Hp as [Hx Hp];
    (destruct fuel as [|fuel]; [simpl in Hfuel; lia|]);
    rewrite array_items_S.
  - rewrite Hx; [|done|simpl in Hfuel; lia|apply (number_ends_tail_items level [])].
    change (encode_items level []) with "". change ("" +:+ ?s) with s.
    by rewrite skip_ws_newline_indent.
  - rewrite Hx; [|done|simpl in Hfuel; lia|apply number_ends_tail_items].
    change (encode_items level (y :: xs)) with
      ("," +:+ Json.newline_indent (S level) +:+ Json.encode (S level) y +:+
       encode_items level xs).
    rewrite !string_app_assoc.
    change ("," +:+ ?s) with (String "," s).
    rewrite skip_ws_start by done.
    change (Json.after "]" (String "," ?s)) with (@None string).
    change (Json.after "," (String "," ?s)) with (Some s).
    cbv beta iota. rewrite skip_ws_newline_indent, skip_ws_encode.
    rewrite IH; [done|done|done|simpl in Hfuel |- *; lia].
Qed.

Lemma object_pairs_S fuel s :
  Json.object_pairs (S fuel) s =
  match Json.after Json.dquote s with
  | None => inl JSONDecodeError
  | Some r =>
      match Json.scanstring r with
      | inl e => inl e
      | inr (key, rest) =>
          match Json.after ":" (Json.skip_ws rest) with
          | None => inl JSONDecodeError
          | Some rest1 =>
              match Json.scan_once fuel (Json.skip_ws rest1) with
              | inl e => inl e
              | inr (value, rest2) =>
                  match Json.after "}" (Json.skip_ws rest2) with
                  | Some rest3 => inr ([(key, value)], rest3)
                  | None =>
                      match Json.after "," (Json.skip_ws rest2) with
                      | Some rest3 =>
                          match Json.object_pairs fuel (Json.skip_ws rest3) with
                          | inr (pairs, rest4) => inr ((key, value) :: pairs, rest4)
                          | inl e => inl e
                          end
                      | None => inl JSONDecodeError
                      end
                  end
              end
          end
      end
  end.
Proof. reflexivity. Qed.

(** The key, the colon and the space in front of a value. *)
Lemma object_key_parse k s :
  ∃ r, Json.after Json.dquote (Json.encode_string k +:+ ": " +:+ s) = Some r ∧
    Json.scanstring r = inr (k, String ":" (String " " s)).
Proof.
  rewrite encode_string_app. eexists. split; [reflexivity|].
  apply scanstring_escape.
Qed.

Lemma object_pairs_step fuel level k x tail :
  Json.scan_once fuel (Json.encode (S level) x +:+ tail) = inr (x, tail) →
  Json.object_pairs (S fuel)
    (Json.encode_string k +:+ ": " +:+ Json.encode (S level) x +:+ tail) =
  match Json.after "}" (Json.skip_ws tail) with
  | Some rest3 => inr ([(k, x)], rest3)
  | None =>
      match Json.after "," (Json.skip_ws tail) with
      | Some rest3 =>
          match Json.object_pairs fuel (Json.skip_ws rest3) with
          | inr (pairs, rest4) => inr ((k, x) :: pairs, rest4)
          | inl e => inl e
          end
      | None => inl JSONDecodeError
      end
  end.
Proof.
  intros Hx. rewrite object_pairs_S.
  destruct (object_key_parse k (Json.encode (S level) x +:+ tail)) as (r & -> & ->).
  rewrite skip_ws_start by done.
  change (Json.after ":" (String ":" ?s)) with (Some s). cbv beta iota.
  change (Json.skip_ws (String " " ?s)) with (Json.skip_ws s).
  by rewrite skip_ws_encode, Hx.
Qed.

Lemma object_pairs_parse level xs : ∀ k x rest fuel,
  Forall (λ kv, parses kv.2) ((k, x) :: xs) → fields_wf ((k, x) :: xs) →
  (fields_cost ((k, x) :: xs) ≤ fuel)%nat →
  Json.object_pairs fuel
    (Json.encode_string k +:+ ": " +:+ Json.encode (S level) x +:+
     encode_fields level xs +:+ Json.newline_indent level +:+ String "}" rest) =
  inr ((k, x) :: xs, rest).
Proof.
  induction xs as [|[k' y] xs IH]; intros k x rest fuel Hp [Hwx Hw] Hfuel;
    apply Forall_cons in Hp as [Hx Hp]; simpl in Hx;
    (destruct fuel as [|fuel]; [simpl in Hfuel; lia|]).
  - rewrite object_pairs_step.
    2:{ apply Hx; [done|simpl in Hfuel; lia|apply (number_ends_tail_fields level [])]. }
    change (encode_fields level []) with "". change ("" +:+ ?s) with s.
    by rewrite skip_ws_newline_indent.
  - rewrite object_pairs_step.
    2:{ apply Hx; [done|simpl in Hfuel; lia|apply number_ends_tail_fields]. }
    change (encode_fields level ((k', y) :: xs)) with
      ("," +:+ Json.newline_indent (S level) +:+
       Json.encode_string k' +:+ ": " +:+ Json.encode (S level) y +:+
       encode_fields level xs).
    rewrite !string_app_assoc.
    change ("," +:+ ?s) with (String "," s).
    rewrite skip_ws_start by done.
    change (Json.after "}" (String "," ?s)) with (@None string).
    change (Json.after "," (String "," ?s)) with (Some s).
    cbv beta iota. rewrite skip_ws_newline_indent.
    rewrite encode_string_app, skip_ws_start by done.
    rewrite <- encode_string_app.
    rewrite IH; [done|done|done|simpl in Hfuel |- *; lia].
Qed.

(** *** [dict(pairs)] *)

Lemma dict_set_fresh (d : list (string * json)) k v :
  k ∉ d.*1 → PyDict.set d k v = d ++ [(k, v)].
Proof.
  induction d as [|[k' v'] d IH]; simpl; [done|]. intros Hk.
  apply not_elem_of_cons in Hk as [Hne Hk].
  destruct (String.eqb_spec k' k) as [->|_]; [done|]. by rewrite IH.
Qed.

Lemma dict_of_pairs_from (pairs acc : list (string * json)) :
  NoDup (acc.*1 ++ pairs.*1) →
  foldl (λ d kv, PyDict.set d kv.1 kv.2) acc pairs = acc ++ pairs.
Proof.
  revert acc. induction pairs as [|[k v] pairs IH]; intros acc Hnd; simpl.
  - by rewrite app_nil_r.
  - simpl in Hnd. apply NoDup_app in Hnd as (Hacc & Hdisj & Hnd').
    rewrite dict_set_fresh.
    2:{ intros Hin. apply (Hdisj k Hin). by left. }
    rewrite IH; [by rewrite <- app_assoc|].
    rewrite fmap_app. simpl. rewrite <- app_assoc. simpl.
    apply NoDup_app. split; [done|]. split; [done|]. done.
Qed.

Lemma dict_of_pairs_nodup (pairs : list (string * json)) :
  NoDup pairs.*1 → Json.dict_of_pairs pairs = pairs.
Proof. intros H. unfold Json.dict_of_pairs. by rewrite dict_of_pairs_from. Qed.

(** *** Every value *)

Lemma scan_once_str fuel r :
  Json.scan_once (S fuel) (String Json.dquote r) =
  match Json.scanstring r with
  | inr (k, rest) => inr (JStr k, rest)
  | inl e => inl e
  end.
Proof. reflexivity. Qed.

Lemma scan_once_list fuel r :
  Json.scan_once (S fuel) (String "[" r) =
  match Json.after "]" (Json.skip_ws r) with
  | Some rest => inr (JList [], rest)
  | None =>
      match Json.array_items fuel (Json.skip_ws r) with
      | inr (items, rest) => inr (JList items, rest)
      | inl e => inl e
      end
  end.
Proof. reflexivity. Qed.

Lemma scan_once_dict fuel r :
  Json.scan_once (S fuel) (String "{" r) =
  match Json.after "}" (Json.skip_ws r) with
  | Some rest => inr (JDict [], rest)
  | None =>
      match Json.object_pairs fuel (Json.skip_ws r) with
      | inr (pairs, rest) => inr (JDict (Json.dict_of_pairs pairs), rest)
      | inl e => inl e
      end
  end.
Proof. reflexivity. Qed.

Lemma encode_parses (v : json) : parses v.
Proof.
  induction v as [|b|n|s|items IH|fields IH] using json_ind;
    intros level rest fuel Hwf Hfuel Hrest;
    (destruct fuel as [|fuel]; [simpl in Hfuel; lia|]).
  - reflexivity.
  - by destruct b.
  - by apply scan_once_int.
  - change (Json.encode level (JStr s)) with (Json.encode_string s).
    by rewrite encode_string_app, scan_once_str, scanstring_escape.
  - destruct items as [|x xs]; [reflexivity|].
    rewrite encode_list_cons, !string_app_assoc.
    change ("[" +:+ ?s) with (String "[" s).
    rewrite scan_once_list, skip_ws_newline_indent, skip_ws_encode.
    rewrite after_encode by auto.
    change ("]" +:+ rest) with (String "]" rest).
    rewrite array_items_parse; [done|done|done|].
    change (cost (JList (x :: xs))) with (S (items_cost (x :: xs))) in Hfuel. lia.
  - destruct fields as [|[k x] xs]; [reflexivity|].
    rewrite encode_dict_cons, !string_app_assoc.
    change ("{" +:+ ?s) with (String "{" s).
    rewrite scan_once_dict, skip_ws_newline_indent.
    rewrite encode_string_app, skip_ws_start by done.
    change (Json.after "}" (String Json.dquote ?s)) with (@None string).
    cbv beta iota. rewrite <- encode_string_app.
    change ("}" +:+ rest) with (String "}" rest).
    destruct Hwf as [Hnd Hwf].
    rewrite object_pairs_parse; [|done|done|].
    2:{ change (cost (JDict ((k, x) :: xs))) with
          (S (fields_cost ((k, x) :: xs))) in Hfuel. lia. }
    by rewrite dict_of_pairs_nodup.
Qed.

(** *** The whole text *)

Lemma length_encode_pos level v : (1 ≤ String.length (Json.encode level v))%nat.
Proof.
  destruct (encode_head level v) as (c & s & -> & _). simpl. lia.
Qed.

Lemma cost_bound (v : json) :
  ∀ level, (cost v ≤ 2 * String.length (Json.encode level v))%nat.
Proof.
  induction v as [|b|n|s|items IH|fields IH] using json_ind; intros level.
  - simpl. lia.
  - pose proof (length_encode_pos level (JBool b)). simpl cost. lia.
  - pose proof (length_encode_pos level (JInt n)). simpl cost. lia.
  - pose proof (length_encode_pos level (JStr s)). simpl cost. lia.
  - destruct items as [|x xs]; [simpl; lia|].
    rewrite encode_list_cons, !length_string_app.
    change (cost (JList (x :: xs))) with (S (S (cost x) + items_cost xs)).
    apply Forall_cons in IH as [Hx IH]. specialize (Hx (S level)).
    assert (items_cost xs ≤ 2 * String.length (encode_items level xs))%nat.
    { clear Hx. induction xs as [|y xs IHxs]; [simpl; lia|].
      apply Forall_cons in IH as [Hy IH]. specialize (Hy (S level)).
      specialize (IHxs IH).
      change (encode_items level (y :: xs)) with
        ("," +:+ Json.newline_indent (S level) +:+ Json.encode (S level) y +:+
         encode_items level xs).
      rewrite !length_string_app.
      change (items_cost (y :: xs)) with (S (cost y) + items_cost xs)%nat.
      simpl String.length. lia. }
    simpl String.length. lia.
  - destruct fields as [|[k x] xs]; [simpl; lia|].
    rewrite encode_dict_cons, !length_string_app.
    change (cost (JDict ((k, x) :: xs))) with (S (S (cost x) + fields_cost xs)).
    apply Forall_cons in IH as [Hx IH]. simpl in Hx. specialize (Hx (S level)).
    assert (fields_cost xs ≤ 2 * String.length (encode_fields level xs))%nat.
    { clear Hx. induction xs as [|[k' y] xs IHxs]; [simpl; lia|].
      apply Forall_cons in IH as [Hy IH]. simpl in Hy. specialize (Hy (S level)).
      specialize (IHxs IH).
      change (encode_fields level ((k', y) :: xs)) with
        ("," +:+ Json.newline_indent (S level) +:+
         Json.encode_string k' +:+ ": " +:+ Json.encode (S level) y +:+
         encode_fields level xs).
      rewrite !length_string_app.
      change (fields_cost ((k', y) :: xs)) with (S (cost y) + fields_cost xs)%nat.
      simpl String.length. lia. }
    simpl String.length. lia.
Qed.

(** [json.loads(json.dumps(v, indent=2))] is [v]. *)
Lemma loads_dumps (v : json) : wf_json v → Json.loads (Json.dumps v) = inr v.
Proof.
  intros Hwf. unfold Json.loads, Json.dumps.
  pose proof (skip_ws_encode 0 v "") as Hs. rewrite string_app_nil_r in Hs.
  rewrite Hs. pose proof (encode_parses v 0%nat "") as Hp.
  rewrite string_app_nil_r in Hp. rewrite Hp; [done|done| |done].
  pose proof (cost_bound v 0). lia.
Qed.

(** *** What [json.loads] returns has distinct keys *)

Lemma dict_set_keys (d : list (string * json)) k v x :
  x ∈ (PyDict.set d k v).*1 ↔ x ∈ d.*1 ∨ x = k.
Proof.
  induction d as [|[k' v'] d IH]; simpl.
  - rewrite list_elem_of_singleton, elem_of_nil. intuition congruence.
  - destruct (String.eqb_spec k' k) as [->|Hne]; simpl.
    + rewrite !elem_of_cons. intuition congruence.
    + rewrite !elem_of_cons, IH. intuition congruence.
Qed.

Lemma dict_set_nodup (d : list (string * json)) k v :
  NoDup d.*1 → NoDup (PyDict.set d k v).*1.
Proof.
  induction d as [|[k' v'] d IH]; simpl; intros Hnd.
  - apply NoDup_singleton.
  - apply NoDup_cons in Hnd as [Hk Hnd].
    destruct (String.eqb_spec k' k) as [->|Hne]; simpl.
    + by apply NoDup_cons.
    + apply NoDup_cons. split; [|by apply IH].
      rewrite dict_set_keys. intuition congruence.
Qed.

Lemma dict_set_wf (d : list (string * json)) k v :
  fields_wf d → wf_json v → fields_wf (PyDict.set d k v).
Proof.
  induction d as [|[k' v'] d IH]; simpl; intros Hd Hv; [done|].
  destruct Hd as [Hv' Hd]. destruct (String.eqb k' k); simpl; auto.
Qed.

Lemma dict_of_pairs_wf (pairs : list (string * json)) :
  fields_wf pairs → wf_json (JDict (Json.dict_of_pairs pairs)).
Proof.
  unfold Json.dict_of_pairs.
  assert (∀ acc, NoDup acc.*1 → fields_wf acc → fields_wf pairs →
    NoDup (foldl (λ d kv, PyDict.set d kv.1 kv.2) acc pairs).*1 ∧
    fields_wf (foldl (λ d kv, PyDict.set d kv.1 kv.2) acc pairs)) as H.
  { induction pairs as [|[k v] pairs IH]; intros acc Hnd Hacc Hp; simpl; [done|].
    destruct Hp as [Hv Hp].
    apply IH; [by apply dict_set_nodup | by apply dict_set_wf | done]. }
  intros Hp. apply (H []); [apply NoDup_nil_2 | done | done].
Qed.

Lemma match_number_wf s v rest :
  Json.match_number s = Some (inr (v, rest)) → wf_json v.
Proof.
  unfold Json.match_number.
  destruct (Json.after "-" s) as [r|];
    (match goal with |- context [match ?x with EmptyString => _ | String _ _ => _ end] =>
       destruct x as [|c r'] end; [done|]);
    (destruct (Ascii.eqb c "0");
     [destruct (Json.float_follows _); [done|]; by intros [= <- _]|]);
    (destruct (PyStr.isdigit c); [|done]);
    destruct (Json.span_digits _) as [ds rest'];
    (destruct (Json.float_follows _); [done|]); by intros [= <- _].
Qed.

Lemma scan_atom_wf s v rest : Json.scan_atom s = inr (v, rest) → wf_json v.
Proof.
  unfold Json.scan_atom.
  destruct (Json.strip_prefix "null" s); [by intros [= <- _]|].
  destruct (Json.strip_prefix "true" s); [by intros [= <- _]|].
  destruct (Json.strip_prefix "false" s); [by intros [= <- _]|].
  destruct (Json.match_number s) as [[e|[v' rest']]|] eqn:Hm.
  - done.
  - intros [= <- <-]. by apply match_number_wf in Hm.
  - by destruct (_ || _).
Qed.

Lemma scan_once_S fuel c r :
  Json.scan_once (S fuel) (String c r) =
  if Ascii.eqb c Json.dquote then
    match Json.scanstring r with
    | inr (k, rest) => inr (JStr k, rest)
    | inl e => inl e
    end
  else if Ascii.eqb c "{" then
    match Json.after "}" (Json.skip_ws r) with
    | Some rest => inr (JDict [], rest)
    | None =>
        match Json.object_pairs fuel (Json.skip_ws r) with
        | inr (pairs, rest) => inr (JDict (Json.dict_of_pairs pairs), rest)
        | inl e => inl e
        end
    end
  else if Ascii.eqb c "[" then
    match Json.after "]" (Json.skip_ws r) with
    | Some rest => inr (JList [], rest)
    | None =>
        match Json.array_items fuel (Json.skip_ws r) with
        | inr (items, rest) => inr (JList items, rest)
        | inl e => inl e
        end
    end
  else Json.scan_atom (String c r).
Proof. reflexivity. Qed.

Lemma decoded_wf (fuel : nat) :
  (∀ s v rest, Json.scan_once fuel s = inr (v, rest) → wf_json v) ∧
  (∀ s vs rest, Json.array_items fuel s = inr (vs, rest) → items_wf vs) ∧
  (∀ s ps rest, Json.object_pairs fuel s = inr (ps, rest) → fields_wf ps).
Proof.
  induction fuel as [|fuel (IHv & IHa & IHo)]; [done|].
  split; [|split].
  - intros [|c r] v rest; [done|]. rewrite scan_once_S.
    destruct (Ascii.eqb c Json.dquote).
    { destruct (Json.scanstring r) as [|[k rest']]; [done|]. by intros [= <- _]. }
    destruct (Ascii.eqb c "{").
    { destruct (Json.after "}" _); [intros [= <- _]; split; [apply NoDup_nil_2|done]|].
      destruct (Json.object_pairs fuel _) as [|[ps rest']] eqn:Ho; [done|].
      intros [= <- _]. apply dict_of_pairs_wf. by eapply IHo. }
    destruct (Ascii.eqb c "[").
    { destruct (Json.after "]" _); [by intros [= <- _]|].
      destruct (Json.array_items fuel _) as [|[vs rest']] eqn:Ha; [done|].
      intros [= <- _]. by eapply IHa. }
    apply scan_atom_wf.
  - intros s vs rest. rewrite array_items_S.
    destruct (Json.scan_once fuel s) as [|[x rest1]] eqn:Hx; [done|].
    apply IHv in Hx.
    destruct (Json.after "]" _); [by intros [= <- _]|].
    destruct (Json.after "," _); [|done].
    destruct (Json.array_items fuel _) as [|[vs' rest2]] eqn:Ha; [done|].
    intros [= <- _]. split; [done|]. by eapply IHa.
  - intros s ps rest. rewrite object_pairs_S.
    destruct (Json.after Json.dquote s); [|done].
    destruct (Json.scanstring _) as [|[k rest1]]; [done|].
    destruct (Json.after ":" _); [|done].
    destruct (Json.scan_once fuel _) as [|[x rest2]] eqn:Hx; [done|].
    apply IHv in Hx.
    destruct (Json.after "}" _); [by intros [= <- _]|].
    destruct (Json.after "," _); [|done].
    destruct (Json.object_pairs fuel _) as [|[ps' rest3]] eqn:Ho; [done|].
    intros [= <- _]. split; [done|]. by eapply IHo.
Qed.

Lemma loads_wf text v : Json.loads text = inr v → wf_json v.
Proof.
  unfold Json.loads.
  destruct (Json.scan_once _ _) as [|[v' rest]] eqn:Hs; [done|].
  destruct (Json.skip_ws rest); [|done]. intros [= <-].
  by eapply (proj1 (decoded_wf _)).
Qed.

End JsonRoundTrip.

(** ** Export, then import *)

Section ExportImport.
Context {AL : AudioLib}.

(** C7.  For a script whose dictionaries have distinct keys, as every
    script that [json.loads] has returned, and whose lines have the two
    keys: the text that the export offers for download decodes to the
    script, and importing it, in any session, makes that very list the
    script: the same lines in the same order, each with the same fields. *)
Theorem export_import_round_trip (w w2 : World) :
  wf_json (JList (script w)) ∨ (∃ text0, Json.loads text0 = inr (JList (script w))) →
  Forall has_both_keys (script w) →
  ∃ text,
    App.step_2_export w =
      (inr tt, add_message (StDownload "podcast_script.json" text) w) ∧
    Json.loads text = inr (JList (script w)) ∧
    App.step_2_import text w2 =
      (inr tt, accepted 3 "Script imported successfully!" (script w) w2) ∧
    script (accepted 3 "Script imported successfully!" (script w) w2) = script w.
Proof.
  intros Hwf Hvalid.
  assert (wf_json (JList (script w))) as Hw.
  { destruct Hwf as [H|[text0 H]]; [done | by apply loads_wf in H]. }
  exists (Json.dumps (JList (script w))).
  pose proof (loads_dumps _ Hw) as Hl.
  split; [reflexivity|]. split; [exact Hl|]. split; [|reflexivity].
  by apply load_script_valid.
Qed.

End ExportImport.

Lemma export_import_round_trip_witness :
  let w := demo_world demo_config [] [] in
  let text0 := double_quoted
    "[{'speaker': 'Alex', 'text': 'Welcome.'}, {'speaker': 'Sarah', 'text': 'Thanks, Alex.'}]" in
  Json.loads text0 = inr (JList (script w)) ∧
  ∃ text,
    App.step_2_export w =
      (inr tt, add_message (StDownload "podcast_script.json" text) w) ∧
    script (App.step_2_import text w).2 = demo_script.
Proof.
  intros w text0.
  assert (Json.loads text0 = inr (JList (script w))) as Hl by (by vm_compute).
  split; [exact Hl|].
  destruct (@export_import_round_trip sample_audio w w) as (text & He & _ & Hi & Hs).
  - right. by exists text0.
  - repeat constructor; by eexists _, _, _.
  - exists text. split; [exact He|]. by rewrite Hi.
Defined.

(** ** The script loader *)

Section DecoderExceptions.

Lemma cons_char_raises c r e :
  (∀ e', r = inl e' → decoder_exn e') → Json.cons_char c r = inl e → decoder_exn e.
Proof. intros Hr. destruct r as [e'|[k rest]]; [|done]. intros [= <-]. by apply Hr. Qed.

Lemma scanstring_raises_upto (n : nat) :
  ∀ s e, (String.length s ≤ n)%nat → Json.scanstring s = inl e → decoder_exn e.
Proof.
  induction n as [|n IH]; intros s e Hn.
  - destruct s; [|simpl in Hn; lia]. intros [= <-]. by left.
  - destruct s as [|c r]; [intros [= <-]; by left|]. simpl in Hn. simpl.
    destruct (Ascii.eqb c Json.dquote); [done|].
    destruct (Ascii.eqb c "\").
    + destruct r as [|x r1]; [intros [= <-]; by left|].
      destruct (Ascii.eqb x "u").
      * destruct r1 as [|h1 [|h2 [|h3 [|h4 r2]]]]; try (intros [= <-]; by left).
        destruct (Json.hex4 h1 h2 h3 h4) as [m|]; [|intros [= <-]; by left].
        destruct (m <? 256)%N; [|intros [= <-]; by right].
        apply cons_char_raises. intros e'. apply IH. simpl in Hn. lia.
      * destruct (Json.unescape x); [|intros [= <-]; by left].
        apply cons_char_raises. intros e'. apply IH. simpl in Hn. lia.
    + destruct (PyStr.code c <? 32)%N; [intros [= <-]; by left|].
      apply cons_char_raises. intros e'. apply IH. lia.
Qed.

Lemma scanstring_raises s e : Json.scanstring s = inl e → decoder_exn e.
Proof. by apply (scanstring_raises_upto (String.length s)). Qed.

Lemma scan_atom_raises s e : Json.scan_atom s = inl e → decoder_exn e.
Proof.
  unfold Json.scan_atom.
  destruct (Json.strip_prefix "null" s); [done|].
  destruct (Json.strip_prefix "true" s); [done|].
  destruct (Json.strip_prefix "false" s); [done|].
  destruct (Json.match_number s) as [[e'|[v' rest']]|] eqn:Hm.
  - intros [= <-]. unfold Json.match_number in Hm.
    destruct (Json.after "-" s) as [r|];
      (match type of Hm with context [match ?x with EmptyString => _ | String _ _ => _ end] =>
         destruct x as [|c r'] end; [done|]);
      (destruct (Ascii.eqb c "0");
       [destruct (Json.float_follows _); [injection Hm as <-; by right|done]|]);
      (destruct (PyStr.isdigit c); [|done]);
      destruct (Json.span_digits _) as [ds rest''];
      (destruct (Json.float_follows _); [injection Hm as <-; by right|done]).
  - done.
  - destruct (_ || _); intros [= <-]; [by right | by left].
Qed.

Lemma decoder_raises (fuel : nat) :
  (∀ s e, Json.scan_once fuel s = inl e → decoder_exn e) ∧
  (∀ s e, Json.array_items fuel s = inl e → decoder_exn e) ∧
  (∀ s e, Json.object_pairs fuel s = inl e → decoder_exn e).
Proof.
  induction fuel as [|fuel (IHv & IHa & IHo)].
  { repeat split; intros s e [= <-]; by right. }
  split; [|split].
  - intros [|c r] e; [intros [= <-]; by left|]. rewrite scan_once_S.
    destruct (Ascii.eqb c Json.dquote).
    { destruct (Json.scanstring r) as [e'|[k rest']] eqn:Hs; [|done].
      intros [= <-]. by eapply scanstring_raises. }
    destruct (Ascii.eqb c "{").
    { destruct (Json.after "}" _); [done|].
      destruct (Json.object_pairs fuel _) as [e'|[ps rest']] eqn:Ho; [|done].
      intros [= <-]. by eapply IHo. }
    destruct (Ascii.eqb c "[").
    { destruct (Json.after "]" _); [done|].
      destruct (Json.array_items fuel _) as [e'|[vs rest']] eqn:Ha; [|done].
      intros [= <-]. by eapply IHa. }
    apply scan_atom_raises.
  - intros s e. rewrite array_items_S.
    destruct (Json.scan_once fuel s) as [e'|[x rest1]] eqn:Hx.
    { intros [= <-]. by eapply IHv. }
    destruct (Json.after "]" _); [done|].
    destruct (Json.after "," _); [|intros [= <-]; by left].
    destruct (Json.array_items fuel _) as [e'|[vs' rest2]] eqn:Ha; [|done].
    intros [= <-]. by eapply IHa.
  - intros s e. rewrite object_pairs_S.
    destruct (Json.after Json.dquote s); [|intros [= <-]; by left].
    destruct (Json.scanstring _) as [e'|[k rest1]] eqn:Hs.
    { intros [= <-]. by eapply scanstring_raises. }
    destruct (Json.after ":" _); [|intros [= <-]; by left].
    destruct (Json.scan_once fuel _) as [e'|[x rest2]] eqn:Hx.
    { intros [= <-]. by eapply IHv. }
    destruct (Json.after "}" _); [done|].
    destruct (Json.after "," _); [|intros [= <-]; by left].
    destruct (Json.object_pairs fuel _) as [e'|[ps' rest3]] eqn:Ho; [|done].
    intros [= <-]. by eapply IHo.
Qed.

Lemma loads_raises text e : Json.loads text = inl e → decoder_exn e.
Proof.
  unfold Json.loads.
  destruct (Json.scan_once _ _) as [e'|[v' rest]] eqn:Hs.
  - intros [= <-]. by eapply (proj1 (decoder_raises _)).
  - destruct (Json.skip_ws rest); [done|]. intros [= <-]. by left.
Qed.

End DecoderExceptions.

Section LoaderClaim.
Context {AL : AudioLib}.

(** C8, as the code has it.  On a text that the model of the decoder
    covers, the loader accepts the text exactly when [json.loads] returns a
    list whose items all are objects with the keys ['speaker'] and ['text'],
    whatever the values and the other keys: the script becomes that list.
    On any other such text the run leaves the script and the step as they
    are and shows one error message: [bad_json] when [json.loads] raises
    [JSONDecodeError], [bad_format] when it returns another value. *)
Theorem load_script_accepts (next : Z) (ok bad_format bad_json text : string)
    (w : World) :
  covered text →
  (∀ items,
     Json.loads text = inr (JList items) → Forall has_both_keys items →
     load_script next ok bad_format bad_json text w =
       (inr tt, accepted next ok items w)) ∧
  ((¬ ∃ items, Json.loads text = inr (JList items) ∧ Forall has_both_keys items) →
   ∃ msg w',
     load_script next ok bad_format bad_json text w = (inr tt, w') ∧
     w' = add_message (StError msg) w ∧
     msg = match Json.loads text with inl _ => bad_json | inr _ => bad_format end ∧
     script w' = script w ∧ current_step w' = current_step w).
Proof.
  intros [Hmodel _]. split.
  - intros items. apply load_script_valid.
  - unfold load_script.
    intros Hno. destruct (Json.loads text) as [e|data] eqn:Hl.
    + destruct (loads_raises _ _ Hl) as [-> | ->]; [|done].
      by eexists _, _.
    + destruct (valid_script data) eqn:Hv.
      * apply valid_script_spec in Hv as (items & -> & Hv).
        destruct Hno. by exists items.
      * by eexists _, _.
Qed.

End LoaderClaim.

(** C8, as the claim states it, fails: the loader accepts a list whose item
    has a number and [null] for the two fields, and a third field. *)
Lemma strict_shape_counterexample :
  let text := double_quoted "[{'speaker': 1, 'text': null, 'mood': 'calm'}]" in
  let item := JDict [("speaker", JInt 1); ("text", JNull); ("mood", JStr "calm")] in
  let w := demo_world demo_config [] [] in
  Json.loads text = inr (JList [item]) ∧
  ¬ strict_line item ∧
  (App.step_2_load text w).1 = inr tt ∧
  script (App.step_2_load text w).2 = [item] ∧
  current_step (App.step_2_load text w).2 = 3.
Proof.
  intros text item w. split; [by vm_compute|]. split; [|by vm_compute].
  intros (sp & tx & [H|H]); discriminate H.
Qed.

Lemma load_script_accepts_witness :
  let text := double_quoted "[{'speaker': 'Alex', 'text': 'Welcome.', 'mood': 1}]" in
  let items := [JDict [("speaker", JStr "Alex"); ("text", JStr "Welcome."); ("mood", JInt 1)]] in
  let w := demo_world demo_config [] [] in
  covered text ∧ covered "[1, 2]" ∧
  script (App.step_2_load text w).2 = items ∧
  App.step_2_load "[1, 2]" w =
    (inr tt,
     add_message
       (StError "Invalid script format. Please ensure your JSON is a list of objects with 'speaker' and 'text' keys.")
       w).
Proof.
  intros text items w.
  assert (covered text) as Hc1 by (by vm_compute).
  assert (covered "[1, 2]") as Hc2 by (by vm_compute).
  split; [exact Hc1|]. split; [exact Hc2|]. split.
  - unfold App.step_2_load.
    rewrite (proj1 (@load_script_accepts sample_audio 3 _ _ _ text w Hc1) items);
      [done | by vm_compute |].
    repeat constructor. by eexists _, _, _.
  - unfold App.step_2_load.
    destruct (proj2 (@load_script_accepts sample_audio 3
                       "Script loaded successfully!"
                       "Invalid script format. Please ensure your JSON is a list of objects with 'speaker' and 'text' keys."
                       "Invalid JSON. Please check your input." "[1, 2]" w Hc2))
      as (msg & w' & -> & -> & -> & _); [|done].
    intros (items' & Hl & Hv). vm_compute in Hl. injection Hl as <-.
    apply Forall_cons in Hv as [(d & ? & ? & [=] & _) _].
Defined.

(** Texts that the model does not cover, and on which the theorem is
    silent: the code accepts the first one; on the second one [json.loads]
    raises the [ValueError] of the digit limit, which the handler does not
    catch. *)
Example texts_outside_the_model :
  ¬ covered (double_quoted "[{'speaker': 'a', 'text': 1.5}]") ∧
  ¬ covered ("[1" +:+ PyStr.times "0" 4300 +:+ "]").
Proof. split; intros [Hm Hl]; [by apply Hm | by vm_compute in Hl]. Qed.

(** ** The API key in the side bar *)

Section MaskedKey.
Context {AL : AudioLib}.

Lemma chars_take n s :
  list_ascii_of_string (PyStr.take n s) = take n (list_ascii_of_string s).
Proof. revert s. induction n as [|n IH]; intros [|c s]; simpl; f_equal; auto. Qed.

Lemma chars_drop n s :
  list_ascii_of_string (PyStr.drop n s) = drop n (list_ascii_of_string s).
Proof. revert s. induction n as [|n IH]; intros [|c s]; simpl; auto. Qed.

Lemma chars_app (a b : string) :
  list_ascii_of_string (a +:+ b) = list_ascii_of_string a ++ list_ascii_of_string b.
Proof. induction a; simpl; f_equal; auto. Qed.

Lemma chars_times c n :
  list_ascii_of_string (PyStr.times c n) = replicate (Z.to_nat n) c.
Proof.
  unfold PyStr.times. rewrite list_ascii_of_string_of_list_ascii.
  induction (Z.to_nat n); simpl; f_equal; auto.
Qed.

Lemma chars_length s : length (list_ascii_of_string s) = String.length s.
Proof. induction s; simpl; auto. Qed.

Lemma chars_get i s : String.get i s = list_ascii_of_string s !! i.
Proof. revert i. induction s as [|c s IH]; intros [|i]; simpl; auto. Qed.

Lemma chars_masked_key key :
  list_ascii_of_string (App.masked_key key) =
  take 4 (list_ascii_of_string key) ++ replicate (String.length key - 8) "*"%char ++
  drop (String.length key - 4) (list_ascii_of_string key).
Proof.
  unfold App.masked_key, PyStr.suffix.
  rewrite !chars_app, chars_take, chars_times, chars_drop.
  do 2 f_equal. f_equal. lia.
Qed.

Lemma masked_key_long (key : string) (i : nat) :
  (8 ≤ String.length key)%nat →
  String.length (App.masked_key key) = String.length key ∧
  String.get i (App.masked_key key) =
    if decide (4 ≤ i < String.length key - 4)%nat
    then Some "*"%char else String.get i key.
Proof.
  intros Hlen. rewrite <- !chars_length, !chars_get, chars_masked_key.
  rewrite <- (chars_length key) in *. set (l := list_ascii_of_string key) in *.
  split.
  - rewrite !length_app, length_take, length_replicate, length_drop. lia.
  - destruct (decide (i < 4)%nat) as [Hi|Hi].
    + rewrite lookup_app_l by (rewrite length_take; lia).
      rewrite lookup_take_lt by done. by rewrite decide_False by lia.
    + rewrite lookup_app_r by (rewrite length_take; lia).
      rewrite length_take, Nat.min_l by lia.
      destruct (decide (i < length l - 4)%nat) as [Hm|Hm].
      * rewrite lookup_app_l by (rewrite length_replicate; lia).
        rewrite decide_True by lia. apply lookup_replicate_2. lia.
      * rewrite lookup_app_r by (rewrite length_replicate; lia).
        rewrite decide_False by lia. rewrite length_replicate, lookup_drop.
        f_equal. lia.
Qed.

Lemma masked_key_short (key key2 : string) :
  (String.length key ≤ 8)%nat →
  String.length key2 = String.length key →
  App.masked_key key2 = App.masked_key key →
  key2 = key.
Proof.
  intros Hlen Hl Hm.
  do 9 (destruct key as [|? key];
        [ repeat (destruct key2 as [|? key2]; try discriminate Hl);
          cbv in Hm; congruence | ]).
  simpl in Hlen. lia.
Qed.



End MaskedKey.



(** ** Handlers that fail or are overridden *)

Section Handlers.
Context {AL : AudioLib}.




End Handlers.




(** ** The requests of a generation pass *)

Section Requests.
Context {AL : AudioLib}.

Lemma request_of_stable w w' text name :
  same_session w w' → request_of w' text name = request_of w text name.
Proof. intros (_ & Hc & Hv & _). unfold request_of. by rewrite Hc, Hv. Qed.

Lemma line_request_stable w w' line :
  same_session w w' → line_request w' line = line_request w line.
Proof.
  intros Hs. unfold line_request. destruct (subscript line "speaker") as [|[]]; try done.
  destruct (subscript line "text"); [done|].
  destruct Hs as (? & Hc & ?) eqn:E. rewrite Hc.
  destruct (podcasters (config w) !! s); simpl; [|done].
  by apply request_of_stable.
Qed.

Lemma sends_ret : sends (mret tt) (λ _, []).
Proof.
  intros w r w' [= <- <-]. split; [apply same_session_refl|].
  exists []. by rewrite app_nil_r.
Qed.

Lemma sends_success s : sends (st_success s) (λ _, []).
Proof.
  intros w r w' [= <- <-]. split; [done|].
  exists []. by rewrite app_nil_r.
Qed.

Lemma sends_seq m1 m2 p1 p2 :
  sends m1 p1 → sends m2 p2 → stable p2 → sends (m1 ;; m2) (λ w, p1 w ++ p2 w).
Proof.
  intros H1 H2 Hst w r w' H.
  apply run_bind_inv in H as [(e & Hm & ->)|([] & w1 & Hm & Hk)].
  - destruct (H1 _ _ _ Hm) as (Hs & reqs & Hc & Hsent). split; [done|].
    exists reqs. split; [done|]. simpl in *.
    destruct e; try (destruct Hsent as (rest & ->); exists (rest ++ p2 w);
      by rewrite <- app_assoc).
    destruct Hsent as (Hne & rest & ->). split; [done|].
    exists (rest ++ p2 w). by rewrite <- app_assoc.
  - destruct (H1 _ _ _ Hm) as (Hs1 & reqs1 & Hc1 & Hsent1).
    destruct (H2 _ _ _ Hk) as (Hs2 & reqs2 & Hc2 & Hsent2).
    split; [by eapply same_session_trans|].
    exists (reqs1 ++ reqs2). split; [by rewrite Hc2, Hc1, app_assoc|].
    simpl in Hsent1. rewrite Hsent1. rewrite (Hst _ _ Hs1) in Hsent2.
    destruct r as [e|]; simpl in *; [|by rewrite Hsent2, fmap_app].
    destruct e; try (destruct Hsent2 as (rest & ->); exists rest;
      by rewrite fmap_app, <- app_assoc).
    destruct Hsent2 as (Hne & rest & ->). split.
    + by destruct reqs1, reqs2.
    + exists rest. by rewrite fmap_app, <- app_assoc.
Qed.

Lemma sends_when (b : bool) m p :
  sends m p → sends (when b m) (λ w, if b then p w else []).
Proof. destruct b; [done | intros _; apply sends_ret]. Qed.

Lemma sends_for {A : Type} (body : nat → A → M unit) (req : World → A → option Request) :
  (∀ i x, sends (body i x) (λ w, [req w x])) →
  (∀ x, stable (λ w, [req w x])) →
  ∀ l start, sends (for_enumerate start l body) (λ w, req w <$> l).
Proof.
  intros Hbody Hst. induction l as [|x l IH]; intros start; simpl.
  - apply sends_ret.
  - apply (sends_seq _ _ (λ w, [req w x]) (λ w, req w <$> l)); [apply Hbody | apply IH |].
    intros w w' Hs. clear IH. induction l as [|y l IHl]; simpl; [done|].
    f_equal; [|done]. specialize (Hst y w w' Hs). simpl in Hst. congruence.
Qed.

(** The call and the new segment *)
Lemma run_synthesis label text vid vs w r w' :
  (audio ← generate_audio text vid vs; append_segment (label, audio)) w = (r, w') →
  same_session w w' ∧
  tts_calls w' = tts_calls w ++
    [{| req_text := text; req_voice_id := vid; req_settings := vs |}] ∧
  (r = inr tt ∨ r = inl SynthesisError).
Proof.
  intros H. rewrite run_bind in H. unfold generate_audio in H.
  destruct (tts_pending w) as [|[a|] rest]; inversion H; subst; clear H; simpl; auto.
  all: repeat split; auto.
Qed.

Lemma sent_one req r :
  r = inr tt ∨ r = inl SynthesisError → sent [Some req] r [req].
Proof. intros [->| ->]; simpl; [done|]. split; [done|]. by exists []. Qed.

Lemma sent_none (e : exn) : e ≠ SynthesisError → sent [None] (inl e) [].
Proof. intros He. destruct e; simpl; try (by exists []). done. Qed.

Lemma subscript_cases line k :
  (∃ v, subscript line k = inr v) ∨
  (∃ e, subscript line k = inl e ∧ e ≠ SynthesisError).
Proof.
  destruct (subscript line k) as [e|v] eqn:E; [right|left; by eexists].
  exists e. split; [done|]. intros ->. by apply subscript_not_synthesis in E.
Qed.

Lemma site_raises plan (e : exn) w :
  e ≠ SynthesisError → plan = [None] →
  same_session w w ∧ ∃ reqs, tts_calls w = tts_calls w ++ reqs ∧ sent plan (inl e) reqs.
Proof.
  intros He ->. split; [apply same_session_refl|]. exists [].
  rewrite app_nil_r. split; [done|]. by apply sent_none.
Qed.

Lemma site_calls label text name w r w' vd :
  name ≫= (available_voices w !!.) = Some vd →
  (audio ← generate_audio text (voice_id vd) (voice_settings (config w));
   append_segment (label, audio)) w = (r, w') →
  same_session w w' ∧
  ∃ reqs, tts_calls w' = tts_calls w ++ reqs ∧ sent [request_of w text name] r reqs.
Proof.
  intros Hvd H. apply run_synthesis in H as (Hs & Hc & Hr). split; [done|].
  eexists. split; [exact Hc|].
  unfold request_of. destruct name as [n|]; [|done]. simpl in *. rewrite Hvd. simpl.
  by apply sent_one.
Qed.

Lemma fixed_site_sends (label : string) (text : World → string)
    (voice : World → option string) :
  sends (t ← gets text;
         name ← gets voice;
         vd ← voice_data name;
         vs ← gets (λ w, voice_settings (config w));
         audio ← generate_audio (JStr t) (voice_id vd) vs;
         append_segment (label, audio))
        (λ w, [request_of w (JStr (text w)) (voice w)]).
Proof.
  intros w r w' H. rewrite !run_gets, run_bind in H. unfold voice_data in H.
  destruct (voice w) as [n|] eqn:Hn.
  - destruct (available_voices w !! n) as [vd|] eqn:Hvd.
    + rewrite run_gets in H. eapply site_calls; [|exact H]. done.
    + injection H as <- <-. apply site_raises; [done|].
      unfold request_of. simpl. by rewrite Hvd.
  - injection H as <- <-. by apply site_raises.
Qed.

Lemma app_line_sends (i : nat) (line : json) :
  sends (speaker ← lift (subscript line "speaker");
         voice_name ← podcaster_voice speaker;
         text ← lift (subscript line "text");
         vd ← voice_data voice_name;
         vs ← gets (λ w, voice_settings (config w));
         audio ← generate_audio text (voice_id vd) vs;
         append_segment (line_label i, audio))
        (λ w, [line_request w line]).
Proof.
  intros w r w' H. rewrite run_bind in H. unfold line_request.
  destruct (subscript_cases line "speaker") as [(sp & Hsp)|(e & Hsp & He)];
    rewrite Hsp in *; simpl in H;
    [|injection H as <- <-; by apply site_raises].
  rewrite run_bind in H. unfold podcaster_voice in H.
  destruct sp as [| | |s| |]; try (injection H as <- <-; by apply site_raises).
  destruct (podcasters (config w) !! s) as [name|] eqn:Hp;
    [|injection H as <- <-; apply site_raises; [done|]; by destruct (subscript line "text")].
  rewrite run_bind in H.
  destruct (subscript_cases line "text") as [(text & Ht)|(e & Ht & He)];
    rewrite Ht in *; simpl in H;
    [|injection H as <- <-; by apply site_raises].
  simpl. rewrite run_bind in H. unfold voice_data in H.
  destruct name as [n|].
  - destruct (available_voices w !! n) as [vd|] eqn:Hvd.
    + rewrite run_gets in H. eapply site_calls; [|exact H]. done.
    + injection H as <- <-. apply site_raises; [done|].
      unfold request_of. simpl. by rewrite Hvd.
  - injection H as <- <-. by apply site_raises.
Qed.

Lemma pga_line_sends (i : nat) (line : json) :
  sends (text ← lift (subscript line "text");
         speaker ← lift (subscript line "speaker");
         voice_name ← podcaster_voice speaker;
         vd ← voice_data voice_name;
         vs ← gets (λ w, voice_settings (config w));
         audio ← generate_audio text (voice_id vd) vs;
         append_segment (line_label i, audio))
        (λ w, [line_request w line]).
Proof.
  intros w r w' H. rewrite run_bind in H. unfold line_request.
  destruct (subscript_cases line "text") as [(text & Ht)|(e & Ht & He)];
    rewrite Ht in *; simpl in H;
    [|injection H as <- <-; apply site_raises; [done|];
      by destruct (subscript line "speaker") as [|[]]].
  rewrite run_bind in H.
  destruct (subscript_cases line "speaker") as [(sp & Hsp)|(e & Hsp & He)];
    rewrite Hsp in *; simpl in H;
    [|injection H as <- <-; by apply site_raises].
  rewrite run_bind in H. unfold podcaster_voice in H.
  destruct sp as [| | |s| |]; try (injection H as <- <-; by apply site_raises).
  destruct (podcasters (config w) !! s) as [name|] eqn:Hp;
    [|injection H as <- <-; by apply site_raises].
  simpl. rewrite run_bind in H. unfold voice_data in H.
  destruct name as [n|].
  - destruct (available_voices w !! n) as [vd|] eqn:Hvd.
    + rewrite run_gets in H. eapply site_calls; [|exact H]. done.
    + injection H as <- <-. apply site_raises; [done|].
      unfold request_of. simpl. by rewrite Hvd.
  - injection H as <- <-. by apply site_raises.
Qed.

Lemma sends_gets {A : Type} (f : World → A) (k : A → M unit)
    (p : A → World → list (option Request)) :
  (∀ x, sends (k x) (p x)) → sends (gets f ≫= k) (λ w, p (f w) w).
Proof. intros Hk w r w' H. rewrite run_gets in H. by apply (Hk (f w)). Qed.

Lemma sends_reset (k : M unit) p :
  sends k p → stable p → sends (modify (set_audio_segments []) ;; k) p.
Proof.
  intros Hk Hst w r w' H. rewrite run_modify in H.
  destruct (Hk _ _ _ H) as (Hs & reqs & Hc & Hsent).
  split; [done|]. exists reqs. split; [done|].
  by rewrite <- (Hst w (set_audio_segments [] w)).
Qed.

Lemma stable_lines : stable (λ w, line_request w <$> script w).
Proof.
  intros w w' Hs. pose proof Hs as (-> & _).
  induction (script w) as [|y l IH]; simpl; [done|].
  f_equal; [by apply line_request_stable | done].
Qed.

Lemma stable_intro : stable intro_requests.
Proof.
  intros w w' Hs. pose proof Hs as (_ & Hc & _). unfold intro_requests.
  rewrite Hc. destruct (PyStr.truthy _); [|done]. f_equal. by apply request_of_stable.
Qed.

Lemma stable_outro : stable outro_requests.
Proof.
  intros w w' Hs. pose proof Hs as (_ & Hc & _). unfold outro_requests.
  rewrite Hc. destruct (PyStr.truthy _); [|done]. f_equal. by apply request_of_stable.
Qed.

Lemma stable_app p q : stable p → stable q → stable (λ w, p w ++ q w).
Proof. intros Hp Hq w w' Hs. by rewrite (Hp _ _ Hs), (Hq _ _ Hs). Qed.

Lemma stable_nil : stable (λ _, []).
Proof. done. Qed.

Lemma sends_lines (body : nat → json → M unit) :
  (∀ i line, sends (body i line) (λ w, [line_request w line])) →
  sends (lines ← gets script; for_enumerate 0 lines body)
        (λ w, line_request w <$> script w).
Proof.
  intros Hb. apply (sends_gets script _ (λ lines w, line_request w <$> lines)).
  intros lines. apply sends_for; [done|].
  intros line w w' Hs. f_equal. by apply line_request_stable.
Qed.

Lemma sends_ext m p q : (∀ w, p w = q w) → sends m p → sends m q.
Proof.
  intros Hpq Hm w r w' H. destruct (Hm _ _ _ H) as (Hs & reqs & Hc & Hsent).
  split; [done|]. exists reqs. by rewrite <- Hpq.
Qed.

Lemma app_generate_all_sends : sends App.generate_all app_requests.
Proof.
  unfold App.generate_all.
  apply sends_reset;
    [|repeat apply stable_app;
      auto using stable_intro, stable_outro, stable_lines, stable_nil].
  apply (sends_gets _ _ (λ intro w,
    (if PyStr.truthy intro
     then [request_of w (JStr (intro_text (config w))) (intro_voice (config w))]
     else []) ++ ((line_request w <$> script w) ++ outro_requests w))).
  intros intro. apply sends_seq.
  { apply sends_when. apply fixed_site_sends. }
  2: { apply stable_app; [apply stable_lines | apply stable_outro]. }
  apply (sends_gets script _ (λ lines w, (line_request w <$> lines) ++ outro_requests w)).
  intros lines. apply sends_seq.
  { apply sends_for; [apply app_line_sends|].
    intros line w w' Hs. f_equal. by apply line_request_stable. }
  2: { apply stable_outro. }
  apply (sends_ext _ (λ w, outro_requests w ++ [])).
  { intros w. by rewrite app_nil_r. }
  apply (sends_gets (λ w, outro_text (config w)) _ (λ outro w,
    (if PyStr.truthy outro
     then [request_of w (JStr (outro_text (config w))) (outro_voice (config w))]
     else []) ++ [])).
  intros outro. apply sends_seq; [|apply sends_success|done].
  apply sends_when. apply fixed_site_sends.
Qed.

Lemma pga_generate_all_sends : sends PodcastGeneratorApp.generate_all pga_requests.
Proof.
  unfold PodcastGeneratorApp.generate_all.
  apply sends_reset;
    [|repeat apply stable_app; auto using stable_intro, stable_lines, stable_nil].
  apply (sends_gets _ _ (λ intro w,
    (if PyStr.truthy intro
     then [request_of w (JStr (intro_text (config w))) (intro_voice (config w))]
     else []) ++ (line_request w <$> script w))).
  intros intro. apply sends_seq.
  { apply sends_when. apply fixed_site_sends. }
  2: { apply stable_lines. }
  apply (sends_ext _ (λ w, (line_request w <$> script w) ++ [])).
  { intros w. by rewrite app_nil_r. }
  apply (sends_gets script _ (λ lines w, (line_request w <$> lines) ++ [])).
  intros lines. apply sends_seq; [|apply sends_success|done].
  apply sends_for; [apply pga_line_sends|].
  intros line w w' Hs. f_equal. by apply line_request_stable.
Qed.


Lemma length_app_requests w : length (app_requests w) = length (app_labels w).
Proof.
  unfold app_requests, app_labels, intro_requests, outro_requests,
    intro_labels, outro_labels.
  rewrite !length_app, length_fmap, length_line_labels.
  by destruct (PyStr.truthy _), (PyStr.truthy _).
Qed.

Lemma length_pga_requests w : length (pga_requests w) = length (pga_labels w).
Proof.
  unfold pga_requests, pga_labels, intro_requests, intro_labels.
  rewrite !length_app, length_fmap, length_line_labels.
  by destruct (PyStr.truthy _).
Qed.

Lemma request_of_no_voices w text name :
  available_voices w = ∅ → request_of w text name = None.
Proof. intros Hv. unfold request_of. rewrite Hv. by destruct name. Qed.

Lemma requests_no_voices w :
  available_voices w = ∅ →
  Forall (λ req, req = None) (app_requests w) ∧
  Forall (λ req, req = None) (pga_requests w).
Proof.
  intros Hv.
  assert (Forall (λ req, req = None) (intro_requests w)) as Hi.
  { unfold intro_requests. destruct (PyStr.truthy _); [|done].
    constructor; [by apply request_of_no_voices | done]. }
  assert (Forall (λ req, req = None) (outro_requests w)) as Ho.
  { unfold outro_requests. destruct (PyStr.truthy _); [|done].
    constructor; [by apply request_of_no_voices | done]. }
  assert (Forall (λ req, req = None) (line_request w <$> script w)) as Hl.
  { apply Forall_fmap, Forall_forall. intros line _. simpl. unfold line_request.
    destruct (subscript line "speaker") as [|[]]; try done.
    destruct (subscript line "text"); [done|].
    destruct (podcasters (config w) !! s); [|done]. by apply request_of_no_voices. }
  unfold app_requests, pga_requests. by rewrite !Forall_app.
Qed.

Lemma sent_none_planned plan r reqs (labels : list string) :
  Forall (λ req : option Request, req = None) plan →
  length plan = length labels →
  sent plan r reqs →
  reqs = [] ∧ (r = inr tt ↔ labels = []) ∧ r ≠ inl SynthesisError.
Proof.
  intros Hnone Hlen Hsent.
  assert (∀ rest, plan = (Some <$> reqs) ++ rest → reqs = []) as Hreqs.
  { intros rest ->. destruct reqs as [|req reqs]; [done|].
    by apply Forall_cons in Hnone as [[=] _]. }
  destruct r as [e|[]]; simpl in Hsent.
  - destruct e; try (destruct Hsent as (rest & Hplan);
      split; [by apply (Hreqs (None :: rest))|]; split; [|done]; split; [done|];
      intros ->; rewrite Hplan in Hlen; rewrite length_app in Hlen; simpl in Hlen; lia).
    destruct Hsent as (Hne & rest & Hplan). by apply Hreqs in Hplan.
  - assert (reqs = []) as -> by (apply (Hreqs []); by rewrite app_nil_r).
    split; [done|]. split; [|done]. split; [|done]. intros _.
    rewrite Hsent in Hlen. by destruct labels.
Qed.


End Requests.



(** ** The edit pages *)

Section DictUpdates.
Context {V : Type}.
Implicit Types d : list (string * V).

Lemma dict_get_set_eq d k v : PyDict.get (PyDict.set d k v) k = Some v.
Proof.
  induction d as [|[k' v'] d IH]; simpl.
  - by rewrite String.eqb_refl.
  - destruct (String.eqb k' k) eqn:E; simpl; by rewrite E.
Qed.

Lemma dict_get_set_ne d k k2 v : k ≠ k2 → PyDict.get (PyDict.set d k v) k2 = PyDict.get d k2.
Proof.
  intros Hne. induction d as [|[k' v'] d IH]; simpl.
  - by apply String.eqb_neq in Hne as ->.
  - destruct (String.eqb k' k) eqn:E; simpl.
    + apply String.eqb_eq in E as ->. by apply String.eqb_neq in Hne as ->.
    + by rewrite IH.
Qed.

Lemma dict_set_present_keys d k v :
  is_Some (PyDict.get d k) → (PyDict.set d k v).*1 = d.*1.
Proof.
  induction d as [|[k' v'] d IH]; simpl; [by intros [? [=]]|].
  destruct (String.eqb k' k) eqn:E; simpl; [done|]. intros H. f_equal. by apply IH.
Qed.

Lemma dict_set_same d k v : PyDict.get d k = Some v → PyDict.set d k v = d.
Proof.
  induction d as [|[k' v'] d IH]; simpl; [done|].
  destruct (String.eqb k' k) eqn:E; [by intros [= ->]|]. intros H. by rewrite IH.
Qed.

End DictUpdates.

Section Loops.
Context {AL : AudioLib}.

(** A loop whose body takes the world [ws j] to [ws (S j)] at item [j]. *)
Lemma for_enumerate_steps {A : Type} (body : nat → A → M unit) (l : list A) :
  ∀ (ws : nat → World) start,
    (∀ j x, l !! j = Some x → body (start + j)%nat x (ws j) = (inr tt, ws (S j))) →
    for_enumerate start l body (ws 0%nat) = (inr tt, ws (length l)).
Proof.
  induction l as [|y l IH]; intros ws start Hstep; simpl; [done|].
  rewrite run_bind. specialize (Hstep 0%nat y eq_refl) as H0.
  rewrite Nat.add_0_r in H0. rewrite H0.
  apply (IH (λ j, ws (S j)) (S start)).
  intros j x Hj. replace (S start + j)%nat with (start + S j)%nat by lia.
  by apply Hstep.
Qed.

(** and stops at item [k] *)
Lemma for_enumerate_stops {A : Type} (body : nat → A → M unit) (l : list A) :
  ∀ (ws : nat → World) start k x e w',
    l !! k = Some x →
    (∀ j y, (j < k)%nat → l !! j = Some y →
       body (start + j)%nat y (ws j) = (inr tt, ws (S j))) →
    body (start + k)%nat x (ws k) = (inl e, w') →
    for_enumerate start l body (ws 0%nat) = (inl e, w').
Proof.
  induction l as [|y l IH]; intros ws start k x e w' Hk Hstep Hstop; [by destruct k|].
  simpl. rewrite run_bind. destruct k as [|k]; simpl in Hk.
  - injection Hk as ->. rewrite Nat.add_0_r in Hstop. by rewrite Hstop.
  - specialize (Hstep 0%nat y ltac:(lia) eq_refl) as H0.
    rewrite Nat.add_0_r in H0. rewrite H0.
    apply (IH (λ j, ws (S j)) (S start) k x); [done| |].
    + intros j z Hj Hz. replace (S start + j)%nat with (start + S j)%nat by lia.
      apply Hstep; [lia | done].
    + by replace (S start + k)%nat with (start + S k)%nat by lia.
Qed.

End Loops.

Section EditScript.
Context {AL : AudioLib}.
Variable ui : Env.

Lemma run_ret_bind {A B : Type} (x : A) (k : A → M B) (w : World) :
  (mret x ≫= k) w = k x w.
Proof. reflexivity. Qed.

Lemma length_edited_before j lines : length (edited_before ui j lines) = length lines.
Proof. apply length_imap. Qed.

Lemma lookup_edited_before j lines i :
  edited_before ui j lines !! i =
  (λ line, if decide (i < j)%nat then edited_line ui i line else line) <$> lines !! i.
Proof. unfold edited_before. by rewrite list_lookup_imap. Qed.

Lemma edited_before_0 lines : edited_before ui 0 lines = lines.
Proof.
  apply list_eq. intros i. rewrite lookup_edited_before.
  destruct (lines !! i); [|done]. cbn [fmap option_fmap option_map].
  by rewrite decide_False by lia.
Qed.

Lemma edited_before_S j lines line :
  lines !! j = Some line →
  <[j := edited_line ui j line]> (edited_before ui j lines) = edited_before ui (S j) lines.
Proof.
  intros Hj. apply list_eq. intros i. rewrite lookup_edited_before.
  destruct (decide (i = j)) as [->|Hne].
  - rewrite list_lookup_insert_eq.
    2: { rewrite length_edited_before. by eapply lookup_lt_Some. }
    rewrite Hj. cbn [fmap option_fmap option_map]. by rewrite decide_True by lia.
  - rewrite list_lookup_insert_ne by done. rewrite lookup_edited_before.
    destruct (lines !! i); [|done]. cbn [fmap option_fmap option_map].
    destruct (decide (i < j)%nat), (decide (i < S j)%nat); try done; lia.
Qed.

Lemma script_line_at (w : World) j line :
  script w !! j = Some line → script_line (Z.of_nat j) w = (inr line, w).
Proof.
  intros Hj. unfold script_line.
  rewrite position_nat by (by eapply lookup_lt_Some). simpl. by rewrite Hj.
Qed.

Lemma shown_line w j line :
  script w !! j = Some line → script (shown ui w j) !! j = Some line.
Proof.
  intros Hj. simpl. rewrite lookup_edited_before, Hj.
  cbn [fmap option_fmap option_map]. by rewrite decide_False by lia.
Qed.

Lemma app_edit_step w j line :
  script w !! j = Some line → has_both_keys line →
  (line ← script_line (Z.of_nat j);
   speaker ← lift (subscript line "speaker");
   set_line_field j "speaker"
     (widget_value (text_input ui ("speaker_" +:+ PyStr.of_nat j) speaker)) ;;
   line ← script_line (Z.of_nat j);
   text ← lift (subscript line "text");
   set_line_field j "text"
     (widget_value (text_area ui ("line_" +:+ PyStr.of_nat j) text))) (shown ui w j)
  = (inr tt, shown ui w (S j)).
Proof.
  intros Hj (d & sp & tx & -> & Hsp & Htx).
  pose proof (shown_line _ _ _ Hj) as Hs.
  rewrite run_bind, (script_line_at _ _ _ Hs). cbv beta iota.
  simpl subscript. rewrite Hsp. simpl lift. rewrite run_ret_bind.
  rewrite run_bind. unfold set_line_field at 1. rewrite Hs. simpl store. cbv beta iota.
  set (d1 := PyDict.set d "speaker" _).
  set (w1 := set_script _ _).
  assert (script w1 !! j = Some (JDict d1)) as Hs1.
  { simpl. apply list_lookup_insert_eq. rewrite length_edited_before.
    by eapply lookup_lt_Some. }
  rewrite run_bind, (script_line_at _ _ _ Hs1). cbv beta iota.
  simpl subscript. unfold d1 at 1.
  rewrite dict_get_set_ne by done. rewrite Htx. simpl lift. rewrite run_ret_bind.
  unfold set_line_field. rewrite Hs1. simpl store. cbv beta iota.
  f_equal. unfold shown, w1, set_script. simpl. f_equal.
  rewrite list_insert_insert_eq. rewrite <- (edited_before_S j _ _ Hj).
  f_equal. unfold edited_line. by rewrite Hsp, Htx.
Qed.

Lemma shown_0 w : shown ui w 0 = w.
Proof. unfold shown. rewrite edited_before_0. by destruct w. Qed.

Lemma edited_before_all lines :
  edited_before ui (length lines) lines = imap (edited_line ui) lines.
Proof.
  apply list_eq. intros i. rewrite lookup_edited_before, list_lookup_imap.
  destruct (lines !! i) eqn:E; [|done]. cbn [fmap option_fmap option_map].
  rewrite decide_True; [done|]. by eapply lookup_lt_Some.
Qed.

Lemma app_step_3_run w :
  Forall has_both_keys (script w) →
  App.step_3 ui w =
    (inr tt,
     (if button ui "Proceed to Configuration" then set_current_step 4 else id)
       (set_script (imap (edited_line ui) (script w)) w)).
Proof.
  intros Hv. unfold App.step_3. rewrite run_gets, run_bind.
  rewrite <- (shown_0 w) at 2.
  rewrite (for_enumerate_steps _ _ (shown ui w) 0%nat).
  - unfold shown. rewrite edited_before_all. by destruct (button ui _).
  - intros j x Hj. apply (app_edit_step w j x Hj).
    by eapply (proj1 (Forall_lookup _ _) Hv).
Qed.

Lemma edited_line_fields i d speaker text :
  PyDict.get d "speaker" = Some speaker → PyDict.get d "text" = Some text →
  ∃ d', edited_line ui i (JDict d) = JDict d' ∧ d'.*1 = d.*1 ∧
    PyDict.get d' "speaker" =
      Some (widget_value (text_input ui (speaker_key i) speaker)) ∧
    PyDict.get d' "text" = Some (widget_value (text_area ui (line_key i) text)) ∧
    ∀ k, k ≠ "speaker" → k ≠ "text" → PyDict.get d' k = PyDict.get d k.
Proof.
  intros Hsp Htx. unfold edited_line. rewrite Hsp, Htx. eexists. split; [done|].
  split; [|split; [|split]].
  - rewrite !dict_set_present_keys; [done| by rewrite Hsp |].
    by rewrite dict_get_set_ne, Htx.
  - by rewrite dict_get_set_ne, dict_get_set_eq.
  - by rewrite dict_get_set_eq.
  - intros k H1 H2. by rewrite !dict_get_set_ne.
Qed.



Lemma pga_edit_step w j line :
  script w !! j = Some line → has_both_keys line → sliceable_text line = true →
  (line ← script_line (Z.of_nat j);
   _ ← lift (subscript line "speaker");
   text ← lift (subscript line "text");
   _ ← lift (slice_50 text);
   speaker ← lift (subscript line "speaker");
   set_line_field j "speaker"
     (widget_value (text_input ui ("speaker_" +:+ PyStr.of_nat j) speaker)) ;;
   line ← script_line (Z.of_nat j);
   _ ← lift (subscript line "speaker");
   text ← lift (subscript line "text");
   set_line_field j "text"
     (widget_value (text_area ui ("line_" +:+ PyStr.of_nat j) text))) (shown ui w j)
  = (inr tt, shown ui w (S j)).
Proof.
  intros Hj (d & sp & tx & -> & Hsp & Htx) Hsl.
  pose proof (shown_line _ _ _ Hj) as Hs.
  rewrite run_bind, (script_line_at _ _ _ Hs). cbv beta iota.
  unfold sliceable_text in Hsl. simpl subscript in *. rewrite Hsp, Htx in *.
  simpl lift. rewrite !run_ret_bind.
  assert (∃ v, slice_50 tx = inr v) as [v ->] by (destruct tx; by eauto).
  simpl lift. rewrite !run_ret_bind.
  rewrite run_bind. unfold set_line_field at 1. rewrite Hs. simpl store. cbv beta iota.
  set (d1 := PyDict.set d "speaker" _).
  set (w1 := set_script _ _).
  assert (script w1 !! j = Some (JDict d1)) as Hs1.
  { simpl. apply list_lookup_insert_eq. rewrite length_edited_before.
    by eapply lookup_lt_Some. }
  rewrite run_bind, (script_line_at _ _ _ Hs1). cbv beta iota.
  simpl subscript. unfold d1 at 1 2.
  rewrite dict_get_set_eq, dict_get_set_ne by done. rewrite Htx. simpl lift.
  rewrite !run_ret_bind.
  unfold set_line_field. rewrite Hs1. simpl store. cbv beta iota.
  f_equal. unfold shown, w1, set_script. simpl. f_equal.
  rewrite list_insert_insert_eq. rewrite <- (edited_before_S j _ _ Hj).
  f_equal. unfold edited_line. by rewrite Hsp, Htx.
Qed.

Lemma pga_edit_stop w j line :
  script w !! j = Some line → has_both_keys line → sliceable_text line = false →
  ∃ e,
  (line ← script_line (Z.of_nat j);
   _ ← lift (subscript line "speaker");
   text ← lift (subscript line "text");
   _ ← lift (slice_50 text);
   speaker ← lift (subscript line "speaker");
   set_line_field j "speaker"
     (widget_value (text_input ui ("speaker_" +:+ PyStr.of_nat j) speaker)) ;;
   line ← script_line (Z.of_nat j);
   _ ← lift (subscript line "speaker");
   text ← lift (subscript line "text");
   set_line_field j "text"
     (widget_value (text_area ui ("line_" +:+ PyStr.of_nat j) text))) (shown ui w j)
  = (inl e, shown ui w j) ∧ (scalar_text line = true → e = TypeError).
Proof.
  intros Hj (d & sp & tx & -> & Hsp & Htx) Hsl.
  pose proof (shown_line _ _ _ Hj) as Hs.
  rewrite run_bind, (script_line_at _ _ _ Hs). cbv beta iota.
  unfold sliceable_text, scalar_text in *. simpl subscript in *. rewrite Hsp, Htx in *.
  simpl lift. rewrite !run_ret_bind.
  destruct tx; try done; by eexists.
Qed.

Lemma first_false {A : Type} (P : A → bool) (l : list A) :
  forallb P l = false →
  ∃ k x, l !! k = Some x ∧ P x = false ∧
    ∀ j y, (j < k)%nat → l !! j = Some y → P y = true.
Proof.
  induction l as [|x l IH]; simpl; [done|]. destruct (P x) eqn:Hx; simpl.
  - intros (k & y & Hk & Hy & Hbefore)%IH. exists (S k), y. split; [done|]. split; [done|].
    intros [|j] z Hj Hz; simpl in Hz; [by injection Hz as <-|].
    apply (Hbefore j); [lia | done].
  - intros _. exists 0%nat, x. split; [done|]. split; [done|]. intros; lia.
Qed.


End EditScript.




(** ** The configuration page *)

Section Configure.
Context {AL : AudioLib}.
Variable ui : Env.
Variable w0 : World.

Lemma frame_refl : frame w0 w0.
Proof. by repeat split. Qed.

Lemma updates_modify (g : Config → Config) :
  updates w0 (modify (λ w, set_config (g (config w)) w)) g.
Proof. intros w w' Hf [= <-]. by split. Qed.

Lemma updates_ret : updates w0 (mret tt) id.
Proof. intros w w' Hf [= <-]. by split. Qed.

Lemma updates_seq m1 m2 F1 F2 :
  updates w0 m1 F1 → updates w0 m2 F2 → updates w0 (m1 ;; m2) (F2 ∘ F1).
Proof.
  intros H1 H2 w w' Hf H.
  apply run_bind_inv in H as [(e & _ & [=])|([] & w1 & Hm & Hk)].
  destruct (H1 _ _ Hf Hm) as [Hf1 Hc1]. destruct (H2 _ _ Hf1 Hk) as [Hf2 Hc2].
  split; [done|]. simpl. by rewrite Hc2, Hc1.
Qed.

Lemma updates_gets_config {A : Type} (g : Config → A) (k : A → M unit)
    (F : A → Config → Config) :
  (∀ x, updates w0 (k x) (F x)) →
  updates w0 (gets (λ w, g (config w)) ≫= k) (λ c, F (g c) c).
Proof. intros Hk w w' Hf H. rewrite run_gets in H. by apply (Hk _ w w'). Qed.

Lemma updates_widget_str (r : option string) (k : string → M unit)
    (F : string → Config → Config) :
  (∀ s, updates w0 (k s) (F s)) →
  updates w0 (widget_str r ≫= k) (F (default "" r)).
Proof.
  intros Hk w w' Hf H. destruct r as [s|]; [|done]. by apply (Hk s w w').
Qed.

Lemma updates_voice_options (k : list string → M unit) (F : Config → Config) :
  updates w0 (k (voice_names w0)) F → updates w0 (voice_options ≫= k) F.
Proof.
  intros Hk w w' Hf H. unfold voice_options in H. rewrite run_gets in H.
  pose proof Hf as (_ & Hv & _). rewrite Hv in H. by apply (Hk w w').
Qed.

Lemma updates_script (k : list json → M unit) (F : Config → Config) :
  updates w0 (k (script w0)) F → updates w0 (gets script ≫= k) F.
Proof.
  intros Hk w w' Hf H. rewrite run_gets in H.
  pose proof Hf as (Hs & _). rewrite Hs in H. by apply (Hk w w').
Qed.

Lemma updates_lift {A : Type} (r : exn + A) (x0 : A) (k : A → M unit)
    (F : A → Config → Config) :
  (∀ x, updates w0 (k x) (F x)) →
  updates w0 (lift r ≫= k) (F (match r with inr x => x | inl _ => x0 end)).
Proof.
  intros Hk w w' Hf H. destruct r as [e|x]; [done|]. by apply (Hk x w w').
Qed.

Lemma updates_when (b : bool) m F :
  updates w0 m F → updates w0 (when b m) (if b then F else id).
Proof. destruct b; [done | intros _; apply updates_ret]. Qed.

Lemma updates_for_each {A : Type} (body : A → M unit) (F : A → Config → Config) :
  (∀ x, updates w0 (body x) (F x)) →
  ∀ l, updates w0 (for_each l body) (λ c, foldl (λ c x, F x c) c l).
Proof.
  intros Hb. induction l as [|x l IH]; simpl; [apply updates_ret|].
  apply (updates_seq _ _ (F x) (λ c, foldl (λ c x, F x c) c l)); [apply Hb | apply IH].
Qed.

Lemma updates_ext m F G : (∀ c, F c = G c) → updates w0 m F → updates w0 m G.
Proof. intros HFG Hm w w' Hf H. destruct (Hm _ _ Hf H). split; [done|]. by rewrite <- HFG. Qed.

(** A sample is played: the configuration stays *)
Lemma play_sample_keeps name : updates w0 (play_sample ui name) id.
Proof.
  intros w w' Hf H. unfold play_sample in H.
  apply run_bind_inv in H as [(e & _ & [=])|(vd & w1 & Hm & Hk)].
  destruct (reads_voice_data name w) as (r & Hr & _). rewrite Hr in Hm.
  injection Hm as -> <-.
  destruct (samples vd) as [|sid ?]; [by injection Hk as <-|].
  unfold get_voice_sample in Hk.
  destruct (get_audio ui (voice_id vd) sid); injection Hk as <-; by split.
Qed.

Lemma updates_read {A : Type} (m : M A) (k : A → M unit) :
  reads m → (∀ x, updates w0 (k x) id) → updates w0 (m ≫= k) id.
Proof.
  intros Hm Hk w w' Hf H.
  apply run_bind_inv in H as [(e & _ & [=])|(x & w1 & Hx & H)].
  destruct (Hm w) as (r & Hr & _). rewrite Hr in Hx. injection Hx as -> <-.
  by apply (Hk x w w').
Qed.

Lemma run_when_play (b : bool) (voice : M (option string)) (k : M unit) w w' :
  frame w0 w → reads voice →
  (when b (name ← voice; play_sample ui name) ;; k) w = (inr tt, w') →
  ∃ w1, frame w0 w1 ∧ config w1 = config w ∧ k w1 = (inr tt, w').
Proof.
  intros Hf Hv H.
  apply run_bind_inv in H as [(e & _ & [=])|([] & w1 & Hm & Hk)].
  assert (updates w0 (when b (name ← voice; play_sample ui name))
            (if b then id else id)) as Hu.
  { apply updates_when. apply updates_read; [done|].
    intros; apply play_sample_keeps. }
  destruct (Hu _ _ Hf Hm) as [Hf1 Hc].
  exists w1. split; [done|]. split; [|done]. rewrite Hc. by destruct b.
Qed.

Lemma select_voice_updates podcaster :
  updates w0
    (options' ← voice_options;
     modify (λ w, set_config
                    (set_podcasters
                       (<[podcaster := selectbox ui ("voice_" +:+ podcaster) options']>
                          (podcasters (config w)))
                       (config w)) w) ;;
     when (button ui ("sample_" +:+ podcaster)) (
       name ← podcaster_voice (JStr podcaster);
       play_sample ui name))
    (λ c, set_podcasters
            (<[podcaster := selectbox ui ("voice_" +:+ podcaster) (voice_names w0)]>
               (podcasters c)) c).
Proof.
  apply updates_voice_options.
  set (G := λ c : Config,
    set_podcasters
      (<[podcaster := selectbox ui ("voice_" +:+ podcaster) (voice_names w0)]>
         (podcasters c)) c).
  apply (updates_ext _ (id ∘ G) G); [done|].
  apply updates_seq; [apply (updates_modify G)|].
  apply (updates_ext _ (if button ui ("sample_" +:+ podcaster) then id else id) id);
    [by destruct (button ui _)|].
  apply updates_when. apply updates_read; [apply reads_podcaster_voice|].
  intros name. apply play_sample_keeps.
Qed.

Lemma select_voices_updates (order : list string) :
  updates w0
    (for_each order (λ podcaster,
       options ← voice_options;
       modify (λ w, set_config
                      (set_podcasters
                         (<[podcaster := selectbox ui ("voice_" +:+ podcaster) options]>
                            (podcasters (config w)))
                         (config w)) w) ;;
       when (button ui ("sample_" +:+ podcaster)) (
         name ← podcaster_voice (JStr podcaster);
         play_sample ui name)))
    (λ c, set_podcasters (selected ui (voice_names w0) order (podcasters c)) c).
Proof.
  eapply updates_ext; [|apply updates_for_each; intros p; apply select_voice_updates].
  intros c. simpl. unfold selected. revert c.
  induction order as [|p order IH]; intros c; simpl; [by destruct c|].
  by rewrite IH.
Qed.

End Configure.

Section ConfigureRun.
Context {AL : AudioLib}.
Variable ui : Env.

Lemma run_voice_options {B : Type} (k : list string → M B) (w : World) :
  (voice_options ≫= k) w = k (voice_names w) w.
Proof. reflexivity. Qed.

Lemma step_4_run w w' :
  App.step_4 ui w = (inr tt, w') →
  ∃ names,
    speakers (script w) = inr names ∧ frame w w' ∧
    intro_voice (config w') = selectbox ui "intro_voice" (voice_names w) ∧
    outro_voice (config w') = selectbox ui "outro_voice" (voice_names w) ∧
    podcasters (config w') =
      selected ui (voice_names w) (set_order ui names) (podcasters (config w)) ∧
    text_area ui "Intro Text:" (JStr (intro_text (config w))) =
      Some (intro_text (config w')) ∧
    text_area ui "Outro Text:" (JStr (outro_text (config w))) =
      Some (outro_text (config w')) ∧
    intro_music (config w') = file_uploader ui "Upload Intro Music (MP3)".
Proof.
  intros H. unfold App.step_4 in H. rewrite run_gets in H.
  destruct (text_area ui "Intro Text:" _) as [intro|] eqn:Hintro; [|done].
  simpl widget_str in H. rewrite run_ret_bind, run_modify in H.
  rewrite run_voice_options, run_modify in H.
  match type of H with (_ ;; _) ?w1 = _ => set (wa := w1) in H end.
  assert (frame w wa) as Hfa by (by repeat split).
  apply (run_when_play ui w) in H as (wb & Hfb & Hcb & H);
    [|done|apply reads_gets].
  rewrite run_gets in H. rewrite Hcb in H. simpl outro_text in H.
  destruct (text_area ui "Outro Text:" _) as [outro|] eqn:Houtro; [|done].
  simpl widget_str in H. rewrite run_ret_bind, run_modify in H.
  rewrite run_voice_options, run_modify in H.
  match type of H with (_ ;; _) ?w1 = _ => set (wc := w1) in H end.
  assert (frame w wc) as Hfc.
  { destruct Hfb as (?&?&?&?&?&?&?). by repeat split. }
  apply (run_when_play ui w) in H as (wd & Hfd & Hcd & H);
    [|done|apply reads_gets].
  rewrite run_gets in H. pose proof Hfd as (Hsd & Hvd & _). rewrite Hsd in H.
  destruct (speakers (script w)) as [e|names] eqn:Hnames; [done|].
  simpl lift in H. rewrite run_ret_bind in H.
  apply run_bind_inv in H as [(e & _ & [=])|([] & we & Hloop & H)].
  apply (select_voices_updates ui w _ _ _ Hfd) in Hloop as (Hfe & Hce).
  rewrite !run_modify in H.
  match type of H with when _ _ ?w1 = _ => set (wf := w1) in H end.
  assert (w' = (if button ui "Proceed to Audio Generation"
                then set_current_step 5 wf else wf)) as ->.
  { destruct (button ui _); by injection H. }
  clear H. exists names. split; [done|].
  split.
  { destruct Hfe as (?&?&?&?&?&?&?). by destruct (button ui _); repeat split. }
  assert (∀ x : World,
    config (if button ui "Proceed to Audio Generation"
            then set_current_step 5 x else x) = config x) as Hb
    by (intros; by destruct (button ui _)).
  rewrite Hb. unfold wf. simpl. rewrite Hce, Hcd. unfold wc. simpl. rewrite Hcb.
  unfold wa. simpl. unfold voice_names. simpl.
  rewrite (proj1 (proj2 Hfb)). done.
Qed.

Lemma selected_lookup options order (m : gmap string (option string)) s :
  selected ui options order m !! s =
  if decide (s ∈ order) then Some (selectbox ui ("voice_" +:+ s) options) else m !! s.
Proof.
  unfold selected. revert m. induction order as [|p order IH]; intros m; simpl; [done|].
  rewrite IH. destruct (decide (s ∈ order)) as [Hin|Hin].
  - rewrite decide_True; [done | by right].
  - destruct (decide (s = p)) as [->|Hne].
    + rewrite decide_True by left. by rewrite lookup_insert_eq.
    + rewrite decide_False; [by rewrite lookup_insert_ne|].
      by intros [->|?]%elem_of_cons.
Qed.

Lemma speakers_spec lines names :
  speakers lines = inr names →
  (∀ s, s ∈ names ↔ speaker_of lines s) ∧
  Forall (λ line, ∃ s, subscript line "speaker" = inr (JStr s)) lines.
Proof.
  revert names. induction lines as [|line lines IH]; intros names; simpl.
  - intros [= <-]. split; [|done]. intros s. split; [by intros ?%elem_of_nil|].
    by intros (? & ?%elem_of_nil & _).
  - destruct (subscript line "speaker") as [|[| | |s0| |]] eqn:Hsp; try done.
    destruct (speakers lines) as [|l]; [done|]. intros [= <-].
    destruct (IH l eq_refl) as [Hl Hall]. split; [|constructor; [by exists s0 | done]].
    intros s. rewrite elem_of_cons, Hl. split.
    + intros [->|(line' & Hin & Hs)]; [exists line; split; [by left | done]|].
      exists line'. split; [by right | done].
    + intros (line' & [->|Hin]%elem_of_cons & Hs).
      * left. congruence.
      * right. by exists line'.
Qed.


Lemma voice_names_lookup (w : World) name :
  name ∈ voice_names w → is_Some (available_voices w !! name).
Proof.
  unfold voice_names. intros ([n vd] & -> & Hin)%list_elem_of_fmap.
  apply elem_of_map_to_list in Hin. by exists vd.
Qed.

Lemma voice_names_nonempty (w : World) :
  available_voices w ≠ ∅ → voice_names w ≠ [].
Proof.
  intros Hne Hnil. apply Hne. apply map_to_list_empty_iff.
  unfold voice_names in Hnil. by destruct (map_to_list _).
Qed.

Lemma selectbox_voice (w : World) key :
  EnvLaws ui → available_voices w ≠ ∅ →
  ∃ name vd, selectbox ui key (voice_names w) = Some name ∧
    available_voices w !! name = Some vd.
Proof.
  intros Hui Hne. pose proof (selectbox_option ui Hui key (voice_names w)) as Hsel.
  destruct (selectbox ui key (voice_names w)) as [name|].
  - destruct (voice_names_lookup w name Hsel) as [vd Hvd]. by exists name, vd.
  - by apply voice_names_nonempty in Hne.
Qed.


End ConfigureRun.

Lemma demo_env_laws : EnvLaws demo_env.
Proof.
  split.
  - intros key [|v options]; simpl; [done | by left].
  - intros l x. simpl. apply elem_of_remove_dups.
Qed.



(** ** Displaying the segments *)

Section Display.
Context {AL : AudioLib}.

Lemma show_line (w : World) (j : nat) :
  Forall has_both_keys (script w) → (j < length (script w))%nat →
  App.show_segment (line_label j) w = (inr tt, w).
Proof.
  intros Hv Hj. unfold App.show_segment.
  destruct (line_label_not_intro j) as [-> ->].
  rewrite run_bind, line_index_line_label. cbv beta iota.
  destruct (lookup_lt_is_Some_2 _ _ Hj) as [line Hline].
  rewrite run_bind, (script_line_at _ _ _ Hline). cbv beta iota.
  destruct (proj1 (Forall_lookup _ _) Hv j line Hline) as (d & sp & tx & -> & Hsp & Htx).
  simpl subscript. rewrite Hsp. simpl lift. rewrite run_ret_bind.
  rewrite run_bind, (script_line_at _ _ _ Hline). cbv beta iota.
  simpl subscript. rewrite Htx. done.
Qed.

Lemma show_line_stale (w : World) (j : nat) :
  (length (script w) ≤ j)%nat →
  App.show_segment (line_label j) w = (inl IndexError, w).
Proof.
  intros Hj. unfold App.show_segment.
  destruct (line_label_not_intro j) as [-> ->].
  rewrite run_bind, line_index_line_label. cbv beta iota.
  rewrite run_bind. unfold script_line, PyList.position.
  replace (Z.of_nat j <? Z.of_nat (length (script w))) with false
    by (symmetry; apply Z.ltb_ge; lia).
  replace (Z.of_nat j <? 0) with false by (symmetry; apply Z.ltb_ge; lia).
  by rewrite andb_false_r.
Qed.

Lemma lookup_line_labels n j :
  line_labels n !! j = if decide (j < n)%nat then Some (line_label j) else None.
Proof.
  unfold line_labels. rewrite list_lookup_fmap.
  destruct (decide (j < n)%nat) as [Hj|Hj].
  - by rewrite lookup_seq_lt.
  - by rewrite lookup_seq_ge by lia.
Qed.

(** The label at a position of a complete pass *)
Lemma pass_label_cases (c0 : Config) (n j : nat) (label : string) :
  (intro_labels c0 ++ line_labels n ++ outro_labels c0) !! j = Some label →
  label = "Intro" ∨ label = "Outro" ∨
  ∃ i, (i < n)%nat ∧ (i ≤ j)%nat ∧ label = line_label i.
Proof.
  intros [Hj|[_ Hj]]%lookup_app_Some.
  - left. unfold intro_labels in Hj. destruct (PyStr.truthy _); [|done].
    destruct j; [by injection Hj|done].
  - apply lookup_app_Some in Hj as [Hj|[_ Hj]].
    + right. right. rewrite lookup_line_labels in Hj.
      destruct (decide _) as [Hlt|]; [|done]. injection Hj as <-.
      eexists. split; [done|]. split; [lia | done].
    + right. left. unfold outro_labels in Hj. destruct (PyStr.truthy _); [|done].
      destruct (j - _ - _)%nat; [by injection Hj|done].
Qed.

Lemma pass_label_line (c0 : Config) (n m : nat) :
  (m < n)%nat →
  (intro_labels c0 ++ line_labels n ++ outro_labels c0)
    !! (length (intro_labels c0) + m)%nat = Some (line_label m).
Proof.
  intros Hm. rewrite lookup_app_r by lia.
  replace (length (intro_labels c0) + m - length (intro_labels c0))%nat with m by lia.
  rewrite lookup_app_l by (rewrite length_line_labels; lia).
  rewrite lookup_line_labels. by rewrite decide_True.
Qed.

Lemma pass_label_before (c0 : Config) (n m j : nat) (label : string) :
  (j < length (intro_labels c0) + m)%nat → (m ≤ n)%nat →
  (intro_labels c0 ++ line_labels n ++ outro_labels c0) !! j = Some label →
  label = "Intro" ∨ ∃ i, (i < m)%nat ∧ label = line_label i.
Proof.
  intros Hj Hm [Hl|[Hge Hl]]%lookup_app_Some.
  - left. unfold intro_labels in Hl. destruct (PyStr.truthy _); [|done].
    destruct j; [by injection Hl|done].
  - right. rewrite lookup_app_l in Hl by (rewrite length_line_labels; lia).
    rewrite lookup_line_labels in Hl. destruct (decide _); [|done].
    injection Hl as <-. exists (j - length (intro_labels c0))%nat. split; [lia | done].
Qed.


End Display.


(** ** The request of a regeneration *)

Section RegenerateRequest.
Context {AL : AudioLib}.

Lemma synthesis_calls text vid vs (upd : M unit) i label w w' :
  (∀ w1 w2 r, upd w1 = (r, w2) → tts_calls w2 = tts_calls w1) →
  (new_audio ← (a ← generate_audio text vid vs; upd ;; mret a);
   set_segment i (label, new_audio)) w = (inr tt, w') →
  tts_calls w' = tts_calls w ++
    [{| req_text := text; req_voice_id := vid; req_settings := vs |}].
Proof.
  intros Hupd H.
  apply run_bind_inv in H as [(e & _ & [=])|(a & w3 & H & Hset)].
  apply run_bind_inv in H as [(e & _ & [=])|(a' & w1 & Hgen & H)].
  apply run_bind_inv in H as [(e & _ & [=])|([] & w2 & Hu & H)].
  injection H as -> ->. apply Hupd in Hu.
  unfold set_segment in Hset. destruct (decide _); [|done]. injection Hset as <-.
  simpl. rewrite Hu. unfold generate_audio in Hgen.
  by destruct (tts_pending w) as [|[?|] ?]; simplify_eq.
Qed.

Lemma fixed_text_calls (voice : Config → option string)
    (set_text : string → Config → Config) i label new_text w w' :
  (new_audio ←
     (name ← gets (λ w, voice (config w));
      vd ← voice_data name;
      vs ← gets (λ w, voice_settings (config w));
      a ← generate_audio (JStr new_text) (voice_id vd) vs;
      modify (λ w, set_config (set_text new_text (config w)) w) ;;
      mret a);
   set_segment i (label, new_audio)) w = (inr tt, w') →
  ∃ req, request_of w (JStr new_text) (voice (config w)) = Some req ∧
    tts_calls w' = tts_calls w ++ [req].
Proof.
  intros H. rewrite run_bind, run_gets, run_bind in H. unfold voice_data in H.
  unfold request_of.
  destruct (voice (config w)) as [n|]; [|done]. simpl.
  destruct (available_voices w !! n) as [vd|]; [|done]. simpl.
  eexists. split; [done|]. rewrite run_gets in H.
  eapply (synthesis_calls _ _ _ _ i label).
  2: { rewrite run_bind. exact H. }
  by intros w1 w2 r [= _ <-].
Qed.

Lemma set_line_text_calls idx new_text (w1 w2 : World) r :
  set_line_text idx new_text w1 = (r, w2) → tts_calls w2 = tts_calls w1.
Proof.
  unfold set_line_text. intros H.
  destruct (PyList.position _ _); [|by injection H as _ <-].
  destruct (script w1 !! n); [|by injection H as _ <-].
  destruct (store _ _ _); by injection H as _ <-.
Qed.

Lemma line_text_calls i j new_text w w' :
  (new_audio ←
     (idx ← line_index (line_label j);
      line ← script_line idx;
      speaker ← lift (subscript line "speaker");
      voice_name ← podcaster_voice speaker;
      vd ← voice_data voice_name;
      vs ← gets (λ w, voice_settings (config w));
      a ← generate_audio (JStr new_text) (voice_id vd) vs;
      set_line_text idx new_text ;;
      mret a);
   set_segment i (line_label j, new_audio)) w = (inr tt, w') →
  ∃ name req, line_voice w j = Some name ∧
    request_of w (JStr new_text) name = Some req ∧
    tts_calls w' = tts_calls w ++ [req].
Proof.
  intros H. rewrite run_bind, run_bind, line_index_line_label in H. cbv beta iota in H.
  rewrite run_bind in H. unfold line_voice.
  destruct (script w !! j) as [line|] eqn:Hline.
  2: { apply lookup_ge_None in Hline. unfold script_line, PyList.position in H.
       replace (Z.of_nat j <? Z.of_nat (length (script w))) with false in H
         by (symmetry; apply Z.ltb_ge; lia).
       replace (Z.of_nat j <? 0) with false in H by (symmetry; apply Z.ltb_ge; lia).
       by rewrite andb_false_r in H. }
  rewrite (script_line_at _ _ _ Hline) in H. cbv beta iota in H.
  rewrite run_bind in H. simpl.
  destruct (subscript line "speaker") as [e|sp]; [done|]. simpl lift in H.
  change ((mret sp : M json) w) with (inr sp : exn + json, w) in H. cbv beta iota in H.
  rewrite run_bind in H. unfold podcaster_voice in H.
  destruct sp as [| | |s| |]; try done.
  destruct (podcasters (config w) !! s) as [name|]; [|done].
  exists name. rewrite run_bind in H. unfold voice_data in H. unfold request_of.
  destruct name as [n|]; [|done]. simpl.
  destruct (available_voices w !! n) as [vd|]; [|done]. simpl.
  eexists. split; [done|]. split; [done|]. rewrite run_gets in H.
  eapply (synthesis_calls _ _ _ _ i (line_label j)).
  2: { rewrite run_bind. exact H. }
  intros w1 w2 r. apply set_line_text_calls.
Qed.


End RegenerateRequest.


(** ** The export link *)

Section Ascii.

Lemma all_chars_app P a b :
  all_chars P (a +:+ b) = all_chars P a && all_chars P b.
Proof. induction a as [|c a IH]; simpl; [done|]. by rewrite IH, andb_assoc. Qed.

Lemma escape_char_ascii c : all_chars is_ascii (Json.escape_char c) = true.
Proof. destruct c as [[] [] [] [] [] [] [] []]; by vm_compute. Qed.

Lemma encode_string_ascii s : all_chars is_ascii (Json.encode_string s) = true.
Proof.
  unfold Json.encode_string. simpl. rewrite all_chars_app. simpl.
  rewrite andb_true_r. induction s as [|c s IH]; simpl; [done|].
  by rewrite all_chars_app, escape_char_ascii, IH.
Qed.

Lemma digit_implies (P : ascii → bool) s :
  (∀ c, PyStr.isdigit c = true → P c = true) →
  all_chars PyStr.isdigit s = true → all_chars P s = true.
Proof.
  intros HP. induction s as [|c s IH]; simpl; [done|].
  intros [Hc Hs]%andb_prop. by rewrite (HP c Hc), IH.
Qed.

Lemma isdigit_ascii c : PyStr.isdigit c = true → is_ascii c = true.
Proof. destruct c as [[] [] [] [] [] [] [] []]; by vm_compute. Qed.

Lemma of_Z_ascii n : all_chars is_ascii (PyStr.of_Z n) = true.
Proof.
  unfold PyStr.of_Z, NilEmpty.string_of_int.
  destruct (Z.to_int n) as [d|d]; simpl;
    apply (digit_implies _ _ isdigit_ascii), digits_string_of_uint.
Qed.

Lemma spaces_ascii n : all_chars is_ascii (Json.spaces n) = true.
Proof. induction n; simpl; auto. Qed.

Lemma newline_indent_ascii level : all_chars is_ascii (Json.newline_indent level) = true.
Proof. unfold Json.newline_indent. simpl. apply spaces_ascii. Qed.

Lemma all_ascii_app a b :
  all_chars is_ascii a = true → all_chars is_ascii b = true →
  all_chars is_ascii (a +:+ b) = true.
Proof. intros Ha Hb. by rewrite all_chars_app, Ha, Hb. Qed.

Lemma encode_items_ascii level xs :
  Forall (λ v, ∀ level, all_chars is_ascii (Json.encode level v) = true) xs →
  all_chars is_ascii (encode_items level xs) = true.
Proof.
  induction 1 as [|y ys Hy _ IH]; [done|].
  change (encode_items level (y :: ys)) with
    ("," +:+ Json.newline_indent (S level) +:+ Json.encode (S level) y +:+
     encode_items level ys).
  repeat first [ apply newline_indent_ascii | apply Hy | apply IH | reflexivity
               | apply all_ascii_app ].
Qed.

Lemma encode_fields_ascii level xs :
  Forall (λ kv : string * json,
            ∀ level, all_chars is_ascii (Json.encode level kv.2) = true) xs →
  all_chars is_ascii (encode_fields level xs) = true.
Proof.
  induction 1 as [|[k y] ys Hy _ IH]; [done|].
  change (encode_fields level ((k, y) :: ys)) with
    ("," +:+ Json.newline_indent (S level) +:+
     Json.encode_string k +:+ ": " +:+ Json.encode (S level) y +:+
     encode_fields level ys).
  repeat first [ apply newline_indent_ascii | apply encode_string_ascii
               | apply Hy | apply IH | reflexivity | apply all_ascii_app ].
Qed.

Lemma encode_ascii (v : json) : ∀ level, all_chars is_ascii (Json.encode level v) = true.
Proof.
  induction v as [|b|n|s|items IH|fields IH] using json_ind; intros level.
  - done.
  - by destruct b.
  - apply of_Z_ascii.
  - apply encode_string_ascii.
  - destruct items as [|x xs]; [done|].
    change (Json.encode level (JList (x :: xs))) with
      ("[" +:+ Json.newline_indent (S level) +:+ Json.encode (S level) x +:+
       encode_items level xs +:+ Json.newline_indent level +:+ "]").
    apply Forall_cons in IH as [Hx Hxs].
    repeat first [ apply newline_indent_ascii | apply Hx
                 | apply (encode_items_ascii _ _ Hxs) | reflexivity
                 | apply all_ascii_app ].
  - destruct fields as [|[k x] xs]; [done|].
    change (Json.encode level (JDict ((k, x) :: xs))) with
      ("{" +:+ Json.newline_indent (S level) +:+
       Json.encode_string k +:+ ": " +:+ Json.encode (S level) x +:+
       encode_fields level xs +:+ Json.newline_indent level +:+ "}").
    apply Forall_cons in IH as [Hx Hxs].
    repeat first [ apply newline_indent_ascii | apply encode_string_ascii
                 | apply Hx | apply (encode_fields_ascii _ _ Hxs) | reflexivity
                 | apply all_ascii_app ].
Qed.

Lemma dumps_ascii (v : json) : all_chars is_ascii (Json.dumps v) = true.
Proof. apply encode_ascii. Qed.

Lemma encode_ascii_id s : all_chars is_ascii s = true → PyStr.encode s = s.
Proof.
  induction s as [|c s IH]; simpl; [done|]. intros [Hc Hs]%andb_prop.
  unfold is_ascii in Hc. rewrite Hc. by rewrite IH.
Qed.

End Ascii.

Section Base64Facts.

Lemma below_64 (n : N) : (n < 64)%N → ∃ k : nat, (k < 64)%nat ∧ n = N.of_nat k.
Proof. intros Hn. exists (N.to_nat n). split; lia. Qed.

Lemma digit_base64 n :
  (n < 64)%N → is_base64 (Base64.digit n) = true ∧ Base64.digit n ≠ "="%char.
Proof.
  intros (k & Hk & ->)%below_64.
  do 64 (destruct k as [|k]; [by vm_compute|]). lia.
Qed.

Lemma undigit_digit n : (n < 64)%N → undigit (Base64.digit n) = n.
Proof.
  intros (k & Hk & ->)%below_64.
  do 64 (destruct k as [|k]; [by vm_compute|]). lia.
Qed.

Lemma digit_inj n m :
  (n < 64)%N → (m < 64)%N → Base64.digit n = Base64.digit m → n = m.
Proof.
  intros Hn Hm H. rewrite <- (undigit_digit n Hn), <- (undigit_digit m Hm). by rewrite H.
Qed.

Lemma code_inj x y : PyStr.code x = PyStr.code y → x = y.
Proof.
  unfold PyStr.code. intros H.
  rewrite <- (ascii_N_embedding x), <- (ascii_N_embedding y). by rewrite H.
Qed.

Lemma code_below x : (PyStr.code x < 256)%N.
Proof. apply N_ascii_bounded. Qed.

(** Three bytes from their four digits *)
Lemma group_inj (a b c a' b' c' : N) :
  (a < 256 → b < 256 → c < 256 → a' < 256 → b' < 256 → c' < 256 →
   a / 4 = a' / 4 → a mod 4 * 16 + b / 16 = a' mod 4 * 16 + b' / 16 →
   b mod 16 * 4 + c / 64 = b' mod 16 * 4 + c' / 64 → c mod 64 = c' mod 64 →
   a = a' ∧ b = b' ∧ c = c')%N.
Proof.
  intros Ha Hb Hc Ha' Hb' Hc'.
  pose proof (N.div_mod a 4 ltac:(lia)). pose proof (N.mod_lt a 4 ltac:(lia)).
  pose proof (N.div_mod b 16 ltac:(lia)). pose proof (N.mod_lt b 16 ltac:(lia)).
  pose proof (N.div_mod c 64 ltac:(lia)). pose proof (N.mod_lt c 64 ltac:(lia)).
  pose proof (N.div_mod a' 4 ltac:(lia)). pose proof (N.mod_lt a' 4 ltac:(lia)).
  pose proof (N.div_mod b' 16 ltac:(lia)). pose proof (N.mod_lt b' 16 ltac:(lia)).
  pose proof (N.div_mod c' 64 ltac:(lia)). pose proof (N.mod_lt c' 64 ltac:(lia)).
  generalize dependent (a / 4)%N. generalize dependent (a mod 4)%N.
  generalize dependent (b / 16)%N. generalize dependent (b mod 16)%N.
  generalize dependent (c / 64)%N. generalize dependent (c mod 64)%N.
  generalize dependent (a' / 4)%N. generalize dependent (a' mod 4)%N.
  generalize dependent (b' / 16)%N. generalize dependent (b' mod 16)%N.
  generalize dependent (c' / 64)%N. generalize dependent (c' mod 64)%N.
  intros. lia.
Qed.

Lemma sextets (a b c : N) :
  (a < 256 → b < 256 → c < 256 →
   a / 4 < 64 ∧ a mod 4 * 16 + b / 16 < 64 ∧ b mod 16 * 4 + c / 64 < 64 ∧
   c mod 64 < 64 ∧ a mod 4 * 16 < 64 ∧ b mod 16 * 4 < 64)%N.
Proof.
  intros Ha Hb Hc.
  pose proof (N.div_mod a 4 ltac:(lia)). pose proof (N.mod_lt a 4 ltac:(lia)).
  pose proof (N.div_mod b 16 ltac:(lia)). pose proof (N.mod_lt b 16 ltac:(lia)).
  pose proof (N.div_mod c 64 ltac:(lia)). pose proof (N.mod_lt c 64 ltac:(lia)).
  generalize dependent (a / 4)%N. generalize dependent (a mod 4)%N.
  generalize dependent (b / 16)%N. generalize dependent (b mod 16)%N.
  generalize dependent (c / 64)%N. generalize dependent (c mod 64)%N.
  intros. lia.
Qed.

Lemma group_inj_1 (a a' : N) :
  (a < 256 → a' < 256 → a / 4 = a' / 4 → a mod 4 * 16 = a' mod 4 * 16 → a = a')%N.
Proof.
  intros Ha Ha'.
  pose proof (N.div_mod a 4 ltac:(lia)). pose proof (N.div_mod a' 4 ltac:(lia)).
  generalize dependent (a / 4)%N. generalize dependent (a mod 4)%N.
  generalize dependent (a' / 4)%N. generalize dependent (a' mod 4)%N.
  intros. lia.
Qed.

Lemma group_inj_2 (a b a' b' : N) :
  (a < 256 → b < 256 → a' < 256 → b' < 256 →
   a / 4 = a' / 4 → a mod 4 * 16 + b / 16 = a' mod 4 * 16 + b' / 16 →
   b mod 16 * 4 = b' mod 16 * 4 → a = a' ∧ b = b')%N.
Proof.
  intros Ha Hb Ha' Hb'.
  pose proof (N.div_mod a 4 ltac:(lia)). pose proof (N.mod_lt a 4 ltac:(lia)).
  pose proof (N.div_mod b 16 ltac:(lia)). pose proof (N.mod_lt b 16 ltac:(lia)).
  pose proof (N.div_mod a' 4 ltac:(lia)). pose proof (N.mod_lt a' 4 ltac:(lia)).
  pose proof (N.div_mod b' 16 ltac:(lia)). pose proof (N.mod_lt b' 16 ltac:(lia)).
  generalize dependent (a / 4)%N. generalize dependent (a mod 4)%N.
  generalize dependent (b / 16)%N. generalize dependent (b mod 16)%N.
  generalize dependent (a' / 4)%N. generalize dependent (a' mod 4)%N.
  generalize dependent (b' / 16)%N. generalize dependent (b' mod 16)%N.
  intros. lia.
Qed.

Lemma string_ind3 (P : string → Prop) :
  P "" → (∀ x, P (String x "")) → (∀ x y, P (String x (String y ""))) →
  (∀ x y z r, P r → P (String x (String y (String z r)))) →
  ∀ s, P s.
Proof.
  intros H0 H1 H2 H3 s.
  assert (P s ∧ (∀ x, P (String x s)) ∧ (∀ x y, P (String x (String y s)))) as [? _];
    [|done].
  induction s as [|z r (IH0 & IH1 & IH2)]; [done|].
  split; [apply IH1|]. split; [intros x; apply IH2|]. intros x y. by apply H3.
Qed.

Lemma b64encode_base64 bs : all_chars is_base64 (Base64.b64encode bs) = true.
Proof.
  induction bs as [|x|x y|x y z r IH] using string_ind3.
  - done.
  - destruct (sextets (PyStr.code x) 0 0) as (H1 & _ & _ & _ & H2 & _);
      [apply code_below | done | done |].
    simpl. by rewrite (proj1 (digit_base64 _ H1)), (proj1 (digit_base64 _ H2)).
  - destruct (sextets (PyStr.code x) (PyStr.code y) 0) as (H1 & H2 & _ & _ & _ & H3);
      [apply code_below | apply code_below | done |].
    simpl. by rewrite (proj1 (digit_base64 _ H1)), (proj1 (digit_base64 _ H2)),
      (proj1 (digit_base64 _ H3)).
  - destruct (sextets (PyStr.code x) (PyStr.code y) (PyStr.code z))
      as (H1 & H2 & H3 & H4 & _); [apply code_below..|].
    simpl. by rewrite (proj1 (digit_base64 _ H1)), (proj1 (digit_base64 _ H2)),
      (proj1 (digit_base64 _ H3)), (proj1 (digit_base64 _ H4)), IH.
Qed.

Lemma b64encode_inj bs1 : ∀ bs2,
  Base64.b64encode bs1 = Base64.b64encode bs2 → bs1 = bs2.
Proof.
  induction bs1 as [|x|x y|x y z r IH] using string_ind3;
    intros bs2; destruct bs2 as [|x' [|y' [|z' r']]]; try (simpl; discriminate).
  - done.
  - destruct (sextets (PyStr.code x) 0 0) as (H1 & _ & _ & _ & H2 & _);
      [apply code_below | done | done |].
    destruct (sextets (PyStr.code x') 0 0) as (H1' & _ & _ & _ & H2' & _);
      [apply code_below | done | done |].
    simpl. intros [= E1 E2]. apply digit_inj in E1, E2; try done.
    f_equal. apply code_inj. apply group_inj_1; auto using code_below.
  - destruct (sextets (PyStr.code x') (PyStr.code y') 0) as (_ & _ & _ & _ & _ & H3');
      [apply code_below | apply code_below | done |].
    simpl. intros [= _ _ E]. by destruct (proj2 (digit_base64 _ H3')).
  - destruct (sextets (PyStr.code x') (PyStr.code y') (PyStr.code z'))
      as (_ & _ & H3' & _); [apply code_below..|].
    simpl. intros [= _ _ E]. by destruct (proj2 (digit_base64 _ H3')).
  - destruct (sextets (PyStr.code x) (PyStr.code y) 0) as (_ & _ & _ & _ & _ & H3);
      [apply code_below | apply code_below | done |].
    simpl. intros [= _ _ E]. by destruct (proj2 (digit_base64 _ H3)).
  - destruct (sextets (PyStr.code x) (PyStr.code y) 0) as (H1 & H2 & _ & _ & _ & H3);
      [apply code_below | apply code_below | done |].
    destruct (sextets (PyStr.code x') (PyStr.code y') 0) as (H1' & H2' & _ & _ & _ & H3');
      [apply code_below | apply code_below | done |].
    simpl. intros [= E1 E2 E3]. apply digit_inj in E1, E2, E3; try done.
    destruct (group_inj_2 _ _ _ _ (code_below x) (code_below y) (code_below x')
                (code_below y') E1 E2 E3) as [Ex Ey].
    by rewrite (code_inj _ _ Ex), (code_inj _ _ Ey).
  - destruct (sextets (PyStr.code x') (PyStr.code y') (PyStr.code z'))
      as (_ & _ & _ & H4' & _); [apply code_below..|].
    simpl. intros [= _ _ _ E]. by destruct (proj2 (digit_base64 _ H4')).
  - destruct (sextets (PyStr.code x) (PyStr.code y) (PyStr.code z))
      as (_ & _ & H3 & _); [apply code_below..|].
    simpl. intros [= _ _ E]. by destruct (proj2 (digit_base64 _ H3)).
  - destruct (sextets (PyStr.code x) (PyStr.code y) (PyStr.code z))
      as (_ & _ & _ & H4 & _); [apply code_below..|].
    simpl. intros [= _ _ _ E]. by destruct (proj2 (digit_base64 _ H4)).
  - destruct (sextets (PyStr.code x) (PyStr.code y) (PyStr.code z))
      as (H1 & H2 & H3 & H4 & _); [apply code_below..|].
    destruct (sextets (PyStr.code x') (PyStr.code y') (PyStr.code z'))
      as (H1' & H2' & H3' & H4' & _); [apply code_below..|].
    simpl. intros [= E1 E2 E3 E4 E]. apply digit_inj in E1, E2, E3, E4; try done.
    destruct (group_inj _ _ _ _ _ _ (code_below x) (code_below y) (code_below z)
                (code_below x') (code_below y') (code_below z') E1 E2 E3 E4)
      as (Ex & Ey & Ez).
    by rewrite (code_inj _ _ Ex), (code_inj _ _ Ey), (code_inj _ _ Ez), (IH r' E).
Qed.

End Base64Facts.

Section ExportLink.

Lemma forallb_all_chars P s :
  forallb P (list_ascii_of_string s) = all_chars P s.
Proof. induction s as [|c s IH]; simpl; [done | by rewrite IH]. Qed.

Lemma all_chars_impl (P Q : ascii → bool) s :
  (∀ c, P c = true → Q c = true) → all_chars P s = true → all_chars Q s = true.
Proof.
  intros HPQ. induction s as [|c s IH]; simpl; [done|].
  intros [Hc Hs]%andb_prop. by rewrite (HPQ c Hc), IH.
Qed.

Lemma base64_ascii c : is_base64 c = true → is_ascii c = true.
Proof. destruct c as [[] [] [] [] [] [] [] []]; by vm_compute. Qed.

Lemma decode_ascii s : all_chars is_ascii s = true → PyStr.decode s = Some s.
Proof.
  intros Hs. unfold PyStr.decode.
  change (λ c, (PyStr.code c <? 128)%N) with is_ascii.
  by rewrite forallb_all_chars, Hs.
Qed.

Lemma export_link_run lines :
  App.export_link lines =
  Some (double_quoted "<a href='data:application/json;base64," +:+
        Base64.b64encode (Json.dumps (JList lines)) +:+
        double_quoted "' download='podcast_script.json'>Download JSON</a>").
Proof.
  unfold App.export_link. cbv zeta.
  rewrite (encode_ascii_id _ (dumps_ascii (JList lines))).
  rewrite decode_ascii by (apply (all_chars_impl _ _ _ base64_ascii), b64encode_base64).
  reflexivity.
Qed.

Lemma string_app_inv_tail (a b c : string) : a +:+ c = b +:+ c → a = b.
Proof.
  intros H. apply (f_equal list_ascii_of_string) in H.
  rewrite !chars_app in H. apply app_inv_tail in H.
  rewrite <- (string_of_list_ascii_of_string a), <- (string_of_list_ascii_of_string b).
  by rewrite H.
Qed.



End ExportLink.


